(** * The wasm32 machine-dependent layer of libffi (src/wasm32/ffi.c)

    A shallow embedding of the type canonicaliser ([replace_type]), the
    ABI classifier ([type_size], [return_indirect], [arguments_count]), the
    argument lowerer and raiser ([place_value], [take_value]) and the
    entry points [ffi_prep_cif_machdep], [ffi_prep_cif_machdep_var],
    [ffi_call] and [ffi_prep_closure_loc]; then of the closure side
    ([closure_backing_function], [ffi_closure_alloc], [ffi_closure_free])
    and, from the emscripten half, of [unbox_small_structs], the signature
    that [ffi_prep_closure_loc_js] builds and [STACK_ALLOC].

    Type descriptors live in a store indexed by address, because the C code
    rewrites them in place and descriptors are shared (the library's
    [ffi_type_longdouble], for instance, is one object for every user). *)

From stdpp Require Import gmap list strings.
From Stdlib Require Import ZArith NArith Lia.

Set Default Proof Using "Type".
Local Open Scope N_scope.

(** ** Outcomes of a C function

    [Ret a]     the function returns [a];
    [Abort]     the function calls [abort()] ([ABORT_WITH_MSG], a failed
                [FFI_ASSERT], a host primitive error);
    [Stuck]     the function dereferences a pointer that designates no
                object (undefined behaviour in C);
    [OutOfFuel] the recursion budget of the model is exhausted. *)
Inductive outcome (A : Type) : Type :=
| Ret (a : A)
| Abort
| Stuck
| OutOfFuel.
Arguments Ret {A} a.
Arguments Abort {A}.
Arguments Stuck {A}.
Arguments OutOfFuel {A}.

#[global] Instance outcome_ret : MRet outcome := fun A a => Ret a.
#[global] Instance outcome_bind : MBind outcome := fun A B f m =>
  match m with
  | Ret a => f a
  | Abort => Abort
  | Stuck => Stuck
  | OutOfFuel => OutOfFuel
  end.

(** ** Data model *)

(** Addresses of wasm32 linear memory; [NULL] is address 0. *)
Abbreviation ptr := N.
Definition NULL : ptr := 0.

(** [size_t] is 32 bits wide on wasm32. *)
Definition SIZE_MAX1 : N := 2 ^ 32.

(** The [FFI_TYPE_*] tags of [ffi_type.type]. The field is an
    [unsigned short]; every value that is none of the sixteen tags of ffi.h
    is [FFI_TYPE_other], which is what the [default:] labels catch. *)
Inductive ffi_kind : Type :=
| FFI_TYPE_VOID
| FFI_TYPE_INT
| FFI_TYPE_FLOAT
| FFI_TYPE_DOUBLE
| FFI_TYPE_LONGDOUBLE
| FFI_TYPE_UINT8
| FFI_TYPE_SINT8
| FFI_TYPE_UINT16
| FFI_TYPE_SINT16
| FFI_TYPE_UINT32
| FFI_TYPE_SINT32
| FFI_TYPE_UINT64
| FFI_TYPE_SINT64
| FFI_TYPE_STRUCT
| FFI_TYPE_POINTER
| FFI_TYPE_COMPLEX
| FFI_TYPE_other (tag : N).

#[global] Instance ffi_kind_eq_dec : EqDecision ffi_kind.
Proof. solve_decision. Defined.

(** [ffi_type]: the fields [size] (a [size_t]), [alignment] and [type]
    (two [unsigned short]) and [elements] (an [ffi_type **]), under the
    names [ty_size], ... [ty_elements]. [ty_elements] is [None] for a NULL
    [elements] pointer and otherwise the entries of the null-terminated
    vector it designates, terminator excluded (so every entry is a
    non-null address). The vectors themselves are never written by ffi.c,
    only the pointer field is reassigned, so a descriptor carries its
    vector by value. *)
Record ffi_type : Type := mk_ffi_type {
  ty_size : N;
  ty_alignment : N;
  ty_type : ffi_kind;
  ty_elements : option (list ptr)
}.

(** The descriptor memory: which descriptor sits at which address. *)
Abbreviation store := (gmap N ffi_type).

Inductive ffi_status : Type := FFI_OK | FFI_BAD_TYPEDEF | FFI_BAD_ABI.

(** [ffi_cif]: the fields ffi.c reads or writes. [arg_types] holds the
    entries of the array the pointer designates. *)
Record ffi_cif : Type := mk_ffi_cif {
  abi : N;
  nargs : N;
  arg_types : list ptr;
  rtype : ptr;
  flags : N;
  nfixedargs : N
}.

Definition MAX_ARGS : N := 1000.
Definition VARARGS_FLAG : N := 1.

(** What the translation unit takes from its build and from the rest of
    libffi, none of which is defined in ffi.c: whether [__EMSCRIPTEN__] is
    defined; the macro [FFI_ASSERT] of ffi_common.h (it may abort when its
    condition fails, and does nothing when it holds); the ABI tags of
    ffitarget.h; the addresses of the descriptors that types.c defines. *)
Class build : Type := {
  EMSCRIPTEN : bool;
  FFI_ASSERT : bool → outcome unit;
  FFI_ASSERT_holds : FFI_ASSERT true = Ret tt;
  FFI_WASM32 : N;
  FFI_WASM32_EMSCRIPTEN : N;
  ffi_type_float : ptr;
  ffi_type_double : ptr;
  ffi_type_longdouble : ptr;
  ffi_type_sint64 : ptr
}.

(** [*p] for a descriptor pointer. *)
Definition deref (st : store) (p : ptr) : outcome ffi_type :=
  match st !! p with
  | Some t => Ret t
  | None => Stuck
  end.

(** The kind found at an address ([FFI_TYPE_VOID] where there is no
    descriptor, as for a NULL return type). *)
Definition kind_at (st : store) (p : ptr) : ffi_kind :=
  match st !! p with
  | Some t => ty_type t
  | None => FFI_TYPE_VOID
  end.

Definition is_void (k : ffi_kind) : bool :=
  match k with FFI_TYPE_VOID => true | _ => false end.

Definition set_type (t : ffi_type) (k : ffi_kind) : ffi_type :=
  mk_ffi_type (ty_size t) (ty_alignment t) k (ty_elements t).

Section Canonicaliser.
Context {B : build}.

(** The loop of [replace_type] over [type->elements]: [rt] is the
    recursive call [replace_type(_, false)]; the accumulators are
    [scalar_type] and [number_of_nonvoid_elements] (a [size_t], which no
    vector that fits in memory can overflow). The loop runs over the
    vector as it is on entry: the recursive calls never write a vector,
    and reassign the [elements] field of COMPLEX descriptors only, which
    the struct being walked is not. *)
Fixpoint replace_elements (rt : store → ptr → outcome (store * ffi_kind))
    (els : list ptr) (st : store) (scalar_type : ffi_kind) (n : N)
    : outcome (store * ffi_kind * N) :=
  match els with
  | [] => Ret (st, scalar_type, n)
  | e :: els' =>
      '(st', element_type) ← rt st e;
      if is_void element_type
      then replace_elements rt els' st' scalar_type n
      else replace_elements rt els' st' element_type (n + 1)
  end.

(** [replace_type(type, in_results)]: the store after the in-place
    rewrite, and the returned kind. The three [if]s of the C function are
    the three special cases of the [match]. In the COMPLEX case
    [complex_type] is read before [type] is written: the two are distinct
    objects whenever the [switch] does not abort, their kinds being
    different. After the loop [type->type] is read again from memory, as
    in the C code. *)
Fixpoint replace_type (fuel : nat) (st : store) (type : ptr) (in_results : bool)
    : outcome (store * ffi_kind) :=
  match fuel with
  | O => OutOfFuel
  | S fuel' =>
    if decide (type = NULL) then Ret (st, FFI_TYPE_VOID) else
    t ← deref st type;
    match ty_type t with
    | FFI_TYPE_COMPLEX =>
        els ← (match ty_elements t with Some l => Ret l | None => Stuck end);
        complex_type ← (match els with c :: _ => deref st c | [] => Stuck end);
        new_elements ← (match ty_type complex_type with
                        | FFI_TYPE_FLOAT => Ret [ffi_type_float; ffi_type_float]
                        | FFI_TYPE_DOUBLE => Ret [ffi_type_double; ffi_type_double]
                        | FFI_TYPE_LONGDOUBLE => Ret [ffi_type_longdouble; ffi_type_longdouble]
                        | _ => Abort
                        end);
        let size' := (ty_size complex_type * 2) `mod` SIZE_MAX1 in
        _ ← FFI_ASSERT (bool_decide (ty_size t = size'));
        _ ← FFI_ASSERT (bool_decide (ty_alignment t = ty_alignment complex_type));
        Ret (<[type := mk_ffi_type size' (ty_alignment complex_type)
                         FFI_TYPE_STRUCT (Some new_elements)]> st,
             FFI_TYPE_STRUCT)
    | FFI_TYPE_LONGDOUBLE =>
        if in_results then
          s64 ← deref st ffi_type_sint64;
          Ret (<[type := mk_ffi_type ((ty_size s64 * 2) `mod` SIZE_MAX1) 16
                           FFI_TYPE_STRUCT (Some [ffi_type_sint64; ffi_type_sint64])]> st,
               FFI_TYPE_STRUCT)
        else Ret (st, FFI_TYPE_LONGDOUBLE)
    | FFI_TYPE_STRUCT =>
        if decide (ty_size t = 0) then
          Ret (<[type := set_type t FFI_TYPE_VOID]> st, FFI_TYPE_VOID)
        else
          els ← (match ty_elements t with Some l => Ret l | None => Stuck end);
          '(st1, scalar_type, number_of_nonvoid_elements) ←
            replace_elements (fun s e => replace_type fuel' s e false)
                             els st FFI_TYPE_VOID 0;
          t1 ← deref st1 type;
          if decide (1 < number_of_nonvoid_elements) then Ret (st1, ty_type t1)
          else Ret (<[type := set_type t1 scalar_type]> st1, scalar_type)
    | k => Ret (st, k)
    end
  end.

End Canonicaliser.

(** ** ABI classifier *)

(** [type_size]: the size of the type in the wasm C ABI, in bytes. *)
Definition type_size (st : store) (type : ptr) : outcome N :=
  if decide (type = NULL) then Ret 0 else
  t ← deref st type;
  match ty_type t with
  | FFI_TYPE_VOID => Ret 0
  | FFI_TYPE_INT | FFI_TYPE_UINT8 | FFI_TYPE_SINT8 | FFI_TYPE_UINT16
  | FFI_TYPE_SINT16 | FFI_TYPE_UINT32 | FFI_TYPE_SINT32 => Ret 4
  | FFI_TYPE_FLOAT => Ret 4
  | FFI_TYPE_UINT64 | FFI_TYPE_SINT64 => Ret 8
  | FFI_TYPE_DOUBLE => Ret 8
  | FFI_TYPE_POINTER | FFI_TYPE_STRUCT => Ret 4
  | FFI_TYPE_LONGDOUBLE => Ret 16
  | FFI_TYPE_COMPLEX => Abort
  | FFI_TYPE_other _ => Abort
  end.

(** [return_indirect]: whether the type is returned through a pointer
    passed as the first argument. *)
Definition return_indirect (st : store) (rtype : ptr) : outcome bool :=
  if decide (rtype = NULL) then Ret false else
  t ← deref st rtype;
  match ty_type t with
  | FFI_TYPE_VOID | FFI_TYPE_INT | FFI_TYPE_FLOAT | FFI_TYPE_UINT8
  | FFI_TYPE_SINT8 | FFI_TYPE_UINT16 | FFI_TYPE_SINT16 | FFI_TYPE_UINT32
  | FFI_TYPE_SINT32 | FFI_TYPE_UINT64 | FFI_TYPE_SINT64 | FFI_TYPE_DOUBLE
  | FFI_TYPE_POINTER => Ret false
  | FFI_TYPE_STRUCT => Ret true
  | FFI_TYPE_COMPLEX => Abort
  | FFI_TYPE_LONGDOUBLE => Abort
  | FFI_TYPE_other _ => Abort
  end.

(** [arguments_count]: how many wasm values pass the type. It has no NULL
    test: it reads [type->type] at once. *)
Definition arguments_count (st : store) (type : ptr) : outcome N :=
  t ← deref st type;
  match ty_type t with
  | FFI_TYPE_VOID => Ret 0
  | FFI_TYPE_INT | FFI_TYPE_FLOAT | FFI_TYPE_UINT8 | FFI_TYPE_SINT8
  | FFI_TYPE_UINT16 | FFI_TYPE_SINT16 | FFI_TYPE_UINT32 | FFI_TYPE_SINT32
  | FFI_TYPE_UINT64 | FFI_TYPE_SINT64 | FFI_TYPE_DOUBLE | FFI_TYPE_POINTER
  | FFI_TYPE_STRUCT => Ret 1
  | FFI_TYPE_LONGDOUBLE => Ret 2
  | FFI_TYPE_COMPLEX => Abort
  | FFI_TYPE_other _ => Abort
  end.

(** [FFI_WASM_TYPE_I32] ... [FFI_WASM_TYPE_F64]. *)
Inductive wasm_type : Type :=
  FFI_WASM_TYPE_I32 | FFI_WASM_TYPE_I64 | FFI_WASM_TYPE_F32 | FFI_WASM_TYPE_F64.

(** [place_type]: the wasm types appended to the signature buffer. *)
Definition place_type (st : store) (type : ptr) (types : list wasm_type)
    : outcome (list wasm_type) :=
  t ← deref st type;
  match ty_type t with
  | FFI_TYPE_VOID => Ret types
  | FFI_TYPE_SINT8 | FFI_TYPE_UINT8 | FFI_TYPE_UINT16 | FFI_TYPE_SINT16
  | FFI_TYPE_UINT32 | FFI_TYPE_INT | FFI_TYPE_SINT32 => Ret (types ++ [FFI_WASM_TYPE_I32])
  | FFI_TYPE_FLOAT => Ret (types ++ [FFI_WASM_TYPE_F32])
  | FFI_TYPE_UINT64 | FFI_TYPE_SINT64 => Ret (types ++ [FFI_WASM_TYPE_I64])
  | FFI_TYPE_DOUBLE => Ret (types ++ [FFI_WASM_TYPE_F64])
  | FFI_TYPE_POINTER | FFI_TYPE_STRUCT => Ret (types ++ [FFI_WASM_TYPE_I32])
  | FFI_TYPE_LONGDOUBLE => Ret (types ++ [FFI_WASM_TYPE_I64; FFI_WASM_TYPE_I64])
  | FFI_TYPE_COMPLEX => Abort
  | FFI_TYPE_other _ => Abort
  end.

(** ** Linear memory, byte by byte

    wasm is little-endian and its loads and stores need no alignment.
    Addresses are below [2 ^ 32]; the model does not wrap them. *)
Abbreviation mem := (N → Byte.byte).

Definition load_bytes (m : mem) (p : ptr) (n : nat) : list Byte.byte :=
  map (fun i => m (p + N.of_nat i)) (seq 0 n).

Fixpoint store_bytes (m : mem) (p : ptr) (bs : list Byte.byte) : mem :=
  match bs with
  | [] => m
  | b :: bs' => store_bytes (fun a => if decide (a = p) then b else m a) (p + 1) bs'
  end.

Definition byte_of_Z (z : Z) : Byte.byte :=
  match Byte.of_N (Z.to_N (z `mod` 256)%Z) with
  | Some b => b
  | None => Byte.x00
  end.

Definition Z_of_byte (b : Byte.byte) : Z := Z.of_N (Byte.to_N b).

(** The unsigned integer a little-endian byte sequence denotes. *)
Fixpoint decode_le (bs : list Byte.byte) : Z :=
  match bs with
  | [] => 0%Z
  | b :: bs' => (Z_of_byte b + 256 * decode_le bs')%Z
  end.

(** The [n] low bytes of [z], little-endian (two's complement for a
    negative [z]). *)
Fixpoint encode_le (n : nat) (z : Z) : list Byte.byte :=
  match n with
  | O => []
  | S n' => byte_of_Z z :: encode_le n' (z / 256)%Z
  end.

(** Reading an [n]-byte unsigned, resp. signed, integer object. *)
Definition load_unsigned (m : mem) (p : ptr) (n : nat) : Z :=
  decode_le (load_bytes m p n).

Definition load_signed (m : mem) (p : ptr) (n : nat) : Z :=
  let u := load_unsigned m p n in
  let w := (8 * Z.of_nat n)%Z in
  if (u <? 2 ^ (w - 1))%Z then u else (u - 2 ^ w)%Z.

(** Conversion to [UINT32], resp. [SINT32] followed by the 4-byte store of
    its two's-complement representation: both keep the value modulo
    [2 ^ 32]. *)
Definition store_32 (m : mem) (p : ptr) (z : Z) : mem :=
  store_bytes m p (encode_le 4 (z `mod` 2 ^ 32)%Z).

(** [place_value]: write [*value], read at the type's C type, into the
    values buffer at the cursor [values]; returns the memory and the
    advanced cursor. Floating-point loads and stores move the bits
    unchanged, so they are byte copies here. *)
Definition place_value (st : store) (type : ptr) (value : ptr) (m : mem) (values : ptr)
    : outcome (mem * ptr) :=
  t ← deref st type;
  match ty_type t with
  | FFI_TYPE_VOID => Ret (m, values)
  | FFI_TYPE_UINT8 => Ret (store_32 m values (load_unsigned m value 1), values + 4)
  | FFI_TYPE_SINT8 => Ret (store_32 m values (load_signed m value 1), values + 4)
  | FFI_TYPE_UINT16 => Ret (store_32 m values (load_unsigned m value 2), values + 4)
  | FFI_TYPE_SINT16 => Ret (store_32 m values (load_signed m value 2), values + 4)
  | FFI_TYPE_UINT32 => Ret (store_32 m values (load_unsigned m value 4), values + 4)
  | FFI_TYPE_INT | FFI_TYPE_SINT32 => Ret (store_32 m values (load_signed m value 4), values + 4)
  | FFI_TYPE_FLOAT => Ret (store_bytes m values (load_bytes m value 4), values + 4)
  | FFI_TYPE_UINT64 =>
      Ret (store_bytes m values (encode_le 8 (load_unsigned m value 8 `mod` 2 ^ 64)%Z), values + 8)
  | FFI_TYPE_SINT64 =>
      Ret (store_bytes m values (encode_le 8 (load_signed m value 8 `mod` 2 ^ 64)%Z), values + 8)
  | FFI_TYPE_DOUBLE => Ret (store_bytes m values (load_bytes m value 8), values + 8)
  | FFI_TYPE_POINTER => Ret (store_32 m values (load_unsigned m value 4), values + 4)
  | FFI_TYPE_STRUCT => Ret (store_32 m values (Z.of_N value), values + 4)
  | FFI_TYPE_LONGDOUBLE => Ret (store_bytes m values (load_bytes m value 16), values + 16)
  | FFI_TYPE_COMPLEX => Abort
  | FFI_TYPE_other _ => Abort
  end.

(** [take_value]: the pointer to hand out for the value at the cursor,
    and the advanced cursor. *)
Definition take_value (st : store) (type : ptr) (m : mem) (values : ptr)
    : outcome (ptr * ptr) :=
  t ← deref st type;
  match ty_type t with
  | FFI_TYPE_VOID => Ret (values, values)
  | FFI_TYPE_UINT8 | FFI_TYPE_SINT8 | FFI_TYPE_UINT16 | FFI_TYPE_SINT16
  | FFI_TYPE_UINT32 | FFI_TYPE_INT | FFI_TYPE_SINT32 | FFI_TYPE_FLOAT => Ret (values, values + 4)
  | FFI_TYPE_UINT64 | FFI_TYPE_SINT64 | FFI_TYPE_DOUBLE => Ret (values, values + 8)
  | FFI_TYPE_POINTER => Ret (values, values + 4)
  | FFI_TYPE_STRUCT => Ret (Z.to_N (load_unsigned m values 4), values + 4)
  | FFI_TYPE_LONGDOUBLE => Ret (values, values + 16)
  | FFI_TYPE_COMPLEX => Abort
  | FFI_TYPE_other _ => Abort
  end.

(** The size in bytes of the C object [place_value] reads through [value]
    for a kind ([UINT8] for [FFI_TYPE_UINT8], [long double] for
    [FFI_TYPE_LONGDOUBLE], ...); a struct is not read, its address is
    passed. *)
Definition c_object_size (k : ffi_kind) : nat :=
  match k with
  | FFI_TYPE_UINT8 | FFI_TYPE_SINT8 => 1
  | FFI_TYPE_UINT16 | FFI_TYPE_SINT16 => 2
  | FFI_TYPE_UINT32 | FFI_TYPE_SINT32 | FFI_TYPE_INT | FFI_TYPE_FLOAT
  | FFI_TYPE_POINTER => 4
  | FFI_TYPE_UINT64 | FFI_TYPE_SINT64 | FFI_TYPE_DOUBLE => 8
  | FFI_TYPE_LONGDOUBLE => 16
  | _ => 0
  end.

(** ** Host primitives and entry points *)

(** The arguments of one [impl_call_dynamic] call. *)
Record call_dynamic : Type := mk_call_dynamic {
  cd_function : ptr;
  cd_values : ptr;
  cd_values_len : N;
  cd_results : ptr;
  cd_results_len : N
}.

(** [ffi_closure]; [cl_cif] stands for the [cif] pointer and holds the CIF
    it designates, [cl_fun] is the field [fun]. *)
Record ffi_closure : Type := mk_ffi_closure {
  ftramp : ptr;
  cl_cif : ffi_cif;
  cl_fun : ptr;
  user_data : ptr
}.

(** The arguments of one [impl_closure_prepare] call (the backing function
    is always [closure_backing_function]). *)
Record closure_prepare : Type := mk_closure_prepare {
  cp_code : ptr;
  cp_argument_types : list wasm_type;
  cp_argument_types_len : N;
  cp_result_types : list wasm_type;
  cp_result_types_len : N;
  cp_user_data : ffi_closure
}.

(** What the host provides: the two wasix system calls (each returns an
    error code, the dynamic call also the memory it leaves) and, in the
    emscripten build, the JavaScript halves of the entry points. *)
Class host : Type := {
  wasix_call_dynamic : call_dynamic → mem → Z * mem;
  wasix_closure_prepare : closure_prepare → Z;
  ffi_call_js : store → ffi_cif → ptr → ptr → list ptr → mem → outcome mem;
  ffi_prep_closure_loc_js :
    ffi_closure → ffi_cif → ptr → ptr → ptr → outcome (ffi_closure * ffi_status)
}.

Section EntryPoints.
Context {B : build} {H : host}.

Definition impl_call_dynamic (c : call_dynamic) (m : mem) : outcome mem :=
  let '(error, m') := wasix_call_dynamic c m in
  if decide (error ≠ 0%Z) then Abort else Ret m'.

Definition impl_closure_prepare (c : closure_prepare) : outcome ffi_status :=
  if decide (wasix_closure_prepare c ≠ 0%Z) then Abort else Ret FFI_OK.

(** [cif->arg_types[0 .. nargs-1]]; an array with fewer than [nargs]
    entries is read out of bounds. *)
Definition cif_args (cif : ffi_cif) : outcome (list ptr) :=
  if decide (nargs cif ≤ N.of_nat (length (arg_types cif)))
  then Ret (take (N.to_nat (nargs cif)) (arg_types cif))
  else Stuck.

(** [for (i ...) replace_type(cif->arg_types[i], false);] *)
Fixpoint replace_args (fuel : nat) (st : store) (args : list ptr) : outcome store :=
  match args with
  | [] => Ret st
  | a :: args' =>
      '(st', element_type) ← replace_type fuel st a false;
      replace_args fuel st' args'
  end.

(** [for (i ...) if (cif->arg_types[i]->type == FFI_TYPE_COMPLEX) return
    FFI_BAD_TYPEDEF;]: [true] when the loop returns. *)
Fixpoint complex_args (st : store) (args : list ptr) : outcome bool :=
  match args with
  | [] => Ret false
  | a :: args' =>
      t ← deref st a;
      if decide (ty_type t = FFI_TYPE_COMPLEX) then Ret true
      else complex_args st args'
  end.

(** The first half of [ffi_prep_cif_machdep], one branch per build:
    [inl s] when it returns [s] at once, [inr st'] when control reaches
    the common tail with the store [st']. *)
Definition prep_types (fuel : nat) (st : store) (cif : ffi_cif)
    : outcome (ffi_status + store) :=
  if EMSCRIPTEN then
    if decide (abi cif ≠ FFI_WASM32_EMSCRIPTEN) then Ret (inl FFI_BAD_ABI) else
    rt ← deref st (rtype cif);
    if decide (ty_type rt = FFI_TYPE_COMPLEX) then Ret (inl FFI_BAD_TYPEDEF) else
    args ← cif_args cif;
    c ← complex_args st args;
    if c : bool then Ret (inl FFI_BAD_TYPEDEF) else Ret (inr st)
  else
    args ← cif_args cif;
    st1 ← replace_args fuel st args;
    '(st2, rkind) ← replace_type fuel st1 (rtype cif) true;
    Ret (inr st2).

Definition set_nfixedargs (cif : ffi_cif) (n : N) : ffi_cif :=
  mk_ffi_cif (abi cif) (nargs cif) (arg_types cif) (rtype cif) (flags cif) n.

Definition set_flags (cif : ffi_cif) (f : N) : ffi_cif :=
  mk_ffi_cif (abi cif) (nargs cif) (arg_types cif) (rtype cif) f (nfixedargs cif).

(** [ffi_prep_cif_machdep(cif)]: the store and the CIF it leaves, and the
    status it returns. *)
Definition ffi_prep_cif_machdep (fuel : nat) (st : store) (cif : ffi_cif)
    : outcome (store * ffi_cif * ffi_status) :=
  r ← prep_types fuel st cif;
  match r with
  | inl s => Ret (st, cif, s)
  | inr st' =>
      let cif' := if decide (N.land (flags cif) VARARGS_FLAG = 0)
                  then set_nfixedargs cif (nargs cif) else cif in
      if decide (MAX_ARGS < nargs cif') then Ret (st', cif', FFI_BAD_TYPEDEF)
      else Ret (st', cif', FFI_OK)
  end.

(** [ffi_prep_cif_machdep_var(cif, nfixedargs, ntotalargs)]; [unsigned] is
    32 bits wide. *)
Definition ffi_prep_cif_machdep_var (cif : ffi_cif) (nfixedargs' ntotalargs : N)
    : ffi_cif * ffi_status :=
  let cif1 := set_flags cif (N.lor (flags cif) VARARGS_FLAG) in
  let cif2 := set_nfixedargs cif1 nfixedargs' in
  if EMSCRIPTEN then
    if decide (MAX_ARGS < (nfixedargs cif2 + 1) `mod` 2 ^ 32) then (cif2, FFI_BAD_TYPEDEF)
    else (cif2, FFI_OK)
  else (cif2, FFI_BAD_ABI).

(** [for (i ...) total_size += type_size(cif->arg_types[i]);] on a
    [size_t]. *)
Fixpoint sum_type_sizes (st : store) (args : list ptr) (total_size : N) : outcome N :=
  match args with
  | [] => Ret total_size
  | a :: args' =>
      s ← type_size st a;
      sum_type_sizes st args' ((total_size + s) `mod` SIZE_MAX1)
  end.

(** [for (i ...) place_value(cif->arg_types[i], avalue[i], &current_value);] *)
Fixpoint place_values (st : store) (args avalue : list ptr) (m : mem) (current_value : ptr)
    : outcome (mem * ptr) :=
  match args with
  | [] => Ret (m, current_value)
  | a :: args' =>
      match avalue with
      | [] => Stuck
      | v :: avalue' =>
          '(m', current_value') ← place_value st a v m current_value;
          place_values st args' avalue' m' current_value'
      end
  end.

(** The [#else] branch of [ffi_call] up to the call of
    [impl_call_dynamic]: the memory with the values buffer filled, the
    cursor after the last value and the arguments of the host call.
    [values] is the address at which the variable-length array
    [uint8_t values[total_size]] is allocated. *)
Definition ffi_call_request (st : store) (cif : ffi_cif) (fn rvalue : ptr)
    (avalue : list ptr) (m : mem) (values : ptr) : outcome (mem * ptr * call_dynamic) :=
  indirect_return ← return_indirect st (rtype cif);
  total_size0 ← (if indirect_return : bool
                 then s ← type_size st (rtype cif); Ret ((0 + s) `mod` SIZE_MAX1)
                 else Ret 0);
  args ← cif_args cif;
  total_size ← sum_type_sizes st args total_size0;
  let '(m1, current_value) :=
    if indirect_return : bool
    then (store_32 m values (Z.of_N rvalue), values + 4)
    else (m, values) in
  '(m2, current_value') ← place_values st args avalue m1 current_value;
  results_len ← (if indirect_return : bool then Ret 0 else type_size st (rtype cif));
  Ret (m2, current_value', mk_call_dynamic fn values total_size rvalue results_len).

(** [ffi_call(cif, fn, rvalue, avalue)]. *)
Definition ffi_call (st : store) (cif : ffi_cif) (fn rvalue : ptr)
    (avalue : list ptr) (m : mem) (values : ptr) : outcome mem :=
  if EMSCRIPTEN then ffi_call_js st cif fn rvalue avalue m
  else
    '(m2, current_value, c) ← ffi_call_request st cif fn rvalue avalue m values;
    impl_call_dynamic c m2.

(** [for (i ...) argument_count += arguments_count(cif->arg_types[i]);]
    ([int] arithmetic, far from its bound for any array that fits in
    memory). *)
Fixpoint sum_arguments_count (st : store) (args : list ptr) (argument_count : N) : outcome N :=
  match args with
  | [] => Ret argument_count
  | a :: args' =>
      c ← arguments_count st a;
      sum_arguments_count st args' (argument_count + c)
  end.

(** [for (i ...) place_type(cif->arg_types[i], &arg_types_ptr);] *)
Fixpoint place_types (st : store) (args : list ptr) (types : list wasm_type)
    : outcome (list wasm_type) :=
  match args with
  | [] => Ret types
  | a :: args' =>
      types' ← place_type st a types;
      place_types st args' types'
  end.

(** [ffi_prep_closure_loc(closure, cif, fun, user_data, codeloc)]: the
    closure object it leaves and the status it returns. *)
Definition ffi_prep_closure_loc (st : store) (closure : ffi_closure) (cif : ffi_cif)
    (fun_ user_data' codeloc : ptr) : outcome (ffi_closure * ffi_status) :=
  if EMSCRIPTEN then
    if decide (abi cif ≠ FFI_WASM32_EMSCRIPTEN) then Ret (closure, FFI_BAD_ABI)
    else ffi_prep_closure_loc_js closure cif fun_ user_data' codeloc
  else
    if decide (abi cif = FFI_WASM32_EMSCRIPTEN) then Ret (closure, FFI_BAD_ABI) else
    indirect_return ← return_indirect st (rtype cif);
    rc ← arguments_count st (rtype cif);
    let '(argument_count0, result_count) :=
      if indirect_return : bool then (rc, 0) else (0, rc) in
    args ← cif_args cif;
    argument_count ← sum_arguments_count st args argument_count0;
    rt ← place_type st (rtype cif) [];
    let '(argument_types0, result_types) :=
      if indirect_return : bool then (rt, []) else ([], rt) in
    argument_types ← place_types st args argument_types0;
    let closure' := mk_ffi_closure codeloc cif fun_ user_data' in
    status ← impl_closure_prepare
      (mk_closure_prepare codeloc argument_types argument_count
                          result_types result_count closure');
    Ret (closure', status).

End EntryPoints.

(** ** Canonical form and well-formedness *)

(** [reach st p q]: [q] is [p] or is reached from [p] through the element
    vectors of descriptors whose kind is [FFI_TYPE_STRUCT]. *)
Inductive reach (st : store) : ptr → ptr → Prop :=
| reach_refl p : reach st p p
| reach_step p t l e q :
    st !! p = Some t → ty_type t = FFI_TYPE_STRUCT → ty_elements t = Some l →
    e ∈ l → reach st e q → reach st p q.

(** The elements of a vector whose kind is not [FFI_TYPE_VOID]. *)
Definition nonvoid (st : store) (l : list ptr) : list ptr :=
  filter (fun e => kind_at st e ≠ FFI_TYPE_VOID) l.

(** The shape [replace_type] leaves a struct's elements in: two or more
    of them are not void, or the only one that is not void is a struct. *)
Definition struct_shape (st : store) (l : list ptr) : Prop :=
  (2 ≤ length (nonvoid st l))%nat ∨
  ∃ e, nonvoid st l = [e] ∧ kind_at st e = FFI_TYPE_STRUCT.

(** A descriptor in canonical form, seen alone. *)
Definition node_canon (st : store) (q : ptr) : Prop :=
  ∃ t, st !! q = Some t ∧ ty_type t ≠ FFI_TYPE_COMPLEX ∧
       (ty_type t = FFI_TYPE_STRUCT →
        ty_size t ≠ 0 ∧ ∃ l, ty_elements t = Some l ∧ struct_shape st l).

(** Canonical form of everything reachable from [p]. *)
Definition canon (st : store) (p : ptr) : Prop :=
  ∀ q, reach st p q → node_canon st q.

(** The canonical form as the specification words it: every struct has at
    least two elements that are not void. *)
Definition node_canon_spec (st : store) (q : ptr) : Prop :=
  ∃ t, st !! q = Some t ∧ ty_type t ≠ FFI_TYPE_COMPLEX ∧
       (ty_type t = FFI_TYPE_STRUCT →
        ∃ l, ty_elements t = Some l ∧ (2 ≤ length (nonvoid st l))%nat).

(** The roots of a CIF: the return type and the argument types. *)
Definition cif_roots (cif : ffi_cif) : list ptr :=
  rtype cif :: take (N.to_nat (nargs cif)) (arg_types cif).

(** The canonical form as the specification states it: no COMPLEX, every
    struct with at least two elements that are not void, no LONGDOUBLE
    return type. *)
Definition canonical_form_spec (st : store) (cif : ffi_cif) : Prop :=
  (∀ root q, root ∈ cif_roots cif → root ≠ NULL → reach st root q →
             node_canon_spec st q) ∧
  kind_at st (rtype cif) ≠ FFI_TYPE_LONGDOUBLE.

Section WellFormed.
Context {B : build}.

Definition float_kind (k : ffi_kind) : Prop :=
  k = FFI_TYPE_FLOAT ∨ k = FFI_TYPE_DOUBLE ∨ k = FFI_TYPE_LONGDOUBLE.

(** What well-formedness asks of one descriptor [t] at address [q]. The
    rank [rk] bounds the nesting: the elements of a struct rank below it
    (descriptors form a DAG), and so do the library descriptors a complex
    or long double type is rewritten onto. A complex type names its
    floating-point element type first, and has twice its size and its
    alignment (what the [FFI_ASSERT]s check). *)
Definition node_ranked (rk : ptr → nat) (st : store) (q : ptr) (t : ffi_type) : Prop :=
  match ty_type t with
  | FFI_TYPE_STRUCT =>
      ∃ l, ty_elements t = Some l ∧
           ∀ e, e ∈ l → is_Some (st !! e) ∧ (rk e < rk q)%nat
  | FFI_TYPE_COMPLEX =>
      ∃ c l ce, ty_elements t = Some (c :: l) ∧ st !! c = Some ce ∧
                float_kind (ty_type ce) ∧
                (ty_size ce * 2) `mod` SIZE_MAX1 ≠ 0 ∧
                ty_size t = (ty_size ce * 2) `mod` SIZE_MAX1 ∧
                ty_alignment t = ty_alignment ce ∧
                (rk ffi_type_float < rk q)%nat ∧ (rk ffi_type_double < rk q)%nat ∧
                (rk ffi_type_longdouble < rk q)%nat
  | FFI_TYPE_LONGDOUBLE => (rk ffi_type_sint64 < rk q)%nat
  | _ => True
  end.

(** A well-formed descriptor memory, first part: nothing at [NULL]; the
    library's [ffi_type_float], [ffi_type_double] and [ffi_type_sint64]
    are what types.c makes them; every descriptor is well-formed. Second
    part ([wf_store]): [ffi_type_longdouble] is a long double or, once a
    long double return has been prepared, the canonical struct it was
    rewritten to. *)
Definition ranked (rk : ptr → nat) (st : store) : Prop :=
  st !! NULL = None ∧
  kind_at st ffi_type_float = FFI_TYPE_FLOAT ∧
  kind_at st ffi_type_double = FFI_TYPE_DOUBLE ∧
  (∃ t, st !! ffi_type_sint64 = Some t ∧ ty_type t = FFI_TYPE_SINT64 ∧
        (ty_size t * 2) `mod` SIZE_MAX1 ≠ 0) ∧
  is_Some (st !! ffi_type_longdouble) ∧
  ∀ q t, st !! q = Some t → node_ranked rk st q t.

Definition wf_store (rk : ptr → nat) (st : store) : Prop :=
  ranked rk st ∧
  canon st ffi_type_longdouble ∧ kind_at st ffi_type_longdouble ≠ FFI_TYPE_VOID.

(** A well-formed CIF: a well-formed memory, [nargs] argument types, each
    a descriptor, and a return type that is a descriptor or [NULL]. *)
Definition wf_cif (rk : ptr → nat) (st : store) (cif : ffi_cif) : Prop :=
  wf_store rk st ∧
  N.of_nat (length (arg_types cif)) = nargs cif ∧
  (∀ a, a ∈ arg_types cif → is_Some (st !! a)) ∧
  (rtype cif = NULL ∨ is_Some (st !! rtype cif)).

End WellFormed.

(** ** Invariants of the canonicaliser *)

Section Invariants.
Context {B : build} (rk : ptr → nat).

(** The descriptors of rank [r] and above are the same in both
    memories. *)
Definition unchanged_from (r : nat) (st st' : store) : Prop :=
  ∀ q, (r ≤ rk q)%nat → st' !! q = st !! q.

(** Both memories hold descriptors at the same addresses. *)
Definition same_dom (st st' : store) : Prop :=
  ∀ q, is_Some (st' !! q) ↔ is_Some (st !! q).

(** What one call of [replace_type] guarantees on a well-formed memory. *)
Definition post_ranked (st : store) (p : ptr) (b : bool) (st' : store) (k : ffi_kind) : Prop :=
  (b = false → ranked rk st') ∧
  unchanged_from (S (rk p)) st st' ∧
  same_dom st st' ∧
  (p ≠ NULL → kind_at st' p = k) ∧
  k ≠ FFI_TYPE_COMPLEX ∧
  (∀ t, st !! p = Some t → ty_type t = FFI_TYPE_STRUCT → st' !! p = Some (set_type t k)).

End Invariants.

(** How a kind may move while the memory is canonicalised: not at all, or
    from long double to struct (the return-position rewrite). *)
Definition kind_step (st st' : store) (q : ptr) : Prop :=
  kind_at st' q = kind_at st q ∨
  (kind_at st q = FFI_TYPE_LONGDOUBLE ∧ kind_at st' q = FFI_TYPE_STRUCT).

(** The value [scalar_type] ends with after the loop has seen [l]. *)
Definition last_kind (st : store) (l : list ptr) (s : ffi_kind) : ffi_kind :=
  from_option (kind_at st) s (last (nonvoid st l)).

(** How the kind of a canonical descriptor moves in one call of
    [replace_type] with [in_results = b]. *)
Definition kind_rel (b : bool) (st st' : store) (q : ptr) : Prop :=
  if b then kind_step st st' q else kind_at st' q = kind_at st q.

(** What one call of [replace_type] guarantees about canonical form. *)
Definition post_canon (st : store) (p : ptr) (b : bool) (st' : store) : Prop :=
  (p ≠ NULL → canon st' p) ∧
  (∀ q, canon st q → canon st' q ∧ kind_rel b st st' q) ∧
  (b = false → ∀ q, kind_at st q ≠ FFI_TYPE_STRUCT →
               kind_at st' q = FFI_TYPE_STRUCT → canon st' q).

(** The CIF and the status the common tail of [ffi_prep_cif_machdep]
    produces. *)
Definition prep_tail_cif (cif : ffi_cif) : ffi_cif :=
  if decide (N.land (flags cif) VARARGS_FLAG = 0)
  then set_nfixedargs cif (nargs cif) else cif.

Definition prep_tail_status (cif : ffi_cif) : ffi_status :=
  if decide (MAX_ARGS < nargs cif) then FFI_BAD_TYPEDEF else FFI_OK.

Section Checks.
Context {B : build}.

(** The checks the emscripten build makes besides the slot budget. *)
Definition other_checks_pass (st : store) (cif : ffi_cif) : Prop :=
  EMSCRIPTEN = true →
  abi cif = FFI_WASM32_EMSCRIPTEN ∧ is_Some (st !! rtype cif) ∧
  kind_at st (rtype cif) ≠ FFI_TYPE_COMPLEX ∧
  ∀ a, a ∈ arg_types cif → kind_at st a ≠ FFI_TYPE_COMPLEX.

End Checks.

(** The kinds [place_value] lowers by value: every canonical kind but
    STRUCT. *)
Definition lowerable (k : ffi_kind) : bool :=
  match k with
  | FFI_TYPE_STRUCT | FFI_TYPE_COMPLEX | FFI_TYPE_other _ => false
  | _ => true
  end.

(** The kinds a canonical return type may have. *)
Definition canonical_return_kind (k : ffi_kind) : bool :=
  match k with
  | FFI_TYPE_COMPLEX | FFI_TYPE_LONGDOUBLE | FFI_TYPE_other _ => false
  | _ => true
  end.

(** The wasm-ABI size of a kind (the table of [type_size]). *)
Definition abi_size (k : ffi_kind) : N :=
  match k with
  | FFI_TYPE_VOID => 0
  | FFI_TYPE_INT | FFI_TYPE_UINT8 | FFI_TYPE_SINT8 | FFI_TYPE_UINT16
  | FFI_TYPE_SINT16 | FFI_TYPE_UINT32 | FFI_TYPE_SINT32 | FFI_TYPE_FLOAT
  | FFI_TYPE_POINTER | FFI_TYPE_STRUCT => 4
  | FFI_TYPE_UINT64 | FFI_TYPE_SINT64 | FFI_TYPE_DOUBLE => 8
  | FFI_TYPE_LONGDOUBLE => 16
  | FFI_TYPE_COMPLEX | FFI_TYPE_other _ => 0
  end.

(** The kinds a canonical argument type may have. *)
Definition passable (k : ffi_kind) : bool :=
  match k with
  | FFI_TYPE_COMPLEX | FFI_TYPE_other _ => false
  | _ => true
  end.

(** The sum of the wasm-ABI sizes of a list of types. *)
Definition args_size (st : store) (args : list ptr) : N :=
  foldr (fun a acc => abi_size (kind_at st a) + acc) 0 args.

(** A prepared CIF, as [ffi_call] takes it: at most 1000 arguments,
    argument and return types of canonical kinds. *)
Definition prepared_cif (st : store) (cif : ffi_cif) : Prop :=
  st !! NULL = None ∧
  nargs cif ≤ MAX_ARGS ∧
  N.of_nat (length (arg_types cif)) = nargs cif ∧
  (∀ a, a ∈ arg_types cif → ∃ t, st !! a = Some t ∧ passable (ty_type t) = true) ∧
  (rtype cif = NULL ∨
   ∃ t, st !! rtype cif = Some t ∧ canonical_return_kind (ty_type t) = true).

(** ** Concrete inputs *)

(** The wasix build (no [__EMSCRIPTEN__], an empty [FFI_ASSERT]), with the ABI
    tags of ffitarget.h and the library descriptors at four addresses. *)
Definition wasix_build : build :=
  {| EMSCRIPTEN := false;
     FFI_ASSERT := fun _ => Ret tt; FFI_ASSERT_holds := eq_refl;
     FFI_WASM32 := 1; FFI_WASM32_EMSCRIPTEN := 2;
     ffi_type_float := 16; ffi_type_double := 32;
     ffi_type_sint64 := 48; ffi_type_longdouble := 64 |}.

(** A host whose primitives report no error. *)
Definition quiet_host : host :=
  {| wasix_call_dynamic := fun _ m => (0%Z, m);
     wasix_closure_prepare := fun _ => 0%Z;
     ffi_call_js := fun _ _ _ _ _ m => Ret m;
     ffi_prep_closure_loc_js := fun cl _ _ _ _ => Ret (cl, FFI_OK) |}.

Definition scalar (k : ffi_kind) (size alignment : N) : ffi_type :=
  mk_ffi_type size alignment k None.

(** The library descriptors, [ffi_type_sint32] and [ffi_type_void], and
    four user structs:
    112: struct pair { int; int }       128: struct wrap { struct pair }
    144: struct ld1 { long double }     160: struct one { int };
    and, at 176, [ffi_type_sint16]. *)
Definition example_store : store :=
  <[16 := scalar FFI_TYPE_FLOAT 4 4]>
  (<[32 := scalar FFI_TYPE_DOUBLE 8 8]>
  (<[48 := scalar FFI_TYPE_SINT64 8 8]>
  (<[64 := scalar FFI_TYPE_LONGDOUBLE 16 16]>
  (<[80 := scalar FFI_TYPE_SINT32 4 4]>
  (<[96 := scalar FFI_TYPE_VOID 1 1]>
  (<[112 := mk_ffi_type 8 4 FFI_TYPE_STRUCT (Some [80; 80])]>
  (<[128 := mk_ffi_type 8 4 FFI_TYPE_STRUCT (Some [112])]>
  (<[144 := mk_ffi_type 16 16 FFI_TYPE_STRUCT (Some [64])]>
  (<[160 := mk_ffi_type 4 4 FFI_TYPE_STRUCT (Some [80])]>
  (<[176 := scalar FFI_TYPE_SINT16 2 2]> ∅)))))))))).

(** Descriptors rank by address. *)
Definition example_rank (p : ptr) : nat := N.to_nat p.

(** [void f(struct wrap)], [struct ld1 g(void)], [long double h(int)],
    and [void k(void)] under the emscripten ABI tag and under a tag that
    is no ABI. *)
Definition cif_wrap : ffi_cif := mk_ffi_cif 1 1 [128] 96 0 0.
Definition cif_ld1 : ffi_cif := mk_ffi_cif 1 0 [] 144 0 0.
Definition cif_longdouble : ffi_cif := mk_ffi_cif 1 1 [80] 64 0 0.
Definition cif_emscripten : ffi_cif := mk_ffi_cif 2 0 [] 96 0 0.
Definition cif_unknown_abi : ffi_cif := mk_ffi_cif 7 0 [] 96 0 0.

(** [int add(int, int)]. *)
Definition cif_add : ffi_cif := mk_ffi_cif 1 2 [80; 80] 80 0 2.

(** [example_store] once [ffi_type_longdouble] has been prepared as a
    return type. *)
Definition example_store_ld : store :=
  <[64 := mk_ffi_type 16 16 FFI_TYPE_STRUCT (Some [48; 48])]> example_store.

(** [example_store] once [struct one] has been canonicalised. *)
Definition example_store_one : store :=
  <[160 := mk_ffi_type 4 4 FFI_TYPE_SINT32 (Some [80])]> example_store.

(** A memory holding the [short] -1 at address 1000 and zeros elsewhere. *)
Definition example_mem : mem :=
  fun a => if decide (a = 1000 ∨ a = 1001) then Byte.xff else Byte.x00.

(** ** The closure side of the wasix build *)

(** The bytes one wasm value occupies in the buffers of
    [impl_call_dynamic]: 4 for i32 and f32, 8 for i64 and f64. *)
Definition wasm_type_size (t : wasm_type) : N :=
  match t with
  | FFI_WASM_TYPE_I32 | FFI_WASM_TYPE_F32 => 4
  | FFI_WASM_TYPE_I64 | FFI_WASM_TYPE_F64 => 8
  end.

(** [for (i ...) libffi_args[i] = take_value(cif->arg_types[i], &ptr);] *)
Fixpoint take_values (st : store) (args : list ptr) (m : mem) (values : ptr)
    : outcome (list ptr * ptr) :=
  match args with
  | [] => Ret ([], values)
  | a :: args' =>
      '(p, values') ← take_value st a m values;
      '(ps, values'') ← take_values st args' m values';
      Ret (p :: ps, values'')
  end.

(** The arguments of the call [fun(cif, libffi_result, libffi_args,
    user_data)] that ends [closure_backing_function]; [hc_args] holds the
    entries of the array [libffi_args]. *)
Record handler_call : Type := mk_handler_call {
  hc_fun : ptr;
  hc_cif : ffi_cif;
  hc_result : ptr;
  hc_args : list ptr;
  hc_user_data : ptr
}.

(** [closure_backing_function(wasm_arguments, wasm_results, closure)] up
    to the call of the user's handler. *)
Definition closure_backing_function (st : store) (wasm_arguments wasm_results : ptr)
    (closure : ffi_closure) (m : mem) : outcome handler_call :=
  let cif := cl_cif closure in
  indirect_return ← return_indirect st (rtype cif);
  '(libffi_result, libffi_args_ptr) ←
    (if indirect_return : bool
     then take_value st (rtype cif) m wasm_arguments
     else Ret (wasm_results, wasm_arguments));
  args ← cif_args cif;
  '(libffi_args, libffi_args_ptr') ← take_values st args m libffi_args_ptr;
  Ret (mk_handler_call (cl_fun closure) cif libffi_result libffi_args (user_data closure)).

(** What [ffi_closure_alloc] and [ffi_closure_free] take from outside
    ffi.c: the C library's [aligned_alloc] (the address it returns, [NULL]
    when it fails) and [free], the two wasix system calls (an error code,
    and for the allocation the table index written through [code]), and
    the alignment [_Alignof(ffi_closure)]. *)
Class closure_host : Type := {
  aligned_alloc : N → N → ptr;
  wasix_closure_allocate : mem → Z * N;
  wasix_closure_free : ptr → Z;
  alignof_ffi_closure : N
}.

(** [_Alignof] of a pointer on wasm32. *)
Definition alignof_pointer : N := 4.

(** [sizeof] of a pointer on wasm32. *)
Definition sizeof_pointer : N := 4.

(** [~x] on a [size_t]. *)
Definition size_t_not (x : N) : N := N.lnot x 32.

(** What [ffi_closure_free] hands back: the table index released and the
    address passed to [free]. *)
Record closure_release : Type := mk_closure_release {
  cr_code : ptr;
  cr_allocation : ptr
}.

Section ClosureAllocation.
Context {CH : closure_host}.

(** [alignment] of [ffi_closure_alloc] and [ffi_closure_free]. *)
Definition closure_alignment : N :=
  if decide (alignof_pointer < alignof_ffi_closure) then alignof_ffi_closure
  else alignof_pointer.

(** [code_ptr_size]: the size of a pointer plus [alignment - 1], and-ed
    with [~(alignment - 1)], in [size_t] arithmetic. *)
Definition code_ptr_size : N :=
  N.land ((sizeof_pointer + closure_alignment - 1) `mod` SIZE_MAX1)
         (size_t_not ((closure_alignment - 1) `mod` SIZE_MAX1)).

(** [impl_closure_alloc(code)]: the host writes the table index it
    reserves through [code]. *)
Definition impl_closure_alloc (code : ptr) (m : mem) : outcome mem :=
  let '(error, index) := wasix_closure_allocate m in
  if decide (error ≠ 0%Z) then Abort else Ret (store_32 m code (Z.of_N index)).

Definition impl_free_closure (code : ptr) : outcome unit :=
  if decide (wasix_closure_free code ≠ 0%Z) then Abort else Ret tt.

(** The [#else] branch of [ffi_closure_alloc(size, code)]: the memory it
    leaves and the pointer it returns. The result of [aligned_alloc] is
    not tested: the header is written through it at once. *)
Definition ffi_closure_alloc (size : N) (code : ptr) (m : mem) : outcome (mem * ptr) :=
  let allocation := aligned_alloc closure_alignment ((size + code_ptr_size) `mod` SIZE_MAX1) in
  m1 ← impl_closure_alloc code m;
  if decide (allocation = NULL) then Stuck else
  let m2 := store_32 m1 allocation (load_unsigned m1 code 4) in
  Ret (m2, (allocation + code_ptr_size) `mod` SIZE_MAX1).

(** The [#else] branch of [ffi_closure_free(closure)]; pointer arithmetic
    is modulo [2 ^ 32]. *)
Definition ffi_closure_free (closure : ptr) (m : mem) : outcome closure_release :=
  let allocation := (closure + SIZE_MAX1 - code_ptr_size) `mod` SIZE_MAX1 in
  let code := Z.to_N (load_unsigned m allocation 4) in
  _ ← impl_free_closure code;
  Ret (mk_closure_release code allocation).

End ClosureAllocation.

(** ** The emscripten closure signature *)

(** The loop of [unbox_small_structs]: [type_id] is the kind read before
    the loop or in its last round. A struct of more than 16 bytes or with
    two or more elements is kept; one with no element gives
    [FFI_TYPE_VOID]; one with a single element is replaced by it. An
    [elements] field that is [NULL] is read at address 0, which is no
    descriptor. *)
Fixpoint unbox_loop (fuel : nat) (st : store) (type_ptr : ptr) (type_id : ffi_kind)
    : outcome (ptr * ffi_kind) :=
  match fuel with
  | O => OutOfFuel
  | S fuel' =>
      if decide (type_id = FFI_TYPE_STRUCT) then
        t ← deref st type_ptr;
        if decide (16 < ty_size t) then Ret (type_ptr, type_id) else
        match ty_elements t with
        | None => Stuck
        | Some [] => Ret (type_ptr, FFI_TYPE_VOID)
        | Some [first_element] =>
            te ← deref st first_element;
            unbox_loop fuel' st first_element (ty_type te)
        | Some (_ :: _ :: _) => Ret (type_ptr, type_id)
        end
      else Ret (type_ptr, type_id)
  end.

(** [unbox_small_structs(type_ptr)]: the pair [[type_ptr, type_id]] it
    returns. *)
Definition unbox_small_structs (fuel : nat) (st : store) (type_ptr : ptr)
    : outcome (ptr * ffi_kind) :=
  t ← deref st type_ptr;
  unbox_loop fuel st type_ptr (ty_type t).

(** The first [switch] of [ffi_prep_closure_loc_js]: the start of the
    signature and [ret_by_arg]. [Abort] stands for the [Error] thrown. *)
Definition sig_of_rtype (rtype_id : ffi_kind) : outcome (string * bool) :=
  match rtype_id with
  | FFI_TYPE_VOID => Ret ("v"%string, false)
  | FFI_TYPE_STRUCT | FFI_TYPE_LONGDOUBLE => Ret ("vi"%string, true)
  | FFI_TYPE_INT | FFI_TYPE_UINT8 | FFI_TYPE_SINT8 | FFI_TYPE_UINT16
  | FFI_TYPE_SINT16 | FFI_TYPE_UINT32 | FFI_TYPE_SINT32 | FFI_TYPE_POINTER =>
      Ret ("i"%string, false)
  | FFI_TYPE_FLOAT => Ret ("f"%string, false)
  | FFI_TYPE_DOUBLE => Ret ("d"%string, false)
  | FFI_TYPE_UINT64 | FFI_TYPE_SINT64 => Ret ("j"%string, false)
  | FFI_TYPE_COMPLEX => Abort
  | FFI_TYPE_other _ => Abort
  end.

(** The second [switch]: what one fixed argument adds to the signature.
    [FFI_TYPE_VOID] is not among its cases and falls to [default]. *)
Definition sig_of_arg (arg_type_id : ffi_kind) : outcome string :=
  match arg_type_id with
  | FFI_TYPE_INT | FFI_TYPE_UINT8 | FFI_TYPE_SINT8 | FFI_TYPE_UINT16
  | FFI_TYPE_SINT16 | FFI_TYPE_UINT32 | FFI_TYPE_SINT32 | FFI_TYPE_POINTER
  | FFI_TYPE_STRUCT => Ret "i"%string
  | FFI_TYPE_FLOAT => Ret "f"%string
  | FFI_TYPE_DOUBLE => Ret "d"%string
  | FFI_TYPE_LONGDOUBLE => Ret "jj"%string
  | FFI_TYPE_UINT64 | FFI_TYPE_SINT64 => Ret "j"%string
  | FFI_TYPE_COMPLEX => Abort
  | FFI_TYPE_VOID => Abort
  | FFI_TYPE_other _ => Abort
  end.

(** [for (i < nargs) unboxed_arg_type_id_list.push(...)]. *)
Fixpoint unbox_args (fuel : nat) (st : store) (args : list ptr) : outcome (list ffi_kind) :=
  match args with
  | [] => Ret []
  | a :: args' =>
      '(arg_type_ptr, arg_type_id) ← unbox_small_structs fuel st a;
      ids ← unbox_args fuel st args';
      Ret (arg_type_id :: ids)
  end.

(** [for (i < nfixedargs) switch (unboxed_arg_type_id_list[i])]; past the
    end of the list the entry is [undefined], which falls to [default]. *)
Fixpoint sig_fixed_args (n : nat) (ids : list ffi_kind) (sig : string) : outcome string :=
  match n with
  | O => Ret sig
  | S n' =>
      match ids with
      | [] => Abort
      | arg_type_id :: ids' =>
          c ← sig_of_arg arg_type_id;
          sig_fixed_args n' ids' (sig +:+ c)
      end
  end.

(** [ffi_prep_closure_loc_js] up to the definition of [trampoline]: the
    signature [sig] it goes on to pass to [convertJsFunctionToWasm], and
    [ret_by_arg]. *)
Definition closure_signature (fuel : nat) (st : store) (cif : ffi_cif)
    : outcome (string * bool) :=
  '(rtype_ptr, rtype_id) ← unbox_small_structs fuel st (rtype cif);
  '(sig0, ret_by_arg) ← sig_of_rtype rtype_id;
  args ← cif_args cif;
  ids ← unbox_args fuel st args;
  sig ← sig_fixed_args (N.to_nat (nfixedargs cif)) ids sig0;
  Ret (if decide (nfixedargs cif < nargs cif) then sig +:+ "i" else sig, ret_by_arg).

(** ** Stack allocation in the emscripten build *)

(** JavaScript's ToInt32. *)
Definition to_int32 (z : Z) : Z := ((z + 2 ^ 31) `mod` 2 ^ 32 - 2 ^ 31)%Z.

(** [ALIGN_ADDRESS(addr, align)]: [addr &= ~(align - 1)] on JavaScript
    numbers, whose bitwise operators work on 32-bit signed integers. *)
Definition ALIGN_ADDRESS (addr align : Z) : Z :=
  Z.land (to_int32 addr) (Z.lnot (to_int32 (align - 1))).

(** [STACK_ALLOC(stack, size, align)]: the new value of [stack]. *)
Definition STACK_ALLOC (stack size align : Z) : Z :=
  ALIGN_ADDRESS (stack - size) align.

(** ** Shapes the statements use *)

(** The wasm values a kind is passed as. *)
Definition kind_wasm_types (k : ffi_kind) : list wasm_type :=
  match k with
  | FFI_TYPE_VOID => []
  | FFI_TYPE_FLOAT => [FFI_WASM_TYPE_F32]
  | FFI_TYPE_DOUBLE => [FFI_WASM_TYPE_F64]
  | FFI_TYPE_UINT64 | FFI_TYPE_SINT64 => [FFI_WASM_TYPE_I64]
  | FFI_TYPE_LONGDOUBLE => [FFI_WASM_TYPE_I64; FFI_WASM_TYPE_I64]
  | _ => [FFI_WASM_TYPE_I32]
  end.

Definition wasm_types_size (ts : list wasm_type) : N :=
  foldr (fun t acc => wasm_type_size t + acc) 0 ts.

(** What the closure side is handed for one argument: [p] is what
    [take_value] returns in the memory [m2] for an argument of kind [k]
    whose value was at [v] in the memory [m]. A struct is handed out by
    its address, anything else as a pointer to a copy of its bytes. *)
Definition delivered (m m2 : mem) (k : ffi_kind) (v p : ptr) : Prop :=
  if decide (k = FFI_TYPE_STRUCT) then p = v `mod` SIZE_MAX1
  else load_bytes m2 p (c_object_size k) = load_bytes m v (c_object_size k).

(** The object of kind [k] at [v] lies outside the [len] bytes at [buf]. *)
Definition outside (k : ffi_kind) (v buf len : N) : Prop :=
  v + N.of_nat (c_object_size k) ≤ buf ∨ buf + len ≤ v.

(** The elements of every struct rank below it. *)
Definition struct_ranked (rk : ptr → nat) (st : store) : Prop :=
  ∀ q t l e, st !! q = Some t → ty_type t = FFI_TYPE_STRUCT →
             ty_elements t = Some l → e ∈ l → (rk e < rk q)%nat.

(** The signature letter emscripten uses for a wasm type. *)
Definition wasm_type_char (t : wasm_type) : string :=
  match t with
  | FFI_WASM_TYPE_I32 => "i"
  | FFI_WASM_TYPE_I64 => "j"
  | FFI_WASM_TYPE_F32 => "f"
  | FFI_WASM_TYPE_F64 => "d"
  end.

Definition wasm_types_chars (ts : list wasm_type) : string :=
  foldr (fun t s => wasm_type_char t +:+ s) EmptyString ts.

(** An emscripten signature: the letter of the result, or v when there
    is none, then the letters of the arguments. *)
Definition wasm_sig (results arguments : list wasm_type) : string :=
  match results with
  | [] => "v"
  | r :: _ => wasm_type_char r
  end +:+ wasm_types_chars arguments.

(** What [unbox_small_structs] can return for the descriptor [t'] at
    the pointer it returns: its kind, which if STRUCT means more than 16
    bytes or two or more elements; or VOID for a struct with no
    element. *)
Definition unboxed (t' : ffi_type) (k : ffi_kind) : Prop :=
  (k = ty_type t' ∧
   (k = FFI_TYPE_STRUCT →
    16 < ty_size t' ∨ ∃ a b l, ty_elements t' = Some (a :: b :: l))) ∨
  (k = FFI_TYPE_VOID ∧ ty_type t' = FFI_TYPE_STRUCT ∧ ¬ 16 < ty_size t' ∧
   ty_elements t' = Some []).

(** The width in bytes of the C type of an unsigned integer kind that is
    passed in a 32-bit slot, and of a signed one. *)
Definition unsigned_width (k : ffi_kind) : option nat :=
  match k with
  | FFI_TYPE_UINT8 => Some 1%nat
  | FFI_TYPE_UINT16 => Some 2%nat
  | FFI_TYPE_UINT32 | FFI_TYPE_POINTER => Some 4%nat
  | _ => None
  end.

Definition signed_width (k : ffi_kind) : option nat :=
  match k with
  | FFI_TYPE_SINT8 => Some 1%nat
  | FFI_TYPE_SINT16 => Some 2%nat
  | FFI_TYPE_SINT32 | FFI_TYPE_INT => Some 4%nat
  | _ => None
  end.

(** The byte that fills a 32-bit slot above a signed [n]-byte integer
    read at [value]: [0xff] when the integer's top bit is set (its
    unsigned reading is [2 ^ (8 n - 1)] or more), [0x00] otherwise. *)
Definition sign_fill (m : mem) (value : ptr) (n : nat) : Byte.byte :=
  if decide (2 ^ (8 * Z.of_nat n - 1) ≤ load_unsigned m value n)%Z
  then Byte.xff else Byte.x00.

(** The kinds [replace_type] returns as they are. *)
Definition plain_kind (k : ffi_kind) : bool :=
  match k with
  | FFI_TYPE_VOID | FFI_TYPE_STRUCT | FFI_TYPE_COMPLEX | FFI_TYPE_LONGDOUBLE => false
  | _ => true
  end.

Section RewriteShapes.
Context {B : build}.

(** How [replace_type] may rewrite one descriptor, [ld] telling whether
    it is the root of a call in return position: a struct changes in its
    kind field alone, and not to COMPLEX; a complex type stays or gets a
    kind other than COMPLEX and two copies of a library floating-point
    descriptor as elements; a long double stays or, at the root of a call
    in return position, becomes a struct of two [ffi_type_sint64] aligned
    to 16; anything else stays. *)
Definition node_rewrite (ld : bool) (t t' : ffi_type) : Prop :=
  match ty_type t with
  | FFI_TYPE_STRUCT => ∃ k, k ≠ FFI_TYPE_COMPLEX ∧ t' = set_type t k
  | FFI_TYPE_COMPLEX =>
      t' = t ∨
      (ty_type t' ≠ FFI_TYPE_COMPLEX ∧
       ∃ c, c ∈ [ffi_type_float; ffi_type_double; ffi_type_longdouble] ∧
            ty_elements t' = Some [c; c])
  | FFI_TYPE_LONGDOUBLE =>
      t' = t ∨
      (ld = true ∧ ty_type t' = FFI_TYPE_STRUCT ∧ ty_alignment t' = 16 ∧
       ty_elements t' = Some [ffi_type_sint64; ffi_type_sint64])
  | _ => t' = t
  end.

(** The memory [st'] a call [replace_type(p, b)] may leave from [st]:
    the same addresses hold descriptors, each rewritten as [node_rewrite]
    allows. *)
Definition store_rewrite (b : bool) (p : ptr) (st st' : store) : Prop :=
  ∀ q, match st !! q with
       | None => st' !! q = None
       | Some t => ∃ t', st' !! q = Some t' ∧
                         node_rewrite (b && bool_decide (q = p)) t t'
       end.

End RewriteShapes.

(** ** More concrete inputs *)

(** The emscripten build, with the same tags and library descriptors. *)
Definition emscripten_build : build :=
  {| EMSCRIPTEN := true;
     FFI_ASSERT := fun _ => Ret tt; FFI_ASSERT_holds := eq_refl;
     FFI_WASM32 := 1; FFI_WASM32_EMSCRIPTEN := 2;
     ffi_type_float := 16; ffi_type_double := 32;
     ffi_type_sint64 := 48; ffi_type_longdouble := 64 |}.

(** A CIF of the wasix ABI without a return type or arguments. *)
Definition cif_null_return : ffi_cif := mk_ffi_cif 1 0 [] 0 0 0.

(** [example_store] with [ffi_type_complex_longdouble] at 192. *)
Definition example_store_complex : store :=
  <[192 := mk_ffi_type 32 16 FFI_TYPE_COMPLEX (Some [64])]> example_store.

(** [example_store_complex] once [ffi_type_longdouble] has been prepared
    as a return type. *)
Definition example_store_complex_ld : store :=
  <[64 := mk_ffi_type 16 16 FFI_TYPE_STRUCT (Some [48; 48])]> example_store_complex.

(** A host that reserves table index 7 and an allocator that returns
    4096, for an [ffi_closure] aligned to 4 bytes. *)
Definition example_closure_host : closure_host :=
  {| aligned_alloc := fun _ _ => 4096;
     wasix_closure_allocate := fun _ => (0%Z, 7);
     wasix_closure_free := fun _ => 0%Z;
     alignof_ffi_closure := 4 |}.

(** [example_store] with, at 208, a struct of 24 bytes described with a
    single [int] element. *)
Definition example_store_big : store :=
  <[208 := mk_ffi_type 24 4 FFI_TYPE_STRUCT (Some [80])]> example_store.

(** * Proofs *)

(** ** The outcome monad *)

Lemma bind_Ret {A C} (m : outcome A) (f : A → outcome C) (c : C) :
  m ≫= f = Ret c → ∃ a, m = Ret a ∧ f a = Ret c.
Proof. destruct m; simpl; intros E; try discriminate. eauto. Qed.

Lemma deref_Ret st p t : deref st p = Ret t ↔ st !! p = Some t.
Proof. unfold deref. destruct (st !! p); split; congruence. Qed.

(** Invert a hypothesis [x ← m; f x = Ret c]. *)
Ltac inv_bind E :=
  let a := fresh "a" in
  let E1 := fresh E in
  apply bind_Ret in E as (a & E1 & E).

Ltac inv_ret E := injection E as ?; subst.

(** ** Frame and well-formedness *)

Section RankedProofs.
Context {B : build} (rk : ptr → nat).

Lemma kind_at_Some st p t : st !! p = Some t → kind_at st p = ty_type t.
Proof. unfold kind_at. by intros ->. Qed.

Lemma kind_at_is_Some st p : kind_at st p ≠ FFI_TYPE_VOID → is_Some (st !! p).
Proof. unfold kind_at. destruct (st !! p); [eauto | congruence]. Qed.

Lemma kind_at_insert_ne st p q t : p ≠ q → kind_at (<[p := t]> st) q = kind_at st q.
Proof. intros. unfold kind_at. by rewrite lookup_insert_ne. Qed.

Lemma kind_at_insert_eq st p t : kind_at (<[p := t]> st) p = ty_type t.
Proof. unfold kind_at. by rewrite lookup_insert_eq. Qed.

Lemma same_dom_insert st p t t' : st !! p = Some t → same_dom st (<[p := t']> st).
Proof.
  intros Hp q. destruct (decide (p = q)) as [->|Hne].
  - rewrite lookup_insert_eq, Hp. split; eauto.
  - by rewrite lookup_insert_ne.
Qed.

Lemma same_dom_trans st1 st2 st3 : same_dom st1 st2 → same_dom st2 st3 → same_dom st1 st3.
Proof. intros H1 H2 q. etrans; [apply H2 | apply H1]. Qed.

Lemma same_dom_refl st : same_dom st st.
Proof. by intros q. Qed.

Lemma unchanged_from_refl r st : unchanged_from rk r st st.
Proof. by intros q. Qed.

Lemma unchanged_from_trans r st1 st2 st3 :
  unchanged_from rk r st1 st2 → unchanged_from rk r st2 st3 → unchanged_from rk r st1 st3.
Proof. intros H1 H2 q Hq. rewrite H2, H1; done. Qed.

Lemma unchanged_from_mono r r' st st' :
  (r ≤ r')%nat → unchanged_from rk r st st' → unchanged_from rk r' st st'.
Proof. intros Hr H1 q Hq. apply H1. lia. Qed.

Lemma unchanged_from_insert st p t : unchanged_from rk (S (rk p)) st (<[p := t]> st).
Proof. intros q Hq. apply lookup_insert_ne. intros ->. lia. Qed.

(** Overwriting a struct or complex descriptor keeps the other
    descriptors well-formed. *)
Lemma node_ranked_insert st p t t' q tq :
  st !! p = Some t →
  ty_type t = FFI_TYPE_STRUCT ∨ ty_type t = FFI_TYPE_COMPLEX →
  node_ranked rk st q tq → node_ranked rk (<[p := t']> st) q tq.
Proof.
  intros Hp Hk. unfold node_ranked.
  destruct (ty_type tq); try done.
  - intros (l & Hl & Hall). exists l. split; [done|].
    intros e He. destruct (Hall e He) as [Hs Hr]. split; [|done].
    by apply (same_dom_insert st p t t').
  - intros (c & l & ce & Hl & Hc & Hf & Hrest). exists c, l, ce.
    split; [done|]. split; [|done].
    rewrite lookup_insert_ne; [done|]. intros ->.
    rewrite Hp in Hc. injection Hc as ->.
    destruct Hf as [Hf|[Hf|Hf]], Hk as [Hk|Hk]; congruence.
Qed.

Lemma ranked_insert st p t t' :
  ranked rk st → st !! p = Some t →
  ty_type t = FFI_TYPE_STRUCT ∨ ty_type t = FFI_TYPE_COMPLEX →
  node_ranked rk (<[p := t']> st) p t' →
  ranked rk (<[p := t']> st).
Proof.
  intros (Hnull & Hf & Hd & (ts & Hs & Hsk & Hss) & Hld & Hall) Hp Hk Hnew.
  assert (Hne : ∀ q, kind_at st q ≠ FFI_TYPE_STRUCT → kind_at st q ≠ FFI_TYPE_COMPLEX → p ≠ q).
  { intros q H1 H2 ->. rewrite (kind_at_Some _ _ _ Hp) in H1, H2. tauto. }
  split; [|split; [|split; [|split; [|split]]]].
  - rewrite lookup_insert_ne; [done|]. intros ->. congruence.
  - rewrite kind_at_insert_ne; [done|]. apply Hne; congruence.
  - rewrite kind_at_insert_ne; [done|]. apply Hne; congruence.
  - exists ts. rewrite lookup_insert_ne; [done|].
    apply Hne; rewrite (kind_at_Some _ _ _ Hs); congruence.
  - by apply (same_dom_insert st p t t').
  - intros q tq Hq. destruct (decide (p = q)) as [<-|Hpq].
    + rewrite lookup_insert_eq in Hq. by injection Hq as <-.
    + rewrite lookup_insert_ne in Hq by done.
      eapply node_ranked_insert; eauto.
Qed.

Lemma set_type_same t : set_type t (ty_type t) = t.
Proof. by destruct t. Qed.

Lemma replace_elements_ranked fuel r
  (IH : ∀ st p b st' k, ranked rk st →
        replace_type fuel st p b = Ret (st', k) → post_ranked rk st p b st' k) :
  ∀ l st s n st1 s1 n1,
    ranked rk st →
    (∀ e, e ∈ l → is_Some (st !! e) ∧ (rk e < r)%nat) →
    replace_elements (fun s e => replace_type fuel s e false) l st s n = Ret (st1, s1, n1) →
    ranked rk st1 ∧ unchanged_from rk r st st1 ∧ same_dom st st1 ∧
    (s1 = s ∨ (s1 ≠ FFI_TYPE_COMPLEX ∧
               (s1 = FFI_TYPE_LONGDOUBLE → (rk ffi_type_sint64 < r)%nat))).
Proof.
  induction l as [|e l IHl]; intros st s n st1 s1 n1 Hr Hl E; simpl in E.
  - inv_ret E. split; [done|]. split; [apply unchanged_from_refl|].
    split; [apply same_dom_refl | by left].
  - inv_bind E. destruct a as [st' k].
    destruct (Hl e) as [He Hre]; [by left|].
    destruct (IH _ _ _ _ _ Hr E0) as (Hr' & Hu & Hd & Hk & Hc & _).
    specialize (Hr' eq_refl).
    assert (Hl' : ∀ e0, e0 ∈ l → is_Some (st' !! e0) ∧ (rk e0 < r)%nat).
    { intros e0 He0. destruct (Hl e0) as [H1 H2]; [by right|]. split; [by apply Hd|done]. }
    assert (Hu' : unchanged_from rk r st st').
    { eapply unchanged_from_mono; [|exact Hu]. lia. }
    assert (HeN : e ≠ NULL).
    { intros ->. destruct Hr as (Hn & _). rewrite Hn in He. by destruct He. }
    destruct (is_void k) eqn:Hv.
    + destruct (IHl _ _ _ _ _ _ Hr' Hl' E) as (Hr1 & Hu1 & Hd1 & Hs1).
      split; [done|]. split; [by eapply unchanged_from_trans|].
      split; [by eapply same_dom_trans|done].
    + destruct (IHl _ _ _ _ _ _ Hr' Hl' E) as (Hr1 & Hu1 & Hd1 & Hs1).
      split; [done|]. split; [by eapply unchanged_from_trans|].
      split; [by eapply same_dom_trans|]. right.
      destruct Hs1 as [->|Hs1]; [|done]. split; [done|].
      intros ->. specialize (Hk HeN).
      destruct Hr' as (_ & _ & _ & _ & _ & Hall).
      apply Hd in He. destruct He as [te Hte].
      specialize (Hall _ _ Hte). unfold node_ranked in Hall.
      rewrite (kind_at_Some _ _ _ Hte) in Hk. rewrite Hk in Hall. lia.
Qed.

Lemma post_ranked_id st p b k :
  ranked rk st → (p ≠ NULL → kind_at st p = k) → k ≠ FFI_TYPE_COMPLEX →
  (∀ t, st !! p = Some t → ty_type t ≠ FFI_TYPE_STRUCT) →
  post_ranked rk st p b st k.
Proof.
  intros Hr Hk Hc Hs. split; [done|]. split; [apply unchanged_from_refl|].
  split; [apply same_dom_refl|]. split; [done|]. split; [done|].
  intros t Ht Hst. by destruct (Hs t Ht).
Qed.

Lemma replace_type_ranked fuel :
  ∀ st p b st' k, ranked rk st →
    replace_type fuel st p b = Ret (st', k) → post_ranked rk st p b st' k.
Proof.
  induction fuel as [|fuel IH]; intros st p b st' k Hr E; [discriminate|].
  simpl in E. destruct (decide (p = NULL)) as [->|HpN].
  { inv_ret E. apply post_ranked_id; try done.
    destruct Hr as (Hn & _). congruence. }
  inv_bind E. apply deref_Ret in E0. rename a into t.
  assert (Hnr : node_ranked rk st p t) by (by apply Hr).
  destruct (ty_type t) eqn:Hk;
    try (inv_ret E; apply post_ranked_id;
         [done | by rewrite (kind_at_Some _ _ _ E0) | done | congruence]).
  - (* long double *)
    destruct b.
    + inv_bind E. inv_ret E.
      split; [done|]. split; [apply unchanged_from_insert|].
      split; [by eapply same_dom_insert|]. split; [by rewrite kind_at_insert_eq|].
      split; [done|congruence].
    + inv_ret E. apply post_ranked_id;
        [done | by rewrite (kind_at_Some _ _ _ E0) | done | congruence].
  - (* struct *)
    destruct (decide (ty_size t = 0)) as [Hz|Hz].
    { inv_ret E. split.
      { intros _. eapply ranked_insert; eauto. by unfold node_ranked. }
      split; [apply unchanged_from_insert|].
      split; [by eapply same_dom_insert|]. split; [by rewrite kind_at_insert_eq|].
      split; [done|]. intros t' Ht' _. rewrite lookup_insert_eq. congruence. }
    inv_bind E. rename a into els.
    unfold node_ranked in Hnr. rewrite Hk in Hnr. destruct Hnr as (l & Hl & Hall).
    rewrite Hl in E1. inv_ret E1.
    inv_bind E. destruct a as [[st1 s1] n1].
    destruct (replace_elements_ranked fuel (rk p) IH _ _ _ _ _ _ _ Hr Hall E1)
      as (Hr1 & Hu1 & Hd1 & Hs1).
    inv_bind E. apply deref_Ret in E2. rename a into t1.
    assert (t1 = t) as ->.
    { rewrite Hu1 in E2 by lia. congruence. }
    assert (Hs1' : s1 ≠ FFI_TYPE_COMPLEX) by (destruct Hs1 as [->|[? ?]]; done).
    destruct (decide (1 < n1)).
    { inv_ret E. split; [done|].
      split; [eapply unchanged_from_mono; [|exact Hu1]; lia|].
      split; [done|]. split; [by rewrite (kind_at_Some _ _ _ E2)|].
      split; [congruence|]. intros t' Ht' _. rewrite Hk, E2.
      assert (t' = t) as -> by congruence. by rewrite <- Hk, set_type_same. }
    injection E as <- <-. split.
    { intros _. eapply ranked_insert; eauto.
      unfold node_ranked; simpl. destruct s1; try done.
      - destruct Hs1 as [?|[_ Hs1]]; [done|]. by apply Hs1.
      - exists els. split; [done|]. intros e He. destruct (Hall e He) as [H1 H2].
        split; [|done]. eapply same_dom_insert; [exact E2|]. by apply Hd1. }
    split.
    { eapply unchanged_from_trans; [|apply unchanged_from_insert].
      eapply unchanged_from_mono; [|exact Hu1]. lia. }
    split; [eapply same_dom_trans; [exact Hd1|by eapply same_dom_insert]|].
    split; [by rewrite kind_at_insert_eq|]. split; [done|].
    intros t' Ht' _. rewrite lookup_insert_eq. congruence.
  - (* complex *)
    inv_bind E. rename a into els. inv_bind E. rename a into ce.
    inv_bind E. rename a into new. inv_bind E. inv_bind E. inv_ret E.
    unfold node_ranked in Hnr. rewrite Hk in Hnr.
    destruct Hnr as (c & l & ce' & Hl & Hc & Hf & Hsz & Hsz' & Hal & Hrf & Hrd & Hrl).
    rewrite Hl in E1. inv_ret E1. apply deref_Ret in E2.
    assert (ce' = ce) as -> by congruence.
    split.
    { intros _. eapply ranked_insert; eauto.
      unfold node_ranked; simpl. exists new. split; [done|].
      destruct Hr as (_ & Hkf & Hkd & _ & Hld & _).
      intros e He.
      destruct Hf as [Hf|[Hf|Hf]]; rewrite Hf in E3; inv_ret E3;
        apply elem_of_cons in He as [->|He];
        try (apply elem_of_cons in He as [->|He]; [|by apply elem_of_nil in He]);
        (split; [|done]); eapply same_dom_insert; eauto;
        try (apply kind_at_is_Some; congruence). }
    split; [apply unchanged_from_insert|].
    split; [by eapply same_dom_insert|]. split; [by rewrite kind_at_insert_eq|].
    split; [done|congruence].
Qed.

Lemma replace_elements_total fuel
  (IH : ∀ st p b, ranked rk st → p = NULL ∨ is_Some (st !! p) → (rk p < fuel)%nat →
        ∃ st' k, replace_type fuel st p b = Ret (st', k)) :
  ∀ l st s n,
    ranked rk st →
    (∀ e, e ∈ l → is_Some (st !! e) ∧ (rk e < fuel)%nat) →
    ∃ st1 s1 n1,
      replace_elements (fun s e => replace_type fuel s e false) l st s n = Ret (st1, s1, n1).
Proof.
  induction l as [|e l IHl]; intros st s n Hr Hl; simpl; [eauto|].
  destruct (Hl e) as [He Hre]; [by left|].
  destruct (IH st e false Hr (or_intror He) Hre) as (st' & k & E). rewrite E. simpl.
  destruct (replace_type_ranked _ _ _ _ _ _ Hr E) as (Hr' & _ & Hd & _).
  assert (Hl' : ∀ e0, e0 ∈ l → is_Some (st' !! e0) ∧ (rk e0 < fuel)%nat).
  { intros e0 He0. destruct (Hl e0) as [H1 H2]; [by right|]. split; [by apply Hd|done]. }
  destruct (is_void k); apply IHl; auto.
Qed.

(** On a well-formed memory [replace_type] returns, given fuel above the
    rank of the descriptor. *)
Lemma replace_type_total fuel :
  ∀ st p b, ranked rk st → p = NULL ∨ is_Some (st !! p) → (rk p < fuel)%nat →
    ∃ st' k, replace_type fuel st p b = Ret (st', k).
Proof.
  induction fuel as [|fuel IH]; intros st p b Hr Hp Hf; [lia|].
  simpl. destruct (decide (p = NULL)) as [->|HpN]; [eauto|].
  destruct Hp as [?|[t Ht]]; [done|].
  rewrite (proj2 (deref_Ret st p t) Ht). simpl.
  assert (Hnr : node_ranked rk st p t) by (by apply Hr).
  unfold node_ranked in Hnr.
  destruct (ty_type t) eqn:Hk; eauto.
  - destruct b; [|eauto].
    destruct Hr as (_ & _ & _ & (ts & Hs & _) & _).
    rewrite (proj2 (deref_Ret _ _ _) Hs). simpl. eauto.
  - destruct (decide (ty_size t = 0)); [eauto|].
    destruct Hnr as (l & Hl & Hall). rewrite Hl. simpl.
    assert (Hall' : ∀ e, e ∈ l → is_Some (st !! e) ∧ (rk e < fuel)%nat).
    { intros e He. destruct (Hall e He). split; [done|lia]. }
    destruct (replace_elements_total fuel IH l st FFI_TYPE_VOID 0 Hr Hall')
      as (st1 & s1 & n1 & E).
    rewrite E. simpl.
    destruct (replace_elements_ranked fuel (rk p) (replace_type_ranked fuel)
                _ _ _ _ _ _ _ Hr Hall E) as (_ & _ & Hd & _).
    assert (Hp1 : is_Some (st1 !! p)) by (apply Hd; eauto).
    destruct Hp1 as [t1 Ht1]. rewrite (proj2 (deref_Ret _ _ _) Ht1). simpl.
    destruct (decide (1 < n1)); eauto.
  - destruct Hnr as (c & l & ce & Hl & Hc & Hfk & Hsz & Hsz' & Hal & _).
    rewrite Hl. simpl. rewrite (proj2 (deref_Ret _ _ _) Hc). simpl.
    rewrite Hsz', Hal, !bool_decide_eq_true_2 by done.
    rewrite FFI_ASSERT_holds. simpl.
    destruct Hfk as [Hfk | [Hfk | Hfk]]; rewrite Hfk; simpl; eauto.
Qed.

End RankedProofs.

(** ** Canonical form *)

Section CanonBasics.

Lemma reach_trans st p q r : reach st p q → reach st q r → reach st p r.
Proof.
  induction 1 as [|p t l e q Hp Hk Hl He _ IH]; [done|].
  intros Hr. eapply reach_step; eauto.
Qed.

Lemma canon_reach st p q : canon st p → reach st p q → canon st q.
Proof. intros Hc Hr x Hx. apply Hc. by eapply reach_trans. Qed.

Lemma canon_node st p : canon st p → node_canon st p.
Proof. intros Hc. apply Hc, reach_refl. Qed.

Lemma canon_element st p t l e :
  canon st p → st !! p = Some t → ty_type t = FFI_TYPE_STRUCT →
  ty_elements t = Some l → e ∈ l → canon st e.
Proof.
  intros Hc Hp Hk Hl He. eapply canon_reach; [exact Hc|].
  eapply reach_step; eauto using reach_refl.
Qed.

Lemma canon_intro st p :
  node_canon st p →
  (∀ t l e, st !! p = Some t → ty_type t = FFI_TYPE_STRUCT →
            ty_elements t = Some l → e ∈ l → canon st e) →
  canon st p.
Proof.
  intros Hn Hel q Hr. destruct Hr as [|p t l e q Hp Hk Hl He Hr]; [done|].
  by eapply (Hel t l e).
Qed.

Lemma canon_scalar st p t :
  st !! p = Some t → ty_type t ≠ FFI_TYPE_STRUCT → ty_type t ≠ FFI_TYPE_COMPLEX →
  canon st p.
Proof.
  intros Hp Hs Hc. apply canon_intro.
  - exists t. split; [done|]. split; [done|]. intros; done.
  - intros t' l e Hp' Hk. congruence.
Qed.

Lemma nonvoid_kind_step st st' l :
  (∀ e, e ∈ l → kind_step st st' e) → nonvoid st' l = nonvoid st l.
Proof.
  unfold nonvoid. induction l as [|e l IH]; intros Hl; [done|].
  rewrite !filter_cons. rewrite IH by (intros; apply Hl; by right).
  destruct (Hl e) as [Hk|[Hk1 Hk2]]; [by left| |].
  - by rewrite Hk.
  - rewrite Hk1, Hk2. by repeat case_decide.
Qed.

Lemma struct_shape_kind_step st st' l :
  (∀ e, e ∈ l → kind_step st st' e) → struct_shape st l → struct_shape st' l.
Proof.
  intros Hl. unfold struct_shape. rewrite (nonvoid_kind_step st st' l Hl).
  intros [H2|(e & He & Hk)]; [by left|]. right. exists e. split; [done|].
  assert (Hin : e ∈ l).
  { assert (e ∈ nonvoid st l) as Hin by (rewrite He; by left).
    unfold nonvoid in Hin. by apply list_elem_of_filter in Hin as [_ ?]. }
  destruct (Hl e Hin) as [Hs|[Hs1 Hs2]]; congruence.
Qed.

(** Canonical form survives a change of memory that leaves the reachable
    descriptors alone, except for long doubles that became canonical
    structs. *)
Lemma canon_preserved st st' :
  ∀ p, canon st p →
    (∀ q, reach st p q →
          st' !! q = st !! q ∨
          (kind_at st q = FFI_TYPE_LONGDOUBLE ∧ canon st' q ∧
           kind_at st' q = FFI_TYPE_STRUCT)) →
    canon st' p.
Proof.
  intros p Hc Hyp q Hr. revert Hc Hyp.
  induction Hr as [p|p t l e q Hp Hk Hl He Hr IH]; intros Hc Hyp.
  - destruct (Hyp p (reach_refl _ _)) as [Hsame|(_ & Hc' & _)]; [|by apply canon_node].
    destruct (canon_node _ _ Hc) as (t & Ht & Hnc & Hs).
    exists t. split; [congruence|]. split; [done|].
    intros Hk. destruct (Hs Hk) as (Hz & l & Hl & Hsh). split; [done|].
    exists l. split; [done|]. eapply struct_shape_kind_step; [|exact Hsh].
    intros e He.
    destruct (Hyp e) as [Hsame'|(H1 & _ & H2)].
    + eapply reach_step; eauto using reach_refl.
    + left. unfold kind_at. by rewrite Hsame'.
    + by right.
  - destruct (Hyp p (reach_refl _ _)) as [Hsame|(_ & Hc' & _)].
    + rewrite Hsame in Hp. apply IH.
      * eapply canon_element; eauto.
      * intros x Hx. apply Hyp. eapply reach_step; eauto.
    + apply Hc'. eapply reach_step; eauto.
Qed.

Lemma canon_insert_other st p t' q :
  ¬ node_canon st p → canon st q →
  canon (<[p := t']> st) q ∧ kind_at (<[p := t']> st) q = kind_at st q.
Proof.
  intros Hn Hc.
  assert (Hne : ∀ x, reach st q x → p ≠ x).
  { intros x Hx ->. apply Hn. by apply Hc. }
  split.
  - apply (canon_preserved st); [done|]. intros x Hx. left.
    apply lookup_insert_ne. by apply Hne.
  - apply kind_at_insert_ne. apply Hne, reach_refl.
Qed.

End CanonBasics.

Lemma is_void_false k : is_void k = false ↔ k ≠ FFI_TYPE_VOID.
Proof. destruct k; simpl; split; congruence. Qed.

Lemma is_void_true k : is_void k = true ↔ k = FFI_TYPE_VOID.
Proof. destruct k; simpl; split; congruence. Qed.

Lemma nonvoid_cons_void st e l :
  kind_at st e = FFI_TYPE_VOID → nonvoid st (e :: l) = nonvoid st l.
Proof. intros Hk. unfold nonvoid. rewrite filter_cons. by case_decide. Qed.

Lemma nonvoid_cons_nonvoid st e l :
  kind_at st e ≠ FFI_TYPE_VOID → nonvoid st (e :: l) = e :: nonvoid st l.
Proof. intros Hk. unfold nonvoid. rewrite filter_cons. by case_decide. Qed.

Lemma nonvoid_elem st e l : e ∈ nonvoid st l → e ∈ l ∧ kind_at st e ≠ FFI_TYPE_VOID.
Proof. unfold nonvoid. intros He. apply list_elem_of_filter in He. tauto. Qed.

Lemma last_kind_cons_void st e l s :
  kind_at st e = FFI_TYPE_VOID → last_kind st (e :: l) s = last_kind st l s.
Proof. intros Hk. unfold last_kind. by rewrite nonvoid_cons_void. Qed.

Lemma last_kind_cons_nonvoid st e l s :
  kind_at st e ≠ FFI_TYPE_VOID →
  last_kind st (e :: l) s = last_kind st l (kind_at st e).
Proof.
  intros Hk. unfold last_kind. rewrite nonvoid_cons_nonvoid by done.
  destruct (nonvoid st l) as [|x r] eqn:E; [done|].
  rewrite last_cons_cons. destruct (last (x :: r)) eqn:El; [done|].
  by apply last_None in El.
Qed.

Lemma last_kind_nil st l s : nonvoid st l = [] → last_kind st l s = s.
Proof. unfold last_kind. by intros ->. Qed.

Lemma last_kind_singleton st l s e :
  nonvoid st l = [e] → last_kind st l s = kind_at st e.
Proof. unfold last_kind. by intros ->. Qed.

Section CanonProofs.
Context {B : build} (rk : ptr → nat).

Lemma kind_rel_refl b st q : kind_rel b st st q.
Proof. destruct b; simpl; [by left|done]. Qed.

Lemma kind_rel_eq b st st' q : kind_at st' q = kind_at st q → kind_rel b st st' q.
Proof. destruct b; simpl; [by left|done]. Qed.

Lemma post_canon_refl st p b : (p ≠ NULL → canon st p) → post_canon st p b st.
Proof.
  intros Hp. split; [done|]. split.
  - intros q Hq. split; [done|apply kind_rel_refl].
  - congruence.
Qed.

Lemma post_canon_insert st p t' b :
  ¬ node_canon st p → canon (<[p := t']> st) p → post_canon st p b (<[p := t']> st).
Proof.
  intros Hn Hc. split; [done|]. split.
  - intros q Hq. destruct (canon_insert_other st p t' q Hn Hq). split; [done|].
    by apply kind_rel_eq.
  - intros _ q H1 H2. destruct (decide (p = q)) as [<-|Hne]; [done|].
    rewrite kind_at_insert_ne in H2 by done. done.
Qed.

Lemma elem_not_null st e : ranked rk st → is_Some (st !! e) → e ≠ NULL.
Proof. intros (Hn & _) He ->. rewrite Hn in He. by destruct He. Qed.

Lemma replace_elements_canon fuel r
  (IH : ∀ st p b st' k, wf_store rk st →
        replace_type fuel st p b = Ret (st', k) → post_canon st p b st') :
  ∀ l st s n st1 s1 n1,
    wf_store rk st →
    (∀ e, e ∈ l → is_Some (st !! e) ∧ (rk e < r)%nat) →
    replace_elements (fun s e => replace_type fuel s e false) l st s n = Ret (st1, s1, n1) →
    wf_store rk st1 ∧
    (∀ q, canon st q → canon st1 q ∧ kind_at st1 q = kind_at st q) ∧
    (∀ e, e ∈ l → canon st1 e) ∧
    (∀ q, kind_at st q ≠ FFI_TYPE_STRUCT → kind_at st1 q = FFI_TYPE_STRUCT → canon st1 q) ∧
    n1 = n + N.of_nat (length (nonvoid st1 l)) ∧
    s1 = last_kind st1 l s.
Proof.
  induction l as [|e l IHl]; intros st s n st1 s1 n1 Hwf Hl E; simpl in E.
  - inv_ret E. split; [done|]. split; [done|]. split; [by intros e He; apply elem_of_nil in He|].
    split; [congruence|]. split; [simpl; lia|done].
  - inv_bind E. destruct a as [st' k].
    destruct (Hl e) as [He Hre]; [by left|].
    destruct Hwf as (Hr & Hldc & Hldk).
    destruct (replace_type_ranked rk _ _ _ _ _ _ Hr E0) as (Hr' & _ & Hd & Hk & _).
    specialize (Hr' eq_refl). specialize (Hk (elem_not_null _ _ Hr He)).
    destruct (IH _ _ _ _ _ (conj Hr (conj Hldc Hldk)) E0) as (Hc1 & Hc2 & Hc3).
    specialize (Hc1 (elem_not_null _ _ Hr He)). specialize (Hc3 eq_refl).
    assert (Hwf' : wf_store rk st').
    { split; [done|]. destruct (Hc2 _ Hldc) as [H1 H2]. simpl in H2.
      split; [done|congruence]. }
    assert (Hl' : ∀ e0, e0 ∈ l → is_Some (st' !! e0) ∧ (rk e0 < r)%nat).
    { intros e0 He0. destruct (Hl e0) as [H1 H2]; [by right|]. split; [by apply Hd|done]. }
    assert (Hgoal : ∀ s' n', replace_elements (fun s e => replace_type fuel s e false)
                      l st' s' n' = Ret (st1, s1, n1) →
                    s' = (if is_void k then s else k) →
                    n' = (if is_void k then n else n + 1) →
      wf_store rk st1 ∧
      (∀ q, canon st q → canon st1 q ∧ kind_at st1 q = kind_at st q) ∧
      (∀ e0, e0 ∈ e :: l → canon st1 e0) ∧
      (∀ q, kind_at st q ≠ FFI_TYPE_STRUCT → kind_at st1 q = FFI_TYPE_STRUCT → canon st1 q) ∧
      n1 = n + N.of_nat (length (nonvoid st1 (e :: l))) ∧
      s1 = last_kind st1 (e :: l) s).
    { intros s' n' E' Hs' Hn'.
      destruct (IHl _ _ _ _ _ _ Hwf' Hl' E') as (Hwf1 & Hp1 & Hc1' & Hb1 & Hn1 & Hs1).
      assert (Hke : kind_at st1 e = k).
      { destruct (Hp1 e Hc1) as [_ ->]. done. }
      split; [done|]. split.
      { intros q Hq. destruct (Hc2 q Hq) as [Hq' Hkq]. simpl in Hkq.
        destruct (Hp1 q Hq') as [Hq1 Hkq1]. split; [done|congruence]. }
      split.
      { intros e0 He0. apply elem_of_cons in He0 as [->|He0]; [|by apply Hc1'].
        by apply Hp1. }
      split.
      { intros q H1 H2. destruct (decide (kind_at st' q = FFI_TYPE_STRUCT)) as [Hq|Hq].
        - apply Hp1. by apply Hc3.
        - by apply Hb1. }
      destruct (is_void k) eqn:Hv.
      - apply is_void_true in Hv. rewrite <- Hke in Hv.
        rewrite nonvoid_cons_void, last_kind_cons_void by done. subst. done.
      - apply is_void_false in Hv. rewrite <- Hke in Hv.
        rewrite nonvoid_cons_nonvoid, last_kind_cons_nonvoid by done.
        subst s' n'. rewrite Hke. split; [|done]. simpl length. lia. }
    destruct (is_void k); eapply Hgoal; eauto.
Qed.

Lemma not_node_canon_complex st p t :
  st !! p = Some t → ty_type t = FFI_TYPE_COMPLEX → ¬ node_canon st p.
Proof. intros Hp Hk (t' & Ht' & Hn & _). congruence. Qed.

Lemma not_node_canon_empty st p t :
  st !! p = Some t → ty_type t = FFI_TYPE_STRUCT → ty_size t = 0 → ¬ node_canon st p.
Proof.
  intros Hp Hk Hz (t' & Ht' & _ & Hs). assert (t' = t) as -> by congruence.
  by destruct (Hs Hk).
Qed.

(** A struct whose elements are canonical and in shape is canonical. *)
Lemma canon_struct st p t l :
  st !! p = Some t → ty_type t = FFI_TYPE_STRUCT → ty_size t ≠ 0 →
  ty_elements t = Some l → struct_shape st l → (∀ e, e ∈ l → canon st e) →
  canon st p.
Proof.
  intros Hp Hk Hz Hl Hsh Hel. apply canon_intro.
  - exists t. split; [done|]. split; [congruence|]. intros _. split; [done|]. eauto.
  - intros t' l' e Hp' _ Hl' He. apply Hel. congruence.
Qed.

Lemma replace_type_canon fuel :
  ∀ st p b st' k, wf_store rk st →
    replace_type fuel st p b = Ret (st', k) → post_canon st p b st'.
Proof.
  induction fuel as [|fuel IH]; intros st p b st' k Hwf E; [discriminate|].
  pose proof Hwf as (Hr & Hldc & Hldk).
  simpl in E. destruct (decide (p = NULL)) as [->|HpN].
  { inv_ret E. by apply post_canon_refl. }
  inv_bind E. apply deref_Ret in E0. rename a into t.
  assert (Hnr : node_ranked rk st p t) by (by apply Hr).
  destruct (ty_type t) eqn:Hk;
    try (inv_ret E; apply post_canon_refl; intros _;
         eapply canon_scalar; [exact E0 | congruence | congruence]).
  - (* long double *)
    destruct b;
      [|inv_ret E; apply post_canon_refl; intros _;
        eapply canon_scalar; [exact E0 | congruence | congruence]].
    inv_bind E. inv_ret E. apply deref_Ret in E1. rename a into s64.
    destruct Hr as (Hnull & _ & _ & (ts & Hts & Htk & Htz) & _).
    assert (ts = s64) as -> by congruence.
    assert (Hne : p ≠ ffi_type_sint64) by (intros ->; congruence).
    set (t' := mk_ffi_type _ _ _ _).
    assert (Hcp : canon (<[p := t']> st) p).
    { eapply (canon_struct _ p t' [ffi_type_sint64; ffi_type_sint64]);
        [by rewrite lookup_insert_eq | done | done | done | |].
      - left. unfold nonvoid. rewrite !filter_cons, filter_nil.
        rewrite kind_at_insert_ne by done. rewrite (kind_at_Some _ _ _ Hts), Htk.
        repeat case_decide; try done; simpl; lia.
      - intros e He. assert (e = ffi_type_sint64) as ->.
        { repeat (apply elem_of_cons in He as [->|He]; [done|]). by apply elem_of_nil in He. }
        eapply canon_scalar; [by rewrite lookup_insert_ne| |]; congruence. }
    split; [done|]. split; [|done].
    intros q Hq. split.
    + apply (canon_preserved st); [done|]. intros x Hx.
      destruct (decide (p = x)) as [<-|Hpx].
      * right. rewrite (kind_at_Some _ _ _ E0), kind_at_insert_eq. done.
      * left. by apply lookup_insert_ne.
    + simpl. destruct (decide (p = q)) as [<-|Hpq].
      * right. rewrite (kind_at_Some _ _ _ E0), kind_at_insert_eq. done.
      * left. by apply kind_at_insert_ne.
  - (* struct *)
    destruct (decide (ty_size t = 0)) as [Hz|Hz].
    { inv_ret E. apply post_canon_insert; [by eapply not_node_canon_empty|].
      eapply canon_scalar; [by rewrite lookup_insert_eq|done|done]. }
    inv_bind E. rename a into els.
    unfold node_ranked in Hnr. rewrite Hk in Hnr. destruct Hnr as (l & Hl & Hall).
    rewrite Hl in E1. inv_ret E1.
    inv_bind E. destruct a as [[st1 s1] n1].
    destruct (replace_elements_ranked rk fuel (rk p) (replace_type_ranked rk fuel)
                _ _ _ _ _ _ _ Hr Hall E1) as (Hr1 & Hu1 & Hd1 & Hs1).
    destruct (replace_elements_canon fuel (rk p) IH _ _ _ _ _ _ _ Hwf Hall E1)
      as (Hwf1 & Hp1 & Hc1 & Hb1 & Hn1 & Hsk1).
    inv_bind E. apply deref_Ret in E2. rename a into t1.
    assert (t1 = t) as ->.
    { rewrite Hu1 in E2 by lia. congruence. }
    assert (Hs1' : s1 ≠ FFI_TYPE_COMPLEX) by (destruct Hs1 as [->|[? ?]]; done).
    assert (Hkeep : struct_shape st1 els → post_canon st p b st1).
    { intros Hsh. split; [intros _; by eapply canon_struct|].
      split; [|by intros _].
      intros q Hq. destruct (Hp1 q Hq). split; [done|by apply kind_rel_eq]. }
    destruct (decide (1 < n1)).
    { inv_ret E. apply Hkeep. left. lia. }
    injection E as <- <-.
    destruct (decide (s1 = FFI_TYPE_STRUCT)) as [Hst|Hst].
    { (* the only element that is not void is a struct: nothing changes *)
      rewrite Hst, <- Hk, set_type_same, insert_id by done. apply Hkeep. right.
      destruct (nonvoid st1 els) as [|e [|e' r]] eqn:Hnv.
      - rewrite (last_kind_nil _ _ _ Hnv) in Hsk1. congruence.
      - exists e. split; [done|]. rewrite (last_kind_singleton _ _ _ _ Hnv) in Hsk1. congruence.
      - simpl in Hn1. lia. }
    assert (Hnn : ¬ node_canon st1 p).
    { intros (t' & Ht' & _ & Hs). assert (t' = t) as -> by congruence.
      destruct (Hs Hk) as (_ & l' & Hl' & Hsh). assert (l' = els) as -> by congruence.
      destruct Hsh as [H2|(e & He & Hke)]; [lia|].
      rewrite (last_kind_singleton _ _ _ _ He) in Hsk1. congruence. }
    assert (Hcp : canon (<[p := set_type t s1]> st1) p).
    { eapply canon_scalar; [by rewrite lookup_insert_eq|done|done]. }
    split; [done|]. split.
    + intros q Hq. destruct (Hp1 q Hq) as [Hq1 Hkq].
      destruct (canon_insert_other st1 p (set_type t s1) q Hnn Hq1) as [Hq2 Hkq2].
      split; [done|]. apply kind_rel_eq. congruence.
    + intros _ q H1 H2. destruct (decide (p = q)) as [<-|Hpq]; [done|].
      rewrite kind_at_insert_ne in H2 by done.
      apply canon_insert_other; [done|]. by apply Hb1.
  - (* complex *)
    inv_bind E. rename a into els. inv_bind E. rename a into ce.
    inv_bind E. rename a into new. inv_bind E. inv_bind E. inv_ret E.
    unfold node_ranked in Hnr. rewrite Hk in Hnr.
    destruct Hnr as (c & l & ce' & Hl & Hc & Hf & Hsz & Hsz' & Hal & Hrf & Hrd & Hrl).
    rewrite Hl in E1. inv_ret E1. apply deref_Ret in E2.
    assert (ce' = ce) as -> by congruence.
    assert (Hnn : ¬ node_canon st p) by (by eapply not_node_canon_complex).
    apply post_canon_insert; [done|].
    set (t' := mk_ffi_type _ _ _ _).
    assert (Hg : ∃ g, new = [g; g] ∧ canon st g ∧ kind_at st g ≠ FFI_TYPE_VOID).
    { destruct Hr as (_ & Hkf & Hkd & _).
      destruct Hf as [Hf|[Hf|Hf]]; rewrite Hf in E3; inv_ret E3.
      - exists ffi_type_float. split; [done|]. split; [|congruence].
        destruct (kind_at_is_Some st ffi_type_float) as [tf Htf]; [congruence|].
        rewrite (kind_at_Some _ _ _ Htf) in Hkf.
        eapply canon_scalar; [exact Htf| |]; congruence.
      - exists ffi_type_double. split; [done|]. split; [|congruence].
        destruct (kind_at_is_Some st ffi_type_double) as [tf Htf]; [congruence|].
        rewrite (kind_at_Some _ _ _ Htf) in Hkd.
        eapply canon_scalar; [exact Htf| |]; congruence.
      - exists ffi_type_longdouble. done. }
    destruct Hg as (g & -> & Hcg & Hkg).
    destruct (canon_insert_other st p t' g Hnn Hcg) as [Hcg' Hkg'].
    eapply (canon_struct _ p t' [g; g]);
      [by rewrite lookup_insert_eq | done | done | done | |].
    + left. unfold nonvoid. rewrite !filter_cons, filter_nil. rewrite Hkg'.
      repeat case_decide; try done; simpl; lia.
    + intros e He. assert (e = g) as ->; [|done].
      repeat (apply elem_of_cons in He as [->|He]; [done|]). by apply elem_of_nil in He.
Qed.

End CanonProofs.

Section Stable.
Context {B : build}.

(** On canonical elements the loop changes nothing. *)
Lemma replace_elements_stable fuel
  (IH : ∀ st p st' k, st !! NULL = None → canon st p →
        replace_type fuel st p false = Ret (st', k) → st' = st ∧ k = kind_at st p) :
  ∀ l st s n st1 s1 n1,
    st !! NULL = None → (∀ e, e ∈ l → canon st e) →
    replace_elements (fun s e => replace_type fuel s e false) l st s n = Ret (st1, s1, n1) →
    st1 = st ∧ n1 = n + N.of_nat (length (nonvoid st l)) ∧ s1 = last_kind st l s.
Proof.
  induction l as [|e l IHl]; intros st s n st1 s1 n1 Hn Hl E; simpl in E.
  - inv_ret E. split; [done|]. split; [simpl; lia|done].
  - inv_bind E. destruct a as [st' k].
    destruct (IH _ _ _ _ Hn (Hl e ltac:(by left)) E0) as [-> ->].
    assert (Hl' : ∀ e0, e0 ∈ l → canon st e0) by (intros; apply Hl; by right).
    destruct (is_void (kind_at st e)) eqn:Hv.
    + apply is_void_true in Hv.
      destruct (IHl _ _ _ _ _ _ Hn Hl' E) as (-> & -> & ->).
      by rewrite nonvoid_cons_void, last_kind_cons_void.
    + apply is_void_false in Hv.
      destruct (IHl _ _ _ _ _ _ Hn Hl' E) as (-> & -> & ->).
      rewrite nonvoid_cons_nonvoid, last_kind_cons_nonvoid by done.
      split; [done|]. split; [simpl length; lia|done].
Qed.

(** [replace_type] leaves a canonical descriptor as it is, unless it is a
    long double in return position. *)
Lemma replace_type_stable fuel :
  ∀ st p b st' k,
    st !! NULL = None → canon st p →
    (b = true → kind_at st p ≠ FFI_TYPE_LONGDOUBLE) →
    replace_type fuel st p b = Ret (st', k) →
    st' = st ∧ k = kind_at st p.
Proof.
  induction fuel as [|fuel IH]; intros st p b st' k Hn Hc Hb E; [discriminate|].
  simpl in E. destruct (decide (p = NULL)) as [->|HpN].
  { destruct (canon_node _ _ Hc) as (t & Ht & _). congruence. }
  inv_bind E. apply deref_Ret in E0. rename a into t.
  rewrite (kind_at_Some _ _ _ E0) in Hb |- *.
  destruct (canon_node _ _ Hc) as (t' & Ht' & Hnc & Hs).
  assert (t' = t) as -> by congruence.
  destruct (ty_type t) eqn:Hk; try (inv_ret E; done); try done.
  - destruct b; [by destruct Hb|]. by inv_ret E.
  - destruct (Hs eq_refl) as (Hz & l & Hl & Hsh).
    destruct (decide (ty_size t = 0)); [done|].
    rewrite Hl in E. simpl in E. inv_bind E. destruct a as [[st1 s1] n1].
    assert (Hel : ∀ e, e ∈ l → canon st e).
    { intros e He. eapply canon_element; eauto. }
    assert (IH' : ∀ st p st' k, st !! NULL = None → canon st p →
              replace_type fuel st p false = Ret (st', k) → st' = st ∧ k = kind_at st p).
    { intros. eapply IH; eauto. congruence. }
    destruct (replace_elements_stable fuel IH' _ _ _ _ _ _ _ Hn Hel E1) as (-> & -> & ->).
    inv_bind E. apply deref_Ret in E2. assert (a = t) as -> by congruence.
    destruct (decide (1 < 0 + N.of_nat (length (nonvoid st l)))).
    { inv_ret E. done. }
    destruct Hsh as [H2|(e & He & Hke)]; [lia|].
    rewrite (last_kind_singleton _ _ _ _ He), Hke in E.
    rewrite <- Hk, set_type_same, insert_id in E by done. by inv_ret E.
Qed.

End Stable.

(** ** CIF preparation *)

Section PrepProofs.
Context {B : build} {H : host} (rk : ptr → nat).

(** The argument loop of [ffi_prep_cif_machdep] is the element loop of
    [replace_type] without its accumulators. *)
Lemma replace_args_elements fuel l :
  ∀ st s n,
    replace_args fuel st l =
    (r ← replace_elements (fun s e => replace_type fuel s e false) l st s n; Ret r.1.1).
Proof.
  induction l as [|e l IH]; intros st s n; simpl; [done|].
  destruct (replace_type fuel st e false) as [[st' k]| | |]; simpl; try done.
  destruct (is_void k); apply IH.
Qed.

Lemma rank_bound (l : list ptr) : ∃ r, ∀ e, e ∈ l → (rk e < r)%nat.
Proof.
  induction l as [|a l [r Hr]].
  - exists 0%nat. intros e He. by apply elem_of_nil in He.
  - exists (S (max (rk a) r)). intros e He. apply elem_of_cons in He as [->|He]; [lia|].
    specialize (Hr e He). lia.
Qed.

Lemma wf_store_replace_type fuel st p st' k :
  wf_store rk st → replace_type fuel st p false = Ret (st', k) → wf_store rk st'.
Proof.
  intros Hwf E. pose proof Hwf as (Hr & Hc & Hk).
  destruct (replace_type_ranked rk _ _ _ _ _ _ Hr E) as (Hr' & _).
  destruct (replace_type_canon rk _ _ _ _ _ _ Hwf E) as (_ & Hp & _).
  destruct (Hp _ Hc) as [Hc' Hk']. simpl in Hk'.
  split; [by apply Hr'|]. split; [done|congruence].
Qed.

Lemma replace_args_canon fuel l st st1 :
  wf_store rk st → (∀ a, a ∈ l → is_Some (st !! a)) →
  replace_args fuel st l = Ret st1 →
  wf_store rk st1 ∧ same_dom st st1 ∧
  (∀ a, a ∈ l → canon st1 a) ∧
  (∀ q, canon st q → canon st1 q ∧ kind_at st1 q = kind_at st q) ∧
  (∀ q, kind_at st q ≠ FFI_TYPE_STRUCT → kind_at st1 q = FFI_TYPE_STRUCT → canon st1 q).
Proof.
  intros Hwf Hl E. rewrite (replace_args_elements fuel l st FFI_TYPE_VOID 0) in E.
  inv_bind E. destruct a as [[st1' s1] n1]. inv_ret E. simpl.
  destruct (rank_bound l) as [r Hr].
  assert (Hl' : ∀ e, e ∈ l → is_Some (st !! e) ∧ (rk e < r)%nat) by (intros; split; auto).
  destruct (replace_elements_ranked rk fuel r (replace_type_ranked rk fuel)
              _ _ _ _ _ _ _ (proj1 Hwf) Hl' E0) as (_ & _ & Hd & _).
  destruct (replace_elements_canon rk fuel r (replace_type_canon rk fuel)
              _ _ _ _ _ _ _ Hwf Hl' E0) as (Hwf1 & Hp & Hc & Hb & _).
  done.
Qed.

Lemma replace_args_total fuel l st :
  ranked rk st → (∀ a, a ∈ l → is_Some (st !! a) ∧ (rk a < fuel)%nat) →
  ∃ st1, replace_args fuel st l = Ret st1.
Proof.
  intros Hr Hl. rewrite (replace_args_elements fuel l st FFI_TYPE_VOID 0).
  destruct (replace_elements_total rk fuel (replace_type_total rk fuel)
              l st FFI_TYPE_VOID 0 Hr Hl) as (st1 & s1 & n1 & ->).
  simpl. eauto.
Qed.

Lemma replace_args_stable fuel l :
  ∀ st st1, st !! NULL = None → (∀ a, a ∈ l → canon st a) →
    replace_args fuel st l = Ret st1 → st1 = st.
Proof.
  intros st st1 Hn Hl E. rewrite (replace_args_elements fuel l st FFI_TYPE_VOID 0) in E.
  inv_bind E. destruct a as [[st1' s1] n1]. inv_ret E. simpl.
  eapply replace_elements_stable; eauto.
  intros. eapply replace_type_stable; eauto. congruence.
Qed.

Lemma cif_args_wf st cif :
  wf_cif rk st cif → cif_args cif = Ret (arg_types cif).
Proof.
  intros (_ & Hlen & _). unfold cif_args. rewrite decide_True by lia.
  rewrite <- Hlen, Nat2N.id. by rewrite firstn_all.
Qed.

End PrepProofs.

Section Claims.
Context {B : build} {H : host} (rk : ptr → nat).

Lemma prep_tail_cif_fields cif :
  nargs (prep_tail_cif cif) = nargs cif ∧ rtype (prep_tail_cif cif) = rtype cif ∧
  arg_types (prep_tail_cif cif) = arg_types cif ∧ flags (prep_tail_cif cif) = flags cif ∧
  abi (prep_tail_cif cif) = abi cif.
Proof. unfold prep_tail_cif. by case_decide. Qed.

Lemma prep_tail_cif_idem cif : prep_tail_cif (prep_tail_cif cif) = prep_tail_cif cif.
Proof. unfold prep_tail_cif. destruct cif. simpl. repeat case_decide; done. Qed.

Lemma ffi_prep_cif_machdep_tail fuel st cif r :
  prep_types fuel st cif = Ret r →
  ffi_prep_cif_machdep fuel st cif =
  match r with
  | inl s => Ret (st, cif, s)
  | inr st' => Ret (st', prep_tail_cif cif, prep_tail_status cif)
  end.
Proof.
  intros E. unfold ffi_prep_cif_machdep. rewrite E. simpl.
  destruct r as [s|st']; [done|].
  unfold prep_tail_status, prep_tail_cif.
  destruct (decide (N.land (flags cif) VARARGS_FLAG = 0)); simpl;
    destruct (decide (MAX_ARGS < nargs cif)); done.
Qed.

Lemma prep_types_wasix fuel st cif r :
  EMSCRIPTEN = false → wf_cif rk st cif → prep_types fuel st cif = Ret r →
  ∃ st1 st2 k, r = inr st2 ∧ replace_args fuel st (arg_types cif) = Ret st1 ∧
               replace_type fuel st1 (rtype cif) true = Ret (st2, k).
Proof.
  intros Hem Hwf E. unfold prep_types in E. rewrite Hem in E.
  rewrite (cif_args_wf rk st cif Hwf) in E. simpl in E.
  inv_bind E. rename a into st1. inv_bind E. destruct a as [st2 k]. inv_ret E.
  by exists st1, st2, k.
Qed.

Lemma replace_type_true_not_longdouble fuel st p st' k :
  replace_type fuel st p true = Ret (st', k) →
  kind_at st p ≠ FFI_TYPE_STRUCT → k ≠ FFI_TYPE_LONGDOUBLE.
Proof.
  destruct fuel as [|fuel]; [discriminate|]. simpl. intros E Hk.
  destruct (decide (p = NULL)); [by inv_ret E|].
  inv_bind E. apply deref_Ret in E0. rewrite (kind_at_Some _ _ _ E0) in Hk.
  destruct (ty_type a) eqn:Hka; try (by inv_ret E).
  - inv_bind E. by inv_ret E.
  - done.
  - do 5 inv_bind E. by inv_ret E.
Qed.

(** What [ffi_prep_cif_machdep] establishes in the wasix build. *)
Lemma prep_cif_wasix fuel st cif st' cif' s :
  EMSCRIPTEN = false → wf_cif rk st cif →
  ffi_prep_cif_machdep fuel st cif = Ret (st', cif', s) →
  cif' = prep_tail_cif cif ∧ s = prep_tail_status cif ∧
  st' !! NULL = None ∧
  (∀ a, a ∈ arg_types cif → canon st' a) ∧
  (rtype cif ≠ NULL → canon st' (rtype cif)) ∧
  (kind_at st (rtype cif) ≠ FFI_TYPE_STRUCT →
   kind_at st' (rtype cif) ≠ FFI_TYPE_LONGDOUBLE).
Proof.
  intros Hem Hwf E. pose proof Hwf as (Hws & Hlen & Hargs & Hrt).
  destruct (prep_types fuel st cif) as [r| | |] eqn:Ep;
    try (unfold ffi_prep_cif_machdep in E; rewrite Ep in E; discriminate).
  rewrite (ffi_prep_cif_machdep_tail _ _ _ _ Ep) in E.
  destruct (prep_types_wasix _ _ _ _ Hem Hwf Ep) as (st1 & st2 & k & -> & Ea & Er).
  inv_ret E.
  destruct (replace_args_canon rk _ _ _ _ Hws Hargs Ea) as (Hws1 & Hd1 & Hc1 & Hp1 & Hb1).
  pose proof Hws1 as (Hr1 & _).
  destruct (replace_type_ranked rk _ _ _ _ _ _ Hr1 Er) as (_ & _ & Hd2 & Hk2 & _).
  destruct (replace_type_canon rk _ _ _ _ _ _ Hws1 Er) as (Hc2 & Hp2 & _).
  assert (Hn1 : st1 !! NULL = None) by apply Hr1.
  assert (Hn2 : st' !! NULL = None).
  { destruct (st' !! NULL) eqn:E2; [|done].
    assert (is_Some (st1 !! NULL)) as [? ?] by (apply Hd2; eauto). congruence. }
  split; [done|]. split; [done|]. split; [done|].
  split; [intros a Ha; by apply Hp2, Hc1|]. split; [done|].
  intros Hks Hkl.
  destruct (decide (rtype cif = NULL)) as [HN|HN].
  { rewrite HN in Hkl. unfold kind_at in Hkl. by rewrite Hn2 in Hkl. }
  rewrite (Hk2 HN) in Hkl. subst k.
  destruct (decide (kind_at st1 (rtype cif) = FFI_TYPE_STRUCT)) as [Hs1|Hs1].
  - assert (Hcr : canon st1 (rtype cif)) by (by apply Hb1).
    destruct (replace_type_stable _ _ _ _ _ _ Hn1 Hcr ltac:(congruence) Er) as [_ Hk].
    congruence.
  - by eapply replace_type_true_not_longdouble.
Qed.

Lemma cif_roots_wf st cif :
  wf_cif rk st cif → cif_roots (prep_tail_cif cif) = rtype cif :: arg_types cif.
Proof.
  intros (_ & Hlen & _). unfold cif_roots.
  destruct (prep_tail_cif_fields cif) as (-> & -> & -> & _).
  rewrite <- Hlen, Nat2N.id. by rewrite firstn_all.
Qed.

(** C1 (amended). In the wasix build, after [ffi_prep_cif_machdep] has
    returned on a well-formed CIF, every descriptor reachable from the
    return type or an argument type is in canonical form: its kind is not
    COMPLEX, and a STRUCT has a size other than 0 and either at least two
    elements that are not void or exactly one, which is a STRUCT itself;
    and the return type is not a LONGDOUBLE, provided its descriptor was
    not a STRUCT before the call. *)
Theorem prep_cif_canonical_form fuel st cif st' cif' s :
  EMSCRIPTEN = false → wf_cif rk st cif →
  ffi_prep_cif_machdep fuel st cif = Ret (st', cif', s) →
  (∀ root q, root ∈ cif_roots cif' → root ≠ NULL → reach st' root q →
             node_canon st' q) ∧
  (kind_at st (rtype cif) ≠ FFI_TYPE_STRUCT →
   kind_at st' (rtype cif') ≠ FFI_TYPE_LONGDOUBLE).
Proof.
  intros Hem Hwf E.
  destruct (prep_cif_wasix _ _ _ _ _ _ Hem Hwf E) as (-> & _ & _ & Ha & Hrt & Hld).
  split.
  - intros root q Hroot Hnn Hreach. rewrite (cif_roots_wf st cif Hwf) in Hroot.
    apply elem_of_cons in Hroot as [->|Hroot].
    + by apply (Hrt Hnn).
    + by apply (Ha root Hroot).
  - by destruct (prep_tail_cif_fields cif) as (_ & -> & _).
Qed.

Lemma replace_type_null fuel st b st' k :
  replace_type fuel st NULL b = Ret (st', k) → st' = st.
Proof. destruct fuel; [discriminate|]. simpl. intros E. by inv_ret E. Qed.

(** A second [ffi_prep_cif_machdep] changes nothing, unless the first one
    left a LONGDOUBLE return type behind. *)
Lemma prep_cif_idempotent_unless_longdouble fuel st cif st' cif' s fuel2 r :
  EMSCRIPTEN = false → wf_cif rk st cif →
  ffi_prep_cif_machdep fuel st cif = Ret (st', cif', s) →
  kind_at st' (rtype cif) ≠ FFI_TYPE_LONGDOUBLE →
  ffi_prep_cif_machdep fuel2 st' cif' = Ret r →
  r = (st', cif', s).
Proof.
  intros Hem Hwf E Hld E2. pose proof Hwf as (_ & Hlen & _).
  destruct (prep_cif_wasix _ _ _ _ _ _ Hem Hwf E) as (-> & -> & Hn & Ha & Hrt & _).
  destruct (prep_tail_cif_fields cif) as (Hf1 & Hf2 & Hf3 & Hf4 & Hf5).
  destruct (prep_types fuel2 st' (prep_tail_cif cif)) as [r2| | |] eqn:Ep;
    try (unfold ffi_prep_cif_machdep in E2; rewrite Ep in E2; discriminate).
  rewrite (ffi_prep_cif_machdep_tail _ _ _ _ Ep) in E2.
  unfold prep_types in Ep. rewrite Hem in Ep.
  unfold cif_args in Ep. rewrite Hf1, Hf2, Hf3 in Ep.
  rewrite decide_True in Ep by lia. rewrite <- Hlen, Nat2N.id, firstn_all in Ep.
  simpl in Ep. inv_bind Ep. rename a into st1.
  apply (replace_args_stable _ _ _ _ Hn Ha) in Ep0. subst st1.
  inv_bind Ep. destruct a as [st2 k]. inv_ret Ep.
  assert (st2 = st') as ->.
  { destruct (decide (rtype cif = NULL)) as [HN|HN].
    - rewrite HN in Ep0. by apply replace_type_null in Ep0.
    - by destruct (replace_type_stable _ _ _ _ _ _ Hn (Hrt HN) ltac:(done) Ep0). }
  inv_ret E2. rewrite prep_tail_cif_idem. unfold prep_tail_status. by rewrite Hf1.
Qed.

Lemma complex_args_none st l :
  (∀ a, a ∈ l → is_Some (st !! a) ∧ kind_at st a ≠ FFI_TYPE_COMPLEX) →
  complex_args st l = Ret false.
Proof.
  induction l as [|a l IH]; intros Hl; simpl; [done|].
  destruct (Hl a) as [[t Ht] Hk]; [by left|].
  rewrite (proj2 (deref_Ret _ _ _) Ht). simpl.
  rewrite (kind_at_Some _ _ _ Ht) in Hk. rewrite decide_False by done.
  apply IH. intros; apply Hl. by right.
Qed.

(** C3. On a well-formed CIF [ffi_prep_cif_machdep] returns, and returns
    FFI_BAD_TYPEDEF exactly when [nargs] exceeds 1000 and FFI_OK in every
    other case (in the emscripten build: when its ABI and COMPLEX checks
    pass). *)
Theorem prep_cif_slot_budget st cif :
  wf_cif rk st cif → other_checks_pass st cif →
  ∃ fuel0, ∀ fuel, (fuel0 ≤ fuel)%nat →
    ∃ st' cif' s, ffi_prep_cif_machdep fuel st cif = Ret (st', cif', s) ∧
                  (s = FFI_BAD_TYPEDEF ↔ MAX_ARGS < nargs cif) ∧
                  (¬ MAX_ARGS < nargs cif → s = FFI_OK).
Proof.
  intros Hwf Hoc. pose proof Hwf as (Hws & Hlen & Hargs & Hrt).
  assert (Hst : (prep_tail_status cif = FFI_BAD_TYPEDEF ↔ MAX_ARGS < nargs cif) ∧
                (¬ MAX_ARGS < nargs cif → prep_tail_status cif = FFI_OK)).
  { unfold prep_tail_status. case_decide; split; done. }
  destruct (rank_bound rk (rtype cif :: arg_types cif)) as [r Hr].
  exists r. intros fuel Hfuel.
  assert (∃ st', prep_types fuel st cif = Ret (inr st')) as [st' Ep].
  { unfold prep_types. rewrite (cif_args_wf rk st cif Hwf).
    destruct EMSCRIPTEN eqn:Hem.
    - destruct (Hoc Hem) as (Habi & [rt Hrt'] & Hkr & Hka).
      rewrite decide_False by (intros ?; done).
      rewrite (proj2 (deref_Ret _ _ _) Hrt'). simpl.
      rewrite (kind_at_Some _ _ _ Hrt') in Hkr. rewrite decide_False by done.
      rewrite complex_args_none; [simpl; eauto|].
      intros a Ha. split; [by apply Hargs|by apply Hka].
    - simpl.
      destruct (replace_args_total rk fuel (arg_types cif) st (proj1 Hws)) as [st1 Ea].
      { intros a Ha. split; [by apply Hargs|].
        assert (rk a < r)%nat by (apply Hr; by right). lia. }
      rewrite Ea. simpl.
      destruct (replace_args_canon rk _ _ _ _ Hws Hargs Ea) as (Hws1 & Hd1 & _).
      destruct (replace_type_total rk fuel st1 (rtype cif) true (proj1 Hws1))
        as (st2 & k & Er).
      { destruct Hrt as [?|?]; [by left|right; by apply Hd1]. }
      { assert (rk (rtype cif) < r)%nat by (apply Hr; by left). lia. }
      rewrite Er. simpl. eauto. }
  rewrite (ffi_prep_cif_machdep_tail _ _ _ _ Ep).
  exists st', (prep_tail_cif cif), (prep_tail_status cif). by split.
Qed.

(** C8. In return position a LONGDOUBLE descriptor is rewritten in place
    to a struct of two [ffi_type_sint64] (64-bit signed integers) with size
    16 and alignment 16, and [replace_type] returns FFI_TYPE_STRUCT. *)
Theorem longdouble_result_rewrite fuel st p t s64 :
  p ≠ NULL → st !! p = Some t → ty_type t = FFI_TYPE_LONGDOUBLE →
  st !! ffi_type_sint64 = Some s64 → ty_type s64 = FFI_TYPE_SINT64 → ty_size s64 = 8 →
  let t' := mk_ffi_type 16 16 FFI_TYPE_STRUCT (Some [ffi_type_sint64; ffi_type_sint64]) in
  replace_type (S fuel) st p true = Ret (<[p := t']> st, FFI_TYPE_STRUCT) ∧
  kind_at (<[p := t']> st) ffi_type_sint64 = FFI_TYPE_SINT64.
Proof.
  intros Hp Ht Hk Hs Hsk Hsz t'. split.
  - simpl. rewrite decide_False by done.
    rewrite (proj2 (deref_Ret _ _ _) Ht). simpl. rewrite Hk.
    rewrite (proj2 (deref_Ret _ _ _) Hs). simpl. by rewrite Hsz.
  - rewrite kind_at_insert_ne by (intros ->; congruence).
    by rewrite (kind_at_Some _ _ _ Hs).
Qed.

(** C9. When a struct (of a size other than 0) is left with at most one
    element that is not void once its elements are canonicalised,
    [replace_type] overwrites the kind field alone, with the kind of that
    element, or with VOID when there is none; size, alignment and elements
    keep their values. *)
Theorem struct_collapse_frame fuel st p b t l st' k :
  wf_store rk st → st !! p = Some t → ty_type t = FFI_TYPE_STRUCT →
  ty_size t ≠ 0 → ty_elements t = Some l →
  replace_type fuel st p b = Ret (st', k) →
  (length (nonvoid st' l) ≤ 1)%nat →
  st' !! p = Some (mk_ffi_type (ty_size t) (ty_alignment t) k (ty_elements t)) ∧
  (∀ e, nonvoid st' l = [e] → k = kind_at st' e) ∧
  (nonvoid st' l = [] → k = FFI_TYPE_VOID).
Proof.
  intros Hwf Ht Hk Hz Hl E Hlen. pose proof Hwf as (Hr & _).
  assert (HpN : p ≠ NULL) by (eapply elem_not_null; eauto).
  destruct fuel as [|fuel]; [discriminate|]. simpl in E.
  rewrite decide_False in E by done.
  rewrite (proj2 (deref_Ret _ _ _) Ht) in E. simpl in E. rewrite Hk in E.
  rewrite decide_False in E by done. rewrite Hl in E. simpl in E.
  inv_bind E. destruct a as [[st1 s1] n1].
  assert (Hall : ∀ e, e ∈ l → is_Some (st !! e) ∧ (rk e < rk p)%nat).
  { pose proof (proj2 (proj2 (proj2 (proj2 (proj2 Hr)))) p t Ht) as Hn.
    unfold node_ranked in Hn. rewrite Hk in Hn. destruct Hn as (l' & Hl' & Hn).
    assert (l' = l) as -> by congruence. done. }
  destruct (replace_elements_ranked rk fuel (rk p) (replace_type_ranked rk fuel)
              _ _ _ _ _ _ _ Hr Hall E0) as (_ & Hu1 & _).
  destruct (replace_elements_canon rk fuel (rk p) (replace_type_canon rk fuel)
              _ _ _ _ _ _ _ Hwf Hall E0) as (_ & _ & _ & _ & Hn1 & Hs1).
  inv_bind E. apply deref_Ret in E1. assert (a = t) as ->.
  { rewrite Hu1 in E1 by lia. congruence. }
  assert (Hnv : nonvoid st' l = nonvoid st1 l ∧ ∀ e, e ∈ l → kind_at st' e = kind_at st1 e).
  { assert (Hke : ∀ e, e ∈ l → kind_at st' e = kind_at st1 e).
    { intros e He. destruct (decide (1 < n1)); inv_ret E; [done|].
      apply kind_at_insert_ne. intros ->. destruct (Hall e He). lia. }
    split; [|done]. apply nonvoid_kind_step. intros e He. left. by apply Hke. }
  destruct Hnv as [Hnv Hke]. rewrite Hnv in Hlen |- *.
  destruct (decide (1 < n1)); [lia|]. injection E as <- <-.
  split; [by rewrite lookup_insert_eq|]. split.
  - intros e He.
    assert (e ∈ nonvoid st1 l) as Hin by (rewrite He; by left).
    apply nonvoid_elem in Hin as [Hin _].
    rewrite (Hke e Hin). by rewrite Hs1, (last_kind_singleton _ _ _ _ He).
  - intros He. by rewrite Hs1, (last_kind_nil _ _ _ He).
Qed.

End Claims.

(** ** Bytes *)

Section Bytes.

Lemma Z_of_byte_range b : (0 ≤ Z_of_byte b < 256)%Z.
Proof. unfold Z_of_byte. pose proof (Byte.to_N_bounded b). lia. Qed.

Lemma byte_of_Z_of_byte b : byte_of_Z (Z_of_byte b) = b.
Proof.
  unfold byte_of_Z. rewrite Z.mod_small by apply Z_of_byte_range.
  unfold Z_of_byte. by rewrite N2Z.id, Byte.of_to_N.
Qed.

Lemma byte_of_Z_add z k : byte_of_Z (z + k * 256) = byte_of_Z z.
Proof. unfold byte_of_Z. by rewrite Z.mod_add. Qed.

Lemma Z_of_byte_of_Z z : Z_of_byte (byte_of_Z z) = (z `mod` 256)%Z.
Proof.
  unfold byte_of_Z, Z_of_byte.
  pose proof (Z.mod_pos_bound z 256 ltac:(lia)) as Hb.
  destruct (Byte.of_N (Z.to_N (z `mod` 256))) as [b|] eqn:E.
  - apply Byte.to_of_N in E. rewrite E. lia.
  - apply Byte.of_N_None_iff in E. lia.
Qed.

Lemma length_encode_le n z : length (encode_le n z) = n.
Proof. revert z. induction n; intros; simpl; [done|]. by rewrite IHn. Qed.

Lemma pow_8_succ (n : nat) : (2 ^ (8 * Z.of_nat (S n)) = 256 * 2 ^ (8 * Z.of_nat n))%Z.
Proof.
  replace (8 * Z.of_nat (S n))%Z with (8 + 8 * Z.of_nat n)%Z by lia.
  rewrite Z.pow_add_r by lia. done.
Qed.

Lemma decode_le_range bs : (0 ≤ decode_le bs < 2 ^ (8 * Z.of_nat (length bs)))%Z.
Proof.
  induction bs as [|b bs IH]; simpl decode_le; simpl length.
  - simpl. lia.
  - rewrite pow_8_succ. pose proof (Z_of_byte_range b). lia.
Qed.

(** Encoding after decoding gives the bytes back. *)
Lemma encode_decode_le bs : encode_le (length bs) (decode_le bs) = bs.
Proof.
  induction bs as [|b bs IH]; simpl; [done|]. f_equal.
  - rewrite Z.mul_comm, byte_of_Z_add. apply byte_of_Z_of_byte.
  - rewrite Z.mul_comm, Z.div_add by lia.
    rewrite Z.div_small by apply Z_of_byte_range. done.
Qed.

(** The [n] low bytes do not see multiples of [2 ^ (8 n)]. *)
Lemma encode_le_add n : ∀ z k, encode_le n (z + k * 2 ^ (8 * Z.of_nat n)) = encode_le n z.
Proof.
  induction n as [|n IH]; intros z k; [done|]. simpl encode_le. rewrite pow_8_succ.
  f_equal.
  - replace (z + k * (256 * 2 ^ (8 * Z.of_nat n)))%Z
      with (z + (k * 2 ^ (8 * Z.of_nat n)) * 256)%Z by lia.
    apply byte_of_Z_add.
  - replace (z + k * (256 * 2 ^ (8 * Z.of_nat n)))%Z
      with (z + (k * 2 ^ (8 * Z.of_nat n)) * 256)%Z by lia.
    rewrite Z.div_add by lia. apply IH.
Qed.

Lemma take_encode_le n : ∀ n' z, (n ≤ n')%nat → take n (encode_le n' z) = encode_le n z.
Proof.
  induction n as [|n IH]; intros n' z Hn; [by rewrite take_0|].
  destruct n' as [|n']; [lia|]. simpl. f_equal. apply IH. lia.
Qed.

Lemma encode_le_mod n n' z :
  (n ≤ n')%nat → encode_le n (z `mod` 2 ^ (8 * Z.of_nat n')) = encode_le n z.
Proof.
  intros Hn.
  replace (2 ^ (8 * Z.of_nat n'))%Z
    with (2 ^ (8 * Z.of_nat (n' - n)) * 2 ^ (8 * Z.of_nat n))%Z.
  2:{ rewrite <- Z.pow_add_r by lia. f_equal. lia. }
  set (M := (2 ^ (8 * Z.of_nat (n' - n)) * 2 ^ (8 * Z.of_nat n))%Z).
  assert (HM : (M ≠ 0)%Z) by (unfold M; lia).
  rewrite (Z.mod_eq z M HM).
  replace (z - M * (z `div` M))%Z
    with (z + (- (z `div` M) * 2 ^ (8 * Z.of_nat (n' - n))) * 2 ^ (8 * Z.of_nat n))%Z
    by (unfold M; lia).
  apply encode_le_add.
Qed.

(** Decoding after encoding gives the value modulo [2 ^ (8 n)]. *)
Lemma decode_encode_le n : ∀ z, decode_le (encode_le n z) = (z `mod` 2 ^ (8 * Z.of_nat n))%Z.
Proof.
  induction n as [|n IH]; intros z.
  - simpl. by rewrite Z.mod_1_r.
  - simpl encode_le. simpl decode_le. rewrite IH, Z_of_byte_of_Z, pow_8_succ.
    rewrite Z.rem_mul_r by lia. done.
Qed.

(** A narrow object widened into [n'] bytes, whatever the extension, is
    read back from the low bytes. *)
Lemma widen_roundtrip bs n' z k :
  (length bs ≤ n')%nat →
  z = (decode_le bs + k * 2 ^ (8 * Z.of_nat (length bs)))%Z →
  take (length bs) (encode_le n' (z `mod` 2 ^ (8 * Z.of_nat n'))) = bs.
Proof.
  intros Hn ->. rewrite take_encode_le by done. rewrite encode_le_mod by done.
  rewrite encode_le_add. apply encode_decode_le.
Qed.

Lemma store_bytes_below bs : ∀ m p a, a < p → store_bytes m p bs a = m a.
Proof.
  induction bs as [|b bs IH]; intros m p a Ha; simpl; [done|].
  rewrite IH by lia. rewrite decide_False by lia. done.
Qed.

Lemma store_bytes_lookup bs : ∀ m p i b,
  bs !! i = Some b → store_bytes m p bs (p + N.of_nat i) = b.
Proof.
  induction bs as [|b0 bs IH]; intros m p i b Hi; [done|].
  destruct i as [|i]; cbn [store_bytes]; simpl in Hi.
  - inv_ret Hi. rewrite N.add_0_r, store_bytes_below by lia.
    by rewrite decide_True.
  - replace (p + N.of_nat (S i)) with (p + 1 + N.of_nat i) by lia.
    by apply IH.
Qed.

Lemma length_load_bytes m p n : length (load_bytes m p n) = n.
Proof. unfold load_bytes. by rewrite length_map, length_seq. Qed.

Lemma load_bytes_lookup m p n i :
  (i < n)%nat → load_bytes m p n !! i = Some (m (p + N.of_nat i)).
Proof.
  intros Hi. unfold load_bytes. rewrite list_lookup_fmap.
  rewrite lookup_seq_lt by done. done.
Qed.

(** Reading back the first [n] bytes of what was stored. *)
Lemma load_store_bytes m p bs n :
  (n ≤ length bs)%nat → load_bytes (store_bytes m p bs) p n = take n bs.
Proof.
  intros Hn. apply list_eq. intros i.
  destruct (decide (i < n)%nat) as [Hi|Hi].
  - rewrite load_bytes_lookup by done. rewrite lookup_take_lt by done.
    destruct (lookup_lt_is_Some_2 bs i ltac:(lia)) as [b Hb].
    rewrite Hb. f_equal. by apply store_bytes_lookup.
  - rewrite lookup_take_ge by lia.
    apply lookup_ge_None_2. rewrite length_load_bytes. lia.
Qed.

(** Memory below the address written is kept. *)
Lemma load_bytes_below m m' p n :
  (∀ a, a < p + N.of_nat n → m' a = m a) → load_bytes m' p n = load_bytes m p n.
Proof.
  intros Hm. unfold load_bytes. apply map_ext_in. intros i Hi.
  apply in_seq in Hi. apply Hm. lia.
Qed.

Lemma load_signed_unsigned m p n :
  ∃ k, load_signed m p n = (load_unsigned m p n + k * 2 ^ (8 * Z.of_nat n))%Z.
Proof.
  unfold load_signed. destruct (_ <? _)%Z.
  - exists 0%Z. lia.
  - exists (-1)%Z. lia.
Qed.

End Bytes.

(** ** Lowering, raising and the forward call *)

Section Marshalling.
Context {B : build} {H : host}.

#[local] Arguments store_bytes : simpl never.
#[local] Arguments load_bytes : simpl never.
#[local] Arguments encode_le : simpl never.
#[local] Arguments store_32 : simpl never.

Lemma store_wide_roundtrip m value values n n' z k :
  (n ≤ n')%nat →
  z = (load_unsigned m value n + k * 2 ^ (8 * Z.of_nat n))%Z →
  load_bytes (store_bytes m values (encode_le n' (z `mod` 2 ^ (8 * Z.of_nat n')))) values n
  = load_bytes m value n.
Proof.
  intros Hn Hz. rewrite load_store_bytes by (rewrite length_encode_le; lia).
  pose proof (length_load_bytes m value n) as Hlen.
  rewrite <- Hlen at 1. apply (widen_roundtrip _ _ _ k); [lia|].
  by rewrite Hlen.
Qed.

Lemma store_32_unsigned m value values n :
  (n ≤ 4)%nat →
  load_bytes (store_32 m values (load_unsigned m value n)) values n = load_bytes m value n.
Proof.
  intros Hn. unfold store_32. change (2 ^ 32)%Z with (2 ^ (8 * Z.of_nat 4))%Z.
  apply (store_wide_roundtrip _ _ _ _ _ _ 0%Z); [done|lia].
Qed.

Lemma store_32_signed m value values n :
  (n ≤ 4)%nat →
  load_bytes (store_32 m values (load_signed m value n)) values n = load_bytes m value n.
Proof.
  intros Hn. unfold store_32. change (2 ^ 32)%Z with (2 ^ (8 * Z.of_nat 4))%Z.
  destruct (load_signed_unsigned m value n) as [k Hk].
  by apply (store_wide_roundtrip _ _ _ _ _ _ k).
Qed.

Lemma store_copy m value values n :
  load_bytes (store_bytes m values (load_bytes m value n)) values n = load_bytes m value n.
Proof.
  rewrite load_store_bytes by (by rewrite length_load_bytes).
  apply take_ge. by rewrite length_load_bytes.
Qed.

(** [return_indirect] on a canonical return type. *)
Lemma return_indirect_canonical st rtype :
  (rtype = NULL ∨ ∃ t, st !! rtype = Some t ∧ canonical_return_kind (ty_type t) = true) →
  return_indirect st rtype
  = Ret (bool_decide (rtype ≠ NULL ∧ kind_at st rtype = FFI_TYPE_STRUCT)).
Proof.
  intros Hc. unfold return_indirect.
  destruct (decide (rtype = NULL)) as [->|Hn].
  { by rewrite bool_decide_eq_false_2 by (intros [? _]; done). }
  destruct Hc as [?|(t & Ht & Hk)]; [done|].
  rewrite (proj2 (deref_Ret _ _ _) Ht), (kind_at_Some _ _ _ Ht). simpl.
  destruct (ty_type t); try discriminate;
    try (by rewrite bool_decide_eq_false_2 by (intros [_ ?]; done)).
  by rewrite bool_decide_eq_true_2.
Qed.

(** C2. On a canonical return type (or NULL, which stands for void)
    [return_indirect] returns true exactly when the kind is STRUCT, and
    false for NULL, VOID, the integer kinds up to 64 bits, FLOAT, DOUBLE
    and POINTER. *)
Theorem return_indirect_iff_struct st rtype :
  (rtype = NULL ∨ ∃ t, st !! rtype = Some t ∧ canonical_return_kind (ty_type t) = true) →
  (return_indirect st rtype = Ret true ↔
   rtype ≠ NULL ∧ kind_at st rtype = FFI_TYPE_STRUCT) ∧
  (return_indirect st rtype = Ret false ↔
   ¬ (rtype ≠ NULL ∧ kind_at st rtype = FFI_TYPE_STRUCT)).
Proof.
  intros Hc. rewrite (return_indirect_canonical st rtype Hc).
  destruct (decide (rtype ≠ NULL ∧ kind_at st rtype = FFI_TYPE_STRUCT)) as [Hs|Hs].
  - rewrite bool_decide_eq_true_2 by done. split; split; done.
  - rewrite bool_decide_eq_false_2 by done. split; split; done.
Qed.

(** The ABI checks that are made: [ffi_prep_closure_loc] in the wasix
    build refuses the emscripten tag, and both entry points of the
    emscripten build refuse every tag but their own. *)
Lemma prep_closure_loc_wasix_rejects_emscripten st closure cif fun_ user_data' codeloc :
  EMSCRIPTEN = false → abi cif = FFI_WASM32_EMSCRIPTEN →
  ffi_prep_closure_loc st closure cif fun_ user_data' codeloc = Ret (closure, FFI_BAD_ABI).
Proof.
  intros Hem Habi. unfold ffi_prep_closure_loc. rewrite Hem.
  by rewrite decide_True.
Qed.

Lemma prep_closure_loc_emscripten_rejects_other st closure cif fun_ user_data' codeloc :
  EMSCRIPTEN = true → abi cif ≠ FFI_WASM32_EMSCRIPTEN →
  ffi_prep_closure_loc st closure cif fun_ user_data' codeloc = Ret (closure, FFI_BAD_ABI).
Proof.
  intros Hem Habi. unfold ffi_prep_closure_loc. rewrite Hem.
  destruct (decide (abi cif ≠ FFI_WASM32_EMSCRIPTEN)); done.
Qed.

Lemma prep_cif_emscripten_rejects_other fuel st cif :
  EMSCRIPTEN = true → abi cif ≠ FFI_WASM32_EMSCRIPTEN →
  ffi_prep_cif_machdep fuel st cif = Ret (st, cif, FFI_BAD_ABI).
Proof.
  intros Hem Habi. unfold ffi_prep_cif_machdep, prep_types. rewrite Hem.
  destruct (decide (abi cif ≠ FFI_WASM32_EMSCRIPTEN)); done.
Qed.

(** C10. In the wasix build [ffi_prep_cif_machdep_var] returns
    FFI_BAD_ABI, and the CIF it leaves has the VARARGS bit set in [flags]
    and [nfixedargs] overwritten with the argument. *)
Theorem prep_cif_var_wasix cif nfixedargs' ntotalargs :
  EMSCRIPTEN = false →
  ∃ cif', ffi_prep_cif_machdep_var cif nfixedargs' ntotalargs = (cif', FFI_BAD_ABI) ∧
          flags cif' = N.lor (flags cif) VARARGS_FLAG ∧
          N.testbit (flags cif') 0 = true ∧
          nfixedargs cif' = nfixedargs' ∧
          abi cif' = abi cif ∧ nargs cif' = nargs cif ∧
          arg_types cif' = arg_types cif ∧ rtype cif' = rtype cif.
Proof.
  intros Hem. unfold ffi_prep_cif_machdep_var. rewrite Hem. eexists. split; [done|].
  simpl. split; [done|]. split; [|done].
  rewrite N.lor_spec. simpl. apply orb_true_r.
Qed.

End Marshalling.

Section Widening.

#[local] Arguments store_bytes : simpl never.
#[local] Arguments load_bytes : simpl never.
#[local] Arguments encode_le : simpl never.

Lemma load_unsigned_range m p n :
  (0 ≤ load_unsigned m p n < 2 ^ (8 * Z.of_nat n))%Z.
Proof.
  unfold load_unsigned. pose proof (decode_le_range (load_bytes m p n)) as Hr.
  by rewrite length_load_bytes in Hr.
Qed.

(** The 32-bit slot holds the stored value modulo [2 ^ 32]. *)
Lemma load_store_32 m values z :
  load_unsigned (store_32 m values z) values 4 = (z `mod` 2 ^ 32)%Z.
Proof.
  unfold load_unsigned, store_32.
  rewrite load_store_bytes by (by rewrite length_encode_le).
  rewrite take_ge by (by rewrite length_encode_le).
  rewrite decode_encode_le. change (2 ^ (8 * Z.of_nat 4))%Z with (2 ^ 32)%Z.
  by rewrite Z.mod_mod.
Qed.

(** Unsigned narrow integers are zero-extended into the slot. *)
Lemma place_value_zero_extends m value values n :
  (n ≤ 4)%nat →
  load_unsigned (store_32 m values (load_unsigned m value n)) values 4
  = load_unsigned m value n.
Proof.
  intros Hn. rewrite load_store_32. apply Z.mod_small.
  pose proof (load_unsigned_range m value n) as Hr.
  assert (2 ^ (8 * Z.of_nat n) ≤ 2 ^ 32)%Z by (apply Z.pow_le_mono_r; lia).
  lia.
Qed.

(** Signed narrow integers are sign-extended into the slot. *)
Lemma place_value_sign_extends m value values n :
  (1 ≤ n ≤ 4)%nat →
  load_signed (store_32 m values (load_signed m value n)) values 4
  = load_signed m value n.
Proof.
  intros Hn. unfold load_signed at 1. rewrite load_store_32.
  change (8 * Z.of_nat 4 - 1)%Z with 31%Z. change (8 * Z.of_nat 4)%Z with 32%Z.
  pose proof (load_unsigned_range m value n) as Hr.
  assert (Hp : (2 ^ (8 * Z.of_nat n) = 2 * 2 ^ (8 * Z.of_nat n - 1))%Z).
  { rewrite <- Z.pow_succ_r by lia. f_equal. lia. }
  assert (Hle : (2 ^ (8 * Z.of_nat n - 1) ≤ 2 ^ 31)%Z) by (apply Z.pow_le_mono_r; lia).
  assert (Hpos : (0 < 2 ^ (8 * Z.of_nat n - 1))%Z) by (apply Z.pow_pos_nonneg; lia).
  unfold load_signed.
  destruct (load_unsigned m value n <? 2 ^ (8 * Z.of_nat n - 1))%Z eqn:Hs.
  - apply Z.ltb_lt in Hs. rewrite Z.mod_small by lia.
    destruct (_ <? _)%Z eqn:Hs'; [done|]. apply Z.ltb_ge in Hs'. lia.
  - apply Z.ltb_ge in Hs.
    set (s := (load_unsigned m value n - 2 ^ (8 * Z.of_nat n))%Z) in *.
    assert (Hm : (s `mod` 2 ^ 32 = s + 2 ^ 32)%Z).
    { symmetry. apply (Z.mod_unique s (2 ^ 32) (-1)); [left|]; subst s; lia. }
    rewrite Hm. destruct (_ <? _)%Z eqn:Hs'; [|lia].
    apply Z.ltb_lt in Hs'. subst s. lia.
Qed.

End Widening.

Section SlotBytes.

Lemma drop_encode_le n : ∀ k z,
  drop n (encode_le (n + k) z) = encode_le k (z / 2 ^ (8 * Z.of_nat n))%Z.
Proof.
  induction n as [|n IH]; intros k z.
  - simpl. by rewrite Z.div_1_r.
  - cbn [Nat.add encode_le drop]. rewrite IH. f_equal.
    rewrite pow_8_succ. rewrite Z.div_div by (try apply Z.pow_pos_nonneg; lia).
    done.
Qed.

Lemma encode_le_zero k : encode_le k 0 = replicate k Byte.x00.
Proof.
  induction k as [|k IH]; [done|]. cbn [encode_le replicate].
  change (0 / 256)%Z with 0%Z. by rewrite IH.
Qed.

Lemma encode_le_ones k : encode_le k (2 ^ (8 * Z.of_nat k) - 1) = replicate k Byte.xff.
Proof.
  induction k as [|k IH]; [done|]. cbn [encode_le replicate].
  assert (Hp : (0 < 2 ^ (8 * Z.of_nat k))%Z) by (apply Z.pow_pos_nonneg; lia).
  rewrite pow_8_succ.
  replace (256 * 2 ^ (8 * Z.of_nat k) - 1)%Z
    with (255 + (2 ^ (8 * Z.of_nat k) - 1) * 256)%Z by lia.
  rewrite byte_of_Z_add. rewrite Z.div_add by lia. rewrite Z.add_0_l, IH. done.
Qed.

Lemma load_bytes_drop m p n k :
  load_bytes m (p + N.of_nat n) k = drop n (load_bytes m p (n + k)).
Proof.
  apply list_eq. intros i. rewrite lookup_drop.
  destruct (decide (i < k)%nat) as [Hi|Hi].
  - rewrite !load_bytes_lookup by lia. do 2 f_equal. lia.
  - rewrite !lookup_ge_None_2; [done|rewrite length_load_bytes; lia..].
Qed.

#[local] Arguments store_bytes : simpl never.
#[local] Arguments load_bytes : simpl never.
#[local] Arguments encode_le : simpl never.

(** The bytes of a 32-bit slot above its [n] low bytes. *)
Lemma store_32_high_bytes m values z n :
  (n ≤ 4)%nat →
  load_bytes (store_32 m values z) (values + N.of_nat n) (4 - n)
  = encode_le (4 - n) ((z `mod` 2 ^ 32) / 2 ^ (8 * Z.of_nat n))%Z.
Proof.
  intros Hn. rewrite load_bytes_drop. replace (n + (4 - n))%nat with 4%nat by lia.
  unfold store_32. rewrite load_store_bytes by (by rewrite length_encode_le).
  rewrite take_ge by (by rewrite length_encode_le).
  replace 4%nat with (n + (4 - n))%nat at 1 by lia. apply drop_encode_le.
Qed.

(** An unsigned narrow integer leaves zero bytes above it. *)
Lemma store_32_zero_fill m value values n :
  (n ≤ 4)%nat →
  load_bytes (store_32 m values (load_unsigned m value n)) (values + N.of_nat n) (4 - n)
  = replicate (4 - n) Byte.x00.
Proof.
  intros Hn. rewrite store_32_high_bytes by done.
  pose proof (load_unsigned_range m value n) as Hr.
  assert (2 ^ (8 * Z.of_nat n) ≤ 2 ^ 32)%Z by (apply Z.pow_le_mono_r; lia).
  rewrite Z.mod_small by lia. rewrite Z.div_small by lia. apply encode_le_zero.
Qed.

(** A signed narrow integer leaves copies of its sign above it. *)
Lemma store_32_sign_fill m value values n :
  (1 ≤ n ≤ 4)%nat →
  load_bytes (store_32 m values (load_signed m value n)) (values + N.of_nat n) (4 - n)
  = replicate (4 - n) (sign_fill m value n).
Proof.
  intros Hn. rewrite store_32_high_bytes by lia.
  pose proof (load_unsigned_range m value n) as Hr.
  assert (Hle : (2 ^ (8 * Z.of_nat n) ≤ 2 ^ 32)%Z) by (apply Z.pow_le_mono_r; lia).
  assert (Hpos : (0 < 2 ^ (8 * Z.of_nat n))%Z) by (apply Z.pow_pos_nonneg; lia).
  unfold load_signed, sign_fill.
  destruct (load_unsigned m value n <? 2 ^ (8 * Z.of_nat n - 1))%Z eqn:Hs.
  - apply Z.ltb_lt in Hs. rewrite decide_False by lia.
    rewrite Z.mod_small by lia. rewrite Z.div_small by lia. apply encode_le_zero.
  - apply Z.ltb_ge in Hs. rewrite decide_True by lia.
    set (u := load_unsigned m value n) in *.
    assert (Hsplit : (2 ^ 32 = 2 ^ (8 * Z.of_nat (4 - n)) * 2 ^ (8 * Z.of_nat n))%Z).
    { rewrite <- Z.pow_add_r by lia. f_equal. lia. }
    assert (Hm : ((u - 2 ^ (8 * Z.of_nat n)) `mod` 2 ^ 32
                  = u + (2 ^ (8 * Z.of_nat (4 - n)) - 1) * 2 ^ (8 * Z.of_nat n))%Z).
    { symmetry. apply (Z.mod_unique _ (2 ^ 32) (-1)); [left; nia|lia]. }
    rewrite Hm, Z.div_add by lia. rewrite Z.div_small by lia. rewrite Z.add_0_l.
    apply encode_le_ones.
Qed.

End SlotBytes.

Section LowerRaise.
Context {B : build}.

#[local] Arguments store_bytes : simpl never.
#[local] Arguments load_bytes : simpl never.
#[local] Arguments encode_le : simpl never.
#[local] Arguments store_32 : simpl never.

(** C5. For a canonical kind other than STRUCT, [place_value] followed by
    [take_value] at the same cursor hands out a pointer at which the
    object's bytes are those of the original value, read at the type's own
    width; both advance the cursor by [type_size]. An integer narrower
    than the 32-bit slot is widened by its signedness: above the bytes of
    an unsigned one the slot holds zero bytes, above those of a signed one
    copies of its sign, so that the slot read as a 32-bit unsigned, resp.
    signed, integer has the value of the argument. *)
Theorem place_take_roundtrip st type t value m values :
  type ≠ NULL → st !! type = Some t → lowerable (ty_type t) = true →
  ∃ m' sz,
    place_value st type value m values = Ret (m', values + sz) ∧
    take_value st type m' values = Ret (values, values + sz) ∧
    type_size st type = Ret sz ∧
    load_bytes m' values (c_object_size (ty_type t))
    = load_bytes m value (c_object_size (ty_type t)) ∧
    (∀ n, unsigned_width (ty_type t) = Some n →
       load_bytes m' (values + N.of_nat n) (4 - n) = replicate (4 - n) Byte.x00 ∧
       load_unsigned m' values 4 = load_unsigned m value n) ∧
    (∀ n, signed_width (ty_type t) = Some n →
       load_bytes m' (values + N.of_nat n) (4 - n)
       = replicate (4 - n) (sign_fill m value n) ∧
       load_signed m' values 4 = load_signed m value n).
Proof.
  intros Hn Ht Hl. unfold place_value, take_value, type_size.
  rewrite decide_False by done.
  rewrite (proj2 (deref_Ret _ _ _) Ht). simpl.
  destruct (ty_type t) eqn:Hk; try discriminate; simpl;
    [exists m, 0; rewrite N.add_0_r; repeat split; done|..];
    eexists _, _; (split; [reflexivity|]); (split; [reflexivity|]);
    (split; [reflexivity|]);
    (split; [|split; intros n Hw; try discriminate; inv_ret Hw;
              (split; [first [apply store_32_zero_fill; lia | apply store_32_sign_fill; lia]
                      |first [apply place_value_zero_extends; lia
                             |apply place_value_sign_extends; lia]])]);
    try (by apply store_32_unsigned; lia);
    try (by apply store_32_signed; lia);
    try apply store_copy.
  - change (2 ^ 64)%Z with (2 ^ (8 * Z.of_nat 8))%Z.
    by apply (store_wide_roundtrip _ _ _ _ _ _ 0%Z); [done|lia].
  - change (2 ^ 64)%Z with (2 ^ (8 * Z.of_nat 8))%Z.
    destruct (load_signed_unsigned m value 8) as [k Hk'].
    by apply (store_wide_roundtrip _ _ _ _ _ _ k).
Qed.

End LowerRaise.

Section ForwardCall.
Context {B : build} {H : host}.

#[local] Arguments store_bytes : simpl never.
#[local] Arguments load_bytes : simpl never.
#[local] Arguments encode_le : simpl never.
#[local] Arguments store_32 : simpl never.

Lemma abi_size_bound k : abi_size k ≤ 16.
Proof. destruct k; simpl; lia. Qed.

Lemma args_size_bound st args : args_size st args ≤ 16 * N.of_nat (length args).
Proof.
  induction args as [|a args IH]; [simpl; lia|].
  cbn [args_size foldr length]. rewrite Nat2N.inj_succ.
  pose proof (abi_size_bound (kind_at st a)). unfold args_size in IH. lia.
Qed.

Lemma type_size_passable st a t :
  a ≠ NULL → st !! a = Some t → passable (ty_type t) = true →
  type_size st a = Ret (abi_size (kind_at st a)).
Proof.
  intros Hn Ht Hp. unfold type_size. rewrite decide_False by done.
  rewrite (proj2 (deref_Ret _ _ _) Ht), (kind_at_Some _ _ _ Ht). simpl.
  by destruct (ty_type t).
Qed.

Lemma store_32_below m p z a : a < p → store_32 m p z a = m a.
Proof. intros Ha. unfold store_32. by apply store_bytes_below. Qed.

Lemma place_value_passable st a t v m cur :
  st !! a = Some t → passable (ty_type t) = true →
  ∃ m', place_value st a v m cur = Ret (m', cur + abi_size (kind_at st a)) ∧
        ∀ x, x < cur → m' x = m x.
Proof.
  intros Ht Hp. unfold place_value.
  rewrite (proj2 (deref_Ret _ _ _) Ht), (kind_at_Some _ _ _ Ht). simpl.
  destruct (ty_type t); try discriminate; simpl;
    [exists m; by rewrite N.add_0_r|..];
    eexists; (split; [reflexivity|]); intros x Hx;
    first [by apply store_32_below | by apply store_bytes_below].
Qed.

Lemma sum_type_sizes_passable st args : ∀ total,
  (∀ a, a ∈ args → a ≠ NULL ∧ ∃ t, st !! a = Some t ∧ passable (ty_type t) = true) →
  total + 16 * N.of_nat (length args) < SIZE_MAX1 →
  sum_type_sizes st args total = Ret (total + args_size st args).
Proof.
  induction args as [|a args IH]; intros total Hargs Hb; simpl.
  - by rewrite N.add_0_r.
  - destruct (Hargs a) as (Hn & t & Ht & Hp); [by left|].
    rewrite (type_size_passable _ _ _ Hn Ht Hp). simpl.
    pose proof (abi_size_bound (kind_at st a)).
    cbn [length] in Hb. rewrite Nat2N.inj_succ in Hb. rewrite N.mod_small by lia.
    rewrite IH; [f_equal; unfold args_size; lia| |lia].
    intros; apply Hargs. by right.
Qed.

Lemma place_values_passable st args : ∀ avalue m cur,
  (∀ a, a ∈ args → ∃ t, st !! a = Some t ∧ passable (ty_type t) = true) →
  (length args ≤ length avalue)%nat →
  ∃ m2, place_values st args avalue m cur = Ret (m2, cur + args_size st args) ∧
        ∀ x, x < cur → m2 x = m x.
Proof.
  induction args as [|a args IH]; intros avalue m cur Hargs Hlen; simpl.
  - exists m. by rewrite N.add_0_r.
  - destruct avalue as [|v avalue]; [simpl in Hlen; lia|].
    destruct (Hargs a) as (t & Ht & Hp); [by left|].
    destruct (place_value_passable st a t v m cur Ht Hp) as (m' & -> & Hm'). simpl.
    destruct (IH avalue m' (cur + abi_size (kind_at st a))) as (m2 & -> & Hm2).
    { intros; apply Hargs. by right. }
    { simpl in Hlen. lia. }
    exists m2. split; [f_equal; f_equal; unfold args_size; lia|].
    intros x Hx. rewrite Hm2 by lia. by apply Hm'.
Qed.

(** The marshalling of [ffi_call] on a prepared CIF: the buffer it
    fills and the request it makes of the host. *)
Lemma ffi_call_request_buffer st cif fn rvalue avalue m values :
  prepared_cif st cif → (length (arg_types cif) ≤ length avalue)%nat →
  let indirect := bool_decide (rtype cif ≠ NULL ∧ kind_at st (rtype cif) = FFI_TYPE_STRUCT) in
  let total := (if indirect then 4 else 0) + args_size st (arg_types cif) in
  ∃ m2,
    ffi_call_request st cif fn rvalue avalue m values
    = Ret (m2, values + total,
           mk_call_dynamic fn values total rvalue
             (if indirect then 0 else abi_size (kind_at st (rtype cif)))) ∧
    return_indirect st (rtype cif) = Ret indirect ∧
    (∀ a, a ∈ arg_types cif → type_size st a = Ret (abi_size (kind_at st a))) ∧
    (indirect = true → load_unsigned m2 values 4 = (Z.of_N rvalue `mod` 2 ^ 32)%Z) ∧
    (indirect = false →
     type_size st (rtype cif) = Ret (abi_size (kind_at st (rtype cif)))).
Proof.
  intros (Hnull & Hmax & Hlen & Hargs & Hrt) Hav indirect total.
  assert (Hargs' : ∀ a, a ∈ arg_types cif →
            a ≠ NULL ∧ ∃ t, st !! a = Some t ∧ passable (ty_type t) = true).
  { intros a Ha. destruct (Hargs a Ha) as (t & Ht & Hp). split; [|eauto].
    intros ->. congruence. }
  assert (Hri : return_indirect st (rtype cif) = Ret indirect)
    by (by apply return_indirect_canonical).
  assert (Hrs : indirect = false →
            type_size st (rtype cif) = Ret (abi_size (kind_at st (rtype cif)))).
  { intros Hi. destruct Hrt as [Hr|(t & Ht & Hk)].
    - rewrite Hr. unfold type_size, kind_at. rewrite decide_True by done.
      by rewrite Hnull.
    - apply (type_size_passable _ _ t); [intros Hr; rewrite Hr in Ht; congruence|done|].
      by destruct (ty_type t). }
  assert (Hbound : 4 + 16 * N.of_nat (length (arg_types cif)) < SIZE_MAX1).
  { rewrite Hlen. unfold MAX_ARGS in Hmax. unfold SIZE_MAX1. simpl. lia. }
  unfold ffi_call_request. rewrite Hri. simpl.
  unfold cif_args. rewrite decide_True by lia.
  rewrite <- Hlen, Nat2N.id, firstn_all.
  destruct indirect eqn:Hind.
  - assert (Hst : type_size st (rtype cif) = Ret 4).
    { apply bool_decide_eq_true in Hind as [Hr Hk].
      destruct (kind_at_is_Some st (rtype cif)) as [t Ht]; [congruence|].
      rewrite (type_size_passable _ _ t Hr Ht), Hk; [done|].
      rewrite (kind_at_Some _ _ _ Ht) in Hk. by rewrite Hk. }
    rewrite Hst. simpl. rewrite N.mod_small by (unfold SIZE_MAX1; simpl; lia).
    rewrite sum_type_sizes_passable by (done || lia). simpl.
    destruct (place_values_passable st (arg_types cif) avalue
                (store_32 m values (Z.of_N rvalue)) (values + 4) Hargs Hav)
      as (m2 & -> & Hm2).
    simpl. exists m2. subst total. rewrite N.add_assoc.
    split; [done|]. split; [done|]. split; [intros a Ha; destruct (Hargs' a Ha) as (? & ? & ? & ?); by eapply type_size_passable|].
    split; [|done]. intros _. unfold load_unsigned.
    rewrite (load_bytes_below (store_32 m values (Z.of_N rvalue))) by (intros; by apply Hm2).
    unfold store_32. rewrite load_store_bytes by (by rewrite length_encode_le).
    rewrite take_ge by (by rewrite length_encode_le).
    rewrite decode_encode_le. change (2 ^ (8 * Z.of_nat 4))%Z with (2 ^ 32)%Z.
    by rewrite Z.mod_mod.
  - simpl. rewrite sum_type_sizes_passable by (done || lia). simpl.
    destruct (place_values_passable st (arg_types cif) avalue m values Hargs Hav)
      as (m2 & -> & Hm2).
    simpl. rewrite (Hrs eq_refl). simpl. exists m2. subst total.
    split; [done|]. split; [done|]. split; [intros a Ha; destruct (Hargs' a Ha) as (? & ? & ? & ?); by eapply type_size_passable|].
    done.
Qed.

(** C7. On a prepared CIF the wasix [ffi_call] fills a values buffer of
    exactly (4 if the return is indirect, else 0) plus the sum of the
    wasm-ABI sizes of the argument types, and is one call of the host's
    dynamic-call primitive on the memory so filled: with [fn], the buffer
    and that length, [rvalue] as the result buffer and, as its length, 0
    when the return is indirect (the first 4 bytes of the buffer then hold
    [rvalue]) and the wasm-ABI size of the return type otherwise;
    [ffi_call] leaves the memory the host leaves, and aborts when the host
    reports an error. *)
Theorem ffi_call_values_buffer st cif fn rvalue avalue m values :
  EMSCRIPTEN = false →
  prepared_cif st cif → (length (arg_types cif) ≤ length avalue)%nat →
  let indirect := bool_decide (rtype cif ≠ NULL ∧ kind_at st (rtype cif) = FFI_TYPE_STRUCT) in
  let total := (if indirect then 4 else 0) + args_size st (arg_types cif) in
  let request := mk_call_dynamic fn values total rvalue
                   (if indirect then 0 else abi_size (kind_at st (rtype cif))) in
  ∃ m2,
    ffi_call st cif fn rvalue avalue m values
    = (let '(error, m') := wasix_call_dynamic request m2 in
       if decide (error ≠ 0%Z) then Abort else Ret m') ∧
    ffi_call_request st cif fn rvalue avalue m values
    = Ret (m2, values + total, request) ∧
    return_indirect st (rtype cif) = Ret indirect ∧
    (∀ a, a ∈ arg_types cif → type_size st a = Ret (abi_size (kind_at st a))) ∧
    (indirect = true → load_unsigned m2 values 4 = (Z.of_N rvalue `mod` 2 ^ 32)%Z) ∧
    (indirect = false →
     type_size st (rtype cif) = Ret (abi_size (kind_at st (rtype cif)))).
Proof.
  intros Hem Hprep Hav indirect total request.
  destruct (ffi_call_request_buffer st cif fn rvalue avalue m values Hprep Hav)
    as (m2 & Hreq & Hrest).
  exists m2. split; [|split; [exact Hreq|exact Hrest]].
  unfold ffi_call. rewrite Hem, Hreq. done.
Qed.

End ForwardCall.

(** ** The concrete inputs *)

Section Examples.
#[local] Existing Instance wasix_build.
#[local] Existing Instance quiet_host.

Ltac solve_elem :=
  repeat match goal with
         | H : _ ∈ _ :: _ |- _ => apply elem_of_cons in H as [->|H]
         | H : _ ∈ [] |- _ => by apply elem_of_nil in H
         end.

Ltac forall_inserts tac :=
  lazymatch goal with
  | |- map_Forall _ (<[_ := _]> _) =>
      apply map_Forall_insert_2; [tac | forall_inserts tac]
  | |- map_Forall _ ∅ => apply map_Forall_empty
  end.

Lemma example_store_ranked : ranked example_rank example_store.
Proof.
  split; [done|]. split; [done|]. split; [done|].
  split; [eexists; split; [reflexivity|]; split; [done|done]|].
  split; [eexists; reflexivity|].
  change (map_Forall (node_ranked example_rank example_store) example_store).
  unfold example_store at 2.
  forall_inserts ltac:(
    unfold node_ranked; simpl; try done;
    first [ eexists; split; [reflexivity|]; intros e He; solve_elem;
            (split; [eexists; reflexivity | vm_compute; lia])
          | vm_compute; lia ]).
Qed.

Lemma example_store_wf : wf_store example_rank example_store.
Proof.
  split; [apply example_store_ranked|]. split; [|done].
  eapply canon_scalar; [reflexivity|done|done].
Qed.

Lemma cif_wrap_wf : wf_cif example_rank example_store cif_wrap.
Proof.
  split; [apply example_store_wf|]. split; [done|]. split.
  - intros a Ha. simpl in Ha. solve_elem. eexists; reflexivity.
  - right. eexists; reflexivity.
Qed.

Lemma cif_ld1_wf : wf_cif example_rank example_store cif_ld1.
Proof.
  split; [apply example_store_wf|]. split; [done|]. split.
  - intros a Ha. simpl in Ha. solve_elem.
  - right. eexists; reflexivity.
Qed.

Lemma cif_longdouble_wf : wf_cif example_rank example_store cif_longdouble.
Proof.
  split; [apply example_store_wf|]. split; [done|]. split.
  - intros a Ha. simpl in Ha. solve_elem. eexists; reflexivity.
  - right. eexists; reflexivity.
Qed.

Lemma cif_wrap_prep :
  ffi_prep_cif_machdep 3 example_store cif_wrap
  = Ret (example_store, mk_ffi_cif 1 1 [128] 96 0 1, FFI_OK).
Proof. vm_compute. reflexivity. Qed.

Lemma cif_longdouble_prep :
  ffi_prep_cif_machdep 3 example_store cif_longdouble
  = Ret (example_store_ld, mk_ffi_cif 1 1 [80] 64 0 1, FFI_OK).
Proof. vm_compute. reflexivity. Qed.

(** Witness of C1: [long double h(int)]. *)
Lemma prep_cif_canonical_form_witness :
  EMSCRIPTEN = false ∧ wf_cif example_rank example_store cif_longdouble ∧
  ffi_prep_cif_machdep 3 example_store cif_longdouble
  = Ret (example_store_ld, mk_ffi_cif 1 1 [80] 64 0 1, FFI_OK) ∧
  (∀ root q, root ∈ cif_roots (mk_ffi_cif 1 1 [80] 64 0 1) → root ≠ NULL →
             reach example_store_ld root q → node_canon example_store_ld q) ∧
  (kind_at example_store (rtype cif_longdouble) ≠ FFI_TYPE_STRUCT →
   kind_at example_store_ld (rtype (mk_ffi_cif 1 1 [80] 64 0 1)) ≠ FFI_TYPE_LONGDOUBLE).
Proof.
  split; [reflexivity|]. split; [exact cif_longdouble_wf|].
  split; [exact cif_longdouble_prep|].
  exact (prep_cif_canonical_form example_rank 3 _ _ _ _ _
           eq_refl cif_longdouble_wf cif_longdouble_prep).
Defined.

(** Counterexample to C1 as stated: after [ffi_prep_cif_machdep] on
    [void f(struct wrap)] the descriptor of [struct wrap] is still a
    STRUCT, and it has one element. *)
Lemma canonical_form_spec_fails :
  wf_cif example_rank example_store cif_wrap ∧
  ∃ st' cif' s,
    ffi_prep_cif_machdep 3 example_store cif_wrap = Ret (st', cif', s) ∧
    ¬ canonical_form_spec st' cif'.
Proof.
  split; [exact cif_wrap_wf|].
  eexists _, _, _. split; [exact cif_wrap_prep|].
  intros [Hc _].
  destruct (Hc 128 128) as (t & Ht & _ & Hs).
  - right. by left.
  - done.
  - apply reach_refl.
  - vm_compute in Ht. inv_ret Ht.
    destruct (Hs eq_refl) as (l & Hl & Hlen). simpl in Hl. inv_ret Hl.
    vm_compute in Hlen. lia.
Qed.

(** Witness of C2: a return of [struct pair] is indirect. *)
Lemma return_indirect_iff_struct_witness :
  (112 = NULL ∨
   ∃ t, example_store !! 112 = Some t ∧ canonical_return_kind (ty_type t) = true) ∧
  (return_indirect example_store 112 = Ret true ↔
   112 ≠ NULL ∧ kind_at example_store 112 = FFI_TYPE_STRUCT) ∧
  (return_indirect example_store 112 = Ret false ↔
   ¬ (112 ≠ NULL ∧ kind_at example_store 112 = FFI_TYPE_STRUCT)).
Proof.
  assert (Hc : 112 = NULL ∨
               ∃ t, example_store !! 112 = Some t ∧ canonical_return_kind (ty_type t) = true).
  { right. eexists. split; reflexivity. }
  split; [exact Hc|]. exact (return_indirect_iff_struct example_store 112 Hc).
Defined.

Lemma wasix_other_checks_pass st cif : other_checks_pass st cif.
Proof. intros Hem. discriminate Hem. Qed.

(** Witness of C3: [void f(struct wrap)]. *)
Lemma prep_cif_slot_budget_witness :
  wf_cif example_rank example_store cif_wrap ∧
  other_checks_pass example_store cif_wrap ∧
  ∃ fuel0, ∀ fuel, (fuel0 ≤ fuel)%nat →
    ∃ st' cif' s, ffi_prep_cif_machdep fuel example_store cif_wrap = Ret (st', cif', s) ∧
                  (s = FFI_BAD_TYPEDEF ↔ MAX_ARGS < nargs cif_wrap) ∧
                  (¬ MAX_ARGS < nargs cif_wrap → s = FFI_OK).
Proof.
  split; [exact cif_wrap_wf|]. split; [exact (wasix_other_checks_pass _ _)|].
  exact (prep_cif_slot_budget example_rank example_store cif_wrap
           cif_wrap_wf (wasix_other_checks_pass _ _)).
Defined.

(** Witness of C5: the [short] -1 at address 1000, lowered at 2000. *)
Lemma place_take_roundtrip_witness :
  176 ≠ NULL ∧ example_store !! 176 = Some (scalar FFI_TYPE_SINT16 2 2) ∧
  lowerable (ty_type (scalar FFI_TYPE_SINT16 2 2)) = true ∧
  ∃ m' sz,
    place_value example_store 176 1000 example_mem 2000 = Ret (m', 2000 + sz) ∧
    take_value example_store 176 m' 2000 = Ret (2000, 2000 + sz) ∧
    type_size example_store 176 = Ret sz ∧
    load_bytes m' 2000 (c_object_size (ty_type (scalar FFI_TYPE_SINT16 2 2)))
    = load_bytes example_mem 1000 (c_object_size (ty_type (scalar FFI_TYPE_SINT16 2 2))) ∧
    (∀ n, unsigned_width (ty_type (scalar FFI_TYPE_SINT16 2 2)) = Some n →
       load_bytes m' (2000 + N.of_nat n) (4 - n) = replicate (4 - n) Byte.x00 ∧
       load_unsigned m' 2000 4 = load_unsigned example_mem 1000 n) ∧
    (∀ n, signed_width (ty_type (scalar FFI_TYPE_SINT16 2 2)) = Some n →
       load_bytes m' (2000 + N.of_nat n) (4 - n)
       = replicate (4 - n) (sign_fill example_mem 1000 n) ∧
       load_signed m' 2000 4 = load_signed example_mem 1000 n).
Proof.
  assert (Hn : 176 ≠ NULL) by discriminate.
  split; [exact Hn|]. split; [reflexivity|]. split; [reflexivity|].
  exact (place_take_roundtrip example_store 176 (scalar FFI_TYPE_SINT16 2 2)
           1000 example_mem 2000 Hn eq_refl eq_refl).
Defined.

Lemma cif_add_prepared : prepared_cif example_store cif_add.
Proof.
  split; [done|]. split; [by vm_compute|]. split; [done|]. split.
  - intros a Ha. simpl in Ha. solve_elem; eexists; split; reflexivity.
  - right. eexists; split; reflexivity.
Qed.

(** Witness of C7: [int add(int, int)] with its arguments at 1000 and
    1004 and the values buffer at 2000. *)
Lemma ffi_call_values_buffer_witness :
  EMSCRIPTEN = false ∧
  prepared_cif example_store cif_add ∧
  (length (arg_types cif_add) ≤ length [1000; 1004])%nat ∧
  let indirect := bool_decide (rtype cif_add ≠ NULL ∧
                               kind_at example_store (rtype cif_add) = FFI_TYPE_STRUCT) in
  let total := (if indirect then 4 else 0) + args_size example_store (arg_types cif_add) in
  let request := mk_call_dynamic 7 2000 total 3000
                   (if indirect then 0
                    else abi_size (kind_at example_store (rtype cif_add))) in
  ∃ m2,
    ffi_call example_store cif_add 7 3000 [1000; 1004] example_mem 2000
    = (let '(error, m') := wasix_call_dynamic request m2 in
       if decide (error ≠ 0%Z) then Abort else Ret m') ∧
    ffi_call_request example_store cif_add 7 3000 [1000; 1004] example_mem 2000
    = Ret (m2, 2000 + total, request) ∧
    return_indirect example_store (rtype cif_add) = Ret indirect ∧
    (∀ a, a ∈ arg_types cif_add →
          type_size example_store a = Ret (abi_size (kind_at example_store a))) ∧
    (indirect = true → load_unsigned m2 2000 4 = (Z.of_N 3000 `mod` 2 ^ 32)%Z) ∧
    (indirect = false →
     type_size example_store (rtype cif_add)
     = Ret (abi_size (kind_at example_store (rtype cif_add)))).
Proof.
  assert (Hlen : (length (arg_types cif_add) ≤ length [1000; 1004])%nat) by (simpl; lia).
  split; [reflexivity|]. split; [exact cif_add_prepared|]. split; [exact Hlen|].
  exact (ffi_call_values_buffer example_store cif_add 7 3000 [1000; 1004] example_mem 2000
           eq_refl cif_add_prepared Hlen).
Defined.

(** Witness of C8: [ffi_type_longdouble] in return position. *)
Lemma longdouble_result_rewrite_witness :
  64 ≠ NULL ∧ example_store !! 64 = Some (scalar FFI_TYPE_LONGDOUBLE 16 16) ∧
  ty_type (scalar FFI_TYPE_LONGDOUBLE 16 16) = FFI_TYPE_LONGDOUBLE ∧
  example_store !! ffi_type_sint64 = Some (scalar FFI_TYPE_SINT64 8 8) ∧
  ty_type (scalar FFI_TYPE_SINT64 8 8) = FFI_TYPE_SINT64 ∧
  ty_size (scalar FFI_TYPE_SINT64 8 8) = 8 ∧
  let t' := mk_ffi_type 16 16 FFI_TYPE_STRUCT (Some [ffi_type_sint64; ffi_type_sint64]) in
  replace_type 1 example_store 64 true = Ret (<[64 := t']> example_store, FFI_TYPE_STRUCT) ∧
  kind_at (<[64 := t']> example_store) ffi_type_sint64 = FFI_TYPE_SINT64.
Proof.
  assert (Hn : 64 ≠ NULL) by discriminate.
  split; [exact Hn|]. do 5 (split; [reflexivity|]).
  exact (longdouble_result_rewrite 0 example_store 64 _ _ Hn eq_refl eq_refl
           eq_refl eq_refl eq_refl).
Defined.

Lemma struct_one_replace :
  replace_type 2 example_store 160 false = Ret (example_store_one, FFI_TYPE_SINT32).
Proof. vm_compute. reflexivity. Qed.

Lemma struct_one_nonvoid : (length (nonvoid example_store_one [80%N]) ≤ 1)%nat.
Proof. vm_compute. lia. Qed.

(** Witness of C9: [struct one { int }] collapses to SINT32 and keeps its
    size and alignment. *)
Lemma struct_collapse_frame_witness :
  wf_store example_rank example_store ∧
  example_store !! 160 = Some (mk_ffi_type 4 4 FFI_TYPE_STRUCT (Some [80])) ∧
  ty_type (mk_ffi_type 4 4 FFI_TYPE_STRUCT (Some [80])) = FFI_TYPE_STRUCT ∧
  ty_size (mk_ffi_type 4 4 FFI_TYPE_STRUCT (Some [80])) ≠ 0 ∧
  ty_elements (mk_ffi_type 4 4 FFI_TYPE_STRUCT (Some [80])) = Some [80] ∧
  replace_type 2 example_store 160 false = Ret (example_store_one, FFI_TYPE_SINT32) ∧
  (length (nonvoid example_store_one [80%N]) ≤ 1)%nat ∧
  example_store_one !! 160 = Some (mk_ffi_type 4 4 FFI_TYPE_SINT32 (Some [80])) ∧
  (∀ e, nonvoid example_store_one [80] = [e] →
        FFI_TYPE_SINT32 = kind_at example_store_one e) ∧
  (nonvoid example_store_one [80] = [] → FFI_TYPE_SINT32 = FFI_TYPE_VOID).
Proof.
  assert (Hz : ty_size (mk_ffi_type 4 4 FFI_TYPE_STRUCT (Some [80])) ≠ 0) by discriminate.
  split; [exact example_store_wf|]. split; [reflexivity|]. split; [reflexivity|].
  split; [exact Hz|]. split; [reflexivity|]. split; [exact struct_one_replace|].
  split; [exact struct_one_nonvoid|].
  exact (struct_collapse_frame example_rank 2 example_store 160 false _ [80] _ _
           example_store_wf eq_refl eq_refl Hz eq_refl
           struct_one_replace struct_one_nonvoid).
Defined.

(** Witness of C10: [ffi_prep_cif_machdep_var] on [void f(struct wrap)]. *)
Lemma prep_cif_var_wasix_witness :
  EMSCRIPTEN = false ∧
  ∃ cif', ffi_prep_cif_machdep_var cif_wrap 1 3 = (cif', FFI_BAD_ABI) ∧
          flags cif' = N.lor (flags cif_wrap) VARARGS_FLAG ∧
          N.testbit (flags cif') 0 = true ∧
          nfixedargs cif' = 1 ∧
          abi cif' = abi cif_wrap ∧ nargs cif' = nargs cif_wrap ∧
          arg_types cif' = arg_types cif_wrap ∧ rtype cif' = rtype cif_wrap.
Proof.
  split; [reflexivity|]. exact (prep_cif_var_wasix cif_wrap 1 3 eq_refl).
Defined.

(** C4 (the code departs from the claim). In the wasix build
    [ffi_prep_cif_machdep] makes no ABI check: a CIF tagged
    FFI_WASM32_EMSCRIPTEN is prepared and FFI_OK returned, and
    [ffi_prep_closure_loc], which does refuse that tag, accepts a tag that
    is no ABI at all. *)
Theorem wasix_prep_cif_accepts_foreign_abi :
  abi cif_emscripten = FFI_WASM32_EMSCRIPTEN ∧
  ffi_prep_cif_machdep 1 example_store cif_emscripten
  = Ret (example_store, cif_emscripten, FFI_OK) ∧
  abi cif_unknown_abi ≠ FFI_WASM32 ∧ abi cif_unknown_abi ≠ FFI_WASM32_EMSCRIPTEN ∧
  ffi_prep_closure_loc example_store (mk_ffi_closure 0 cif_unknown_abi 0 0)
                       cif_unknown_abi 5 6 9
  = Ret (mk_ffi_closure 9 cif_unknown_abi 5 6, FFI_OK).
Proof.
  split; [reflexivity|]. split; [vm_compute; reflexivity|].
  split; [discriminate|]. split; [discriminate|]. vm_compute. reflexivity.
Qed.

(** C6 (the code departs from the claim). [struct ld1 g(void)]: the first
    [ffi_prep_cif_machdep] collapses the return type to LONGDOUBLE, on
    which [return_indirect] aborts; a second one rewrites the same
    descriptor into a struct of two [ffi_type_sint64]. *)
Theorem prep_cif_twice_differs :
  wf_cif example_rank example_store cif_ld1 ∧
  ∃ st1 st2,
    ffi_prep_cif_machdep 3 example_store cif_ld1 = Ret (st1, cif_ld1, FFI_OK) ∧
    st1 !! 144 = Some (mk_ffi_type 16 16 FFI_TYPE_LONGDOUBLE (Some [64])) ∧
    return_indirect st1 (rtype cif_ld1) = Abort ∧
    ffi_prep_cif_machdep 3 st1 cif_ld1 = Ret (st2, cif_ld1, FFI_OK) ∧
    st2 !! 144 = Some (mk_ffi_type 16 16 FFI_TYPE_STRUCT (Some [48; 48])) ∧
    st2 ≠ st1.
Proof.
  split; [exact cif_ld1_wf|].
  exists (<[144 := mk_ffi_type 16 16 FFI_TYPE_LONGDOUBLE (Some [64])]> example_store),
         (<[144 := mk_ffi_type 16 16 FFI_TYPE_STRUCT (Some [48; 48])]> example_store).
  split; [vm_compute; reflexivity|]. split; [reflexivity|].
  split; [vm_compute; reflexivity|]. split; [vm_compute; reflexivity|].
  split; [reflexivity|].
  intros Heq. apply (f_equal (fun s : store => s !! 144)) in Heq.
  vm_compute in Heq. discriminate Heq.
Qed.

End Examples.

(** * Further properties *)

(** ** Signatures and the closure side of the wasix build *)

Section Signatures.
Context {B : build} {H : host}.

#[local] Arguments store_bytes : simpl never.
#[local] Arguments load_bytes : simpl never.
#[local] Arguments encode_le : simpl never.
#[local] Arguments store_32 : simpl never.

Lemma place_type_passable st a t types :
  st !! a = Some t → passable (ty_type t) = true →
  place_type st a types = Ret (types ++ kind_wasm_types (kind_at st a)).
Proof.
  intros Ht Hp. unfold place_type.
  rewrite (proj2 (deref_Ret _ _ _) Ht), (kind_at_Some _ _ _ Ht). simpl.
  destruct (ty_type t); try discriminate; simpl; try done. by rewrite app_nil_r.
Qed.

Lemma arguments_count_passable st a t :
  st !! a = Some t → passable (ty_type t) = true →
  arguments_count st a = Ret (N.of_nat (length (kind_wasm_types (kind_at st a)))).
Proof.
  intros Ht Hp. unfold arguments_count.
  rewrite (proj2 (deref_Ret _ _ _) Ht), (kind_at_Some _ _ _ Ht). simpl.
  by destruct (ty_type t).
Qed.

Lemma kind_wasm_types_size k :
  passable k = true → wasm_types_size (kind_wasm_types k) = abi_size k.
Proof. by destruct k. Qed.

(** X1. Slot and byte agreement. For a type of a canonical kind,
    [place_type] appends exactly [arguments_count] wasm types, and the
    bytes these occupy in a values buffer add up to [type_size]. *)
Theorem slots_agree_with_bytes st a t types :
  a ≠ NULL → st !! a = Some t → passable (ty_type t) = true →
  ∃ ts, place_type st a types = Ret (types ++ ts) ∧
        arguments_count st a = Ret (N.of_nat (length ts)) ∧
        type_size st a = Ret (wasm_types_size ts).
Proof.
  intros Hn Ht Hp. exists (kind_wasm_types (kind_at st a)).
  split; [by eapply place_type_passable|]. split; [by eapply arguments_count_passable|].
  rewrite (type_size_passable _ _ _ Hn Ht Hp), kind_wasm_types_size; [done|].
  by rewrite (kind_at_Some _ _ _ Ht).
Qed.

Lemma sum_arguments_count_passable st args : ∀ n,
  (∀ a, a ∈ args → ∃ t, st !! a = Some t ∧ passable (ty_type t) = true) →
  sum_arguments_count st args n
  = Ret (n + N.of_nat (length (concat (map (fun a => kind_wasm_types (kind_at st a)) args)))).
Proof.
  induction args as [|a args IH]; intros n Hargs; simpl.
  - by rewrite N.add_0_r.
  - destruct (Hargs a) as (t & Ht & Hp); [by left|].
    rewrite (arguments_count_passable _ _ _ Ht Hp). simpl.
    rewrite IH by (intros; apply Hargs; by right).
    f_equal. rewrite length_app. lia.
Qed.

Lemma place_types_passable st args : ∀ types,
  (∀ a, a ∈ args → ∃ t, st !! a = Some t ∧ passable (ty_type t) = true) →
  place_types st args types
  = Ret (types ++ concat (map (fun a => kind_wasm_types (kind_at st a)) args)).
Proof.
  induction args as [|a args IH]; intros types Hargs; simpl.
  - by rewrite app_nil_r.
  - destruct (Hargs a) as (t & Ht & Hp); [by left|].
    rewrite (place_type_passable _ _ _ _ Ht Hp). simpl.
    rewrite IH by (intros; apply Hargs; by right). by rewrite app_assoc.
Qed.

(** X2. On a prepared CIF with a return type other than NULL, the wasix
    [ffi_prep_closure_loc] hands the host two signature arrays that are
    exactly as long as the counts it passes with them; an indirect return
    is an i32 in front of the arguments and no result, a direct return
    at most one result; the closure records cif, fun, user_data and
    codeloc; and FFI_OK is returned unless the host reports an error, in
    which case the function aborts. *)
Theorem prep_closure_loc_signature st closure cif fun_ user_data' codeloc :
  EMSCRIPTEN = false → abi cif ≠ FFI_WASM32_EMSCRIPTEN →
  prepared_cif st cif → rtype cif ≠ NULL →
  let indirect := bool_decide (kind_at st (rtype cif) = FFI_TYPE_STRUCT) in
  let args := concat (map (fun a => kind_wasm_types (kind_at st a)) (arg_types cif)) in
  let argument_types := (if indirect then [FFI_WASM_TYPE_I32] else []) ++ args in
  let result_types := if indirect then [] else kind_wasm_types (kind_at st (rtype cif)) in
  let closure' := mk_ffi_closure codeloc cif fun_ user_data' in
  let request := mk_closure_prepare codeloc argument_types (N.of_nat (length argument_types))
                   result_types (N.of_nat (length result_types)) closure' in
  (length result_types ≤ 1)%nat ∧
  ffi_prep_closure_loc st closure cif fun_ user_data' codeloc
  = (if decide (wasix_closure_prepare request ≠ 0%Z) then Abort
     else Ret (closure', FFI_OK)).
Proof.
  intros Hem Habi (Hnull & Hmax & Hlen & Hargs & Hrt) Hrn.
  destruct Hrt as [?|(t & Ht & Hk)]; [done|].
  intros indirect args argument_types result_types closure' request.
  assert (Hri : return_indirect st (rtype cif) = Ret indirect).
  { rewrite return_indirect_canonical by eauto. f_equal. unfold indirect.
    apply bool_decide_ext. tauto. }
  assert (Hp : passable (ty_type t) = true) by (by destruct (ty_type t)).
  split.
  { unfold result_types. destruct indirect; [simpl; lia|].
    rewrite (kind_at_Some _ _ _ Ht). by destruct (ty_type t); simpl; try lia. }
  unfold ffi_prep_closure_loc. rewrite Hem. rewrite decide_False by done.
  rewrite Hri. simpl. rewrite (arguments_count_passable _ _ _ Ht Hp). simpl.
  unfold cif_args. rewrite decide_True by lia. rewrite <- Hlen, Nat2N.id, firstn_all.
  simpl. rewrite (place_type_passable _ _ _ _ Ht Hp). simpl.
  assert (Hst : indirect = true → kind_wasm_types (kind_at st (rtype cif)) = [FFI_WASM_TYPE_I32]).
  { unfold indirect. intros Hi. apply bool_decide_eq_true in Hi. by rewrite Hi. }
  destruct indirect eqn:Hind.
  - rewrite (Hst eq_refl). simpl.
    rewrite sum_arguments_count_passable by done. simpl.
    rewrite place_types_passable by done. simpl.
    unfold impl_closure_prepare. subst request argument_types result_types args closure'.
    simpl. replace (1 + N.of_nat _) with (N.of_nat (S (length (concat (map (fun a => kind_wasm_types (kind_at st a)) (arg_types cif)))))) by lia.
    by destruct (decide _).
  - simpl. rewrite sum_arguments_count_passable by done. simpl.
    rewrite place_types_passable by done. simpl.
    unfold impl_closure_prepare. subst request argument_types result_types args closure'.
    simpl. by destruct (decide _).
Qed.

(** X3. A return type whose kind is LONGDOUBLE, COMPLEX or unknown makes
    the wasix [ffi_call] abort before anything is passed to the host, and
    [ffi_prep_closure_loc] abort before the closure is written. *)
Theorem non_canonical_return_aborts st cif t fn rvalue avalue m values
    closure fun_ user_data' codeloc :
  EMSCRIPTEN = false → abi cif ≠ FFI_WASM32_EMSCRIPTEN →
  rtype cif ≠ NULL → st !! rtype cif = Some t →
  canonical_return_kind (ty_type t) = false →
  ffi_call st cif fn rvalue avalue m values = Abort ∧
  ffi_prep_closure_loc st closure cif fun_ user_data' codeloc = Abort.
Proof.
  intros Hem Habi Hn Ht Hk.
  assert (Hri : return_indirect st (rtype cif) = Abort).
  { unfold return_indirect. rewrite decide_False by done.
    rewrite (proj2 (deref_Ret _ _ _) Ht). simpl. by destruct (ty_type t). }
  split.
  - unfold ffi_call, ffi_call_request. rewrite Hem, Hri. done.
  - unfold ffi_prep_closure_loc. rewrite Hem, decide_False by done. by rewrite Hri.
Qed.

(** X4. [ffi_call] accepts a NULL return type as void, but
    [ffi_prep_closure_loc] reads [type->type] through it. *)
Theorem prep_closure_loc_null_return st closure cif fun_ user_data' codeloc :
  EMSCRIPTEN = false → abi cif ≠ FFI_WASM32_EMSCRIPTEN →
  st !! NULL = None → rtype cif = NULL →
  return_indirect st (rtype cif) = Ret false ∧
  type_size st (rtype cif) = Ret 0 ∧
  ffi_prep_closure_loc st closure cif fun_ user_data' codeloc = Stuck.
Proof.
  intros Hem Habi Hnull Hr. rewrite Hr. split; [done|]. split; [done|].
  unfold ffi_prep_closure_loc. rewrite Hem, decide_False by done.
  rewrite Hr. simpl. unfold arguments_count, deref. by rewrite Hnull.
Qed.

End Signatures.

Section RoundTrip.
Context {B : build} {H : host}.

Lemma store_bytes_above bs : ∀ m p a,
  p + N.of_nat (length bs) ≤ a → store_bytes m p bs a = m a.
Proof.
  induction bs as [|b bs IH]; intros m p a Ha; cbn [store_bytes]; [done|].
  cbn [length] in Ha. rewrite Nat2N.inj_succ in Ha.
  rewrite IH by lia. rewrite decide_False by lia. done.
Qed.

#[local] Arguments store_bytes : simpl never.
#[local] Arguments load_bytes : simpl never.
#[local] Arguments encode_le : simpl never.
#[local] Arguments store_32 : simpl never.

Lemma store_bytes_frame bs m p a :
  a < p ∨ p + N.of_nat (length bs) ≤ a → store_bytes m p bs a = m a.
Proof. intros [?|?]; [by apply store_bytes_below | by apply store_bytes_above]. Qed.

Lemma store_32_frame m p z a : a < p ∨ p + 4 ≤ a → store_32 m p z a = m a.
Proof.
  intros Ha. unfold store_32. apply store_bytes_frame.
  rewrite length_encode_le. simpl. lia.
Qed.

Lemma load_bytes_frame (m m' : mem) p n :
  (∀ a, p ≤ a < p + N.of_nat n → m' a = m a) → load_bytes m' p n = load_bytes m p n.
Proof.
  intros Hm. unfold load_bytes. apply map_ext_in. intros i Hi.
  apply in_seq in Hi. apply Hm. lia.
Qed.

Lemma c_object_size_abi k : N.of_nat (c_object_size k) ≤ abi_size k.
Proof. destruct k; simpl; lia. Qed.

(** One [place_value]: the cursor advances by the wasm-ABI size, only
    those bytes change, and [take_value] at the same cursor in any memory
    that agrees on them hands out the value. *)
Lemma place_take_value st a t v m cur :
  st !! a = Some t → passable (ty_type t) = true →
  ∃ m' p, place_value st a v m cur = Ret (m', cur + abi_size (kind_at st a)) ∧
    (∀ x, x < cur ∨ cur + abi_size (kind_at st a) ≤ x → m' x = m x) ∧
    ∀ m2, (∀ x, cur ≤ x < cur + abi_size (kind_at st a) → m2 x = m' x) →
      take_value st a m2 cur = Ret (p, cur + abi_size (kind_at st a)) ∧
      delivered m m2 (kind_at st a) v p.
Proof.
  intros Ht Hp. unfold place_value, take_value.
  rewrite (proj2 (deref_Ret _ _ _) Ht), (kind_at_Some _ _ _ Ht). simpl.
  assert (Hsz := c_object_size_abi (ty_type t)).
  assert (Hread : ∀ m' m2 : mem,
    (∀ x, cur ≤ x < cur + abi_size (ty_type t) → m2 x = m' x) →
    load_bytes m2 cur (c_object_size (ty_type t))
    = load_bytes m' cur (c_object_size (ty_type t))).
  { intros m' m2 Hm2. apply load_bytes_frame. intros x Hx. apply Hm2. lia. }
  unfold delivered.
  destruct (ty_type t) eqn:Hk; try discriminate; simpl in *;
    [exists m, cur; rewrite N.add_0_r; split; [done|]; split; [done|];
       intros m2 _; split; done |..].
  all: try (eexists _, cur; (split; [reflexivity|]);
    (split; [intros x Hx; first [apply store_32_frame; lia
                                | apply store_bytes_frame;
                                  rewrite ?length_encode_le, ?length_load_bytes; simpl; lia]|]);
    intros m2 Hm2; (split; [reflexivity|]); rewrite (Hread _ _ Hm2)).
  all: try (by apply store_32_unsigned; lia).
  all: try (by apply store_32_signed; lia).
  all: try apply store_copy.
  - change (2 ^ 64)%Z with (2 ^ (8 * Z.of_nat 8))%Z.
    by apply (store_wide_roundtrip _ _ _ _ _ _ 0%Z); [done|lia].
  - change (2 ^ 64)%Z with (2 ^ (8 * Z.of_nat 8))%Z.
    destruct (load_signed_unsigned m v 8) as [k Hk'].
    by apply (store_wide_roundtrip _ _ _ _ _ _ k).
  - exists (store_32 m cur (Z.of_N v)), (v `mod` SIZE_MAX1).
    split; [reflexivity|]. split; [intros x Hx; apply store_32_frame; lia|].
    intros m2 Hm2. split; [|done]. do 2 f_equal.
    unfold load_unsigned. rewrite (load_bytes_frame (store_32 m cur (Z.of_N v)) m2 cur 4 Hm2).
    fold (load_unsigned (store_32 m cur (Z.of_N v)) cur 4).
    rewrite load_store_32. change (2 ^ 32)%Z with (Z.of_N SIZE_MAX1).
    rewrite <- N2Z.inj_mod. by rewrite N2Z.id.
Qed.

Lemma delivered_frame m m1 m2 k v p :
  (∀ x, v ≤ x < v + N.of_nat (c_object_size k) → m1 x = m x) →
  delivered m1 m2 k v p → delivered m m2 k v p.
Proof.
  unfold delivered. intros Hm. destruct (decide _); [done|].
  intros ->. by apply load_bytes_frame.
Qed.

Lemma delivered_after m m2 m3 k v p :
  (∀ x, p ≤ x < p + N.of_nat (c_object_size k) → m3 x = m2 x) →
  delivered m m2 k v p → delivered m m3 k v p.
Proof.
  unfold delivered. intros Hm. destruct (decide _); [done|].
  intros <-. by apply load_bytes_frame.
Qed.

(** The loops of [ffi_call] and [closure_backing_function] over the
    same argument types and the same buffer. *)
Lemma place_take_values st args : ∀ avalue m cur,
  (∀ a, a ∈ args → ∃ t, st !! a = Some t ∧ passable (ty_type t) = true) →
  length avalue = length args →
  (∀ i a v, args !! i = Some a → avalue !! i = Some v →
            outside (kind_at st a) v cur (args_size st args)) →
  ∃ m2 ps,
    place_values st args avalue m cur = Ret (m2, cur + args_size st args) ∧
    (∀ x, x < cur ∨ cur + args_size st args ≤ x → m2 x = m x) ∧
    ∀ m3, (∀ x, cur ≤ x < cur + args_size st args → m3 x = m2 x) →
      take_values st args m3 cur = Ret (ps, cur + args_size st args) ∧
      length ps = length args ∧
      ∀ i a v p, args !! i = Some a → avalue !! i = Some v → ps !! i = Some p →
                 delivered m m3 (kind_at st a) v p.
Proof.
  induction args as [|a args IH]; intros avalue m cur Hargs Hlen Hout.
  - exists m, []. simpl. rewrite N.add_0_r. split; [done|]. split; [done|].
    intros m3 _. split; [done|]. split; [done|]. intros i ????; by destruct i.
  - destruct avalue as [|v avalue]; [done|].
    destruct (Hargs a) as (t & Ht & Hp); [by left|].
    destruct (place_take_value st a t v m cur Ht Hp) as (m' & p & Hpl & Hfr & Htk).
    set (sz := abi_size (kind_at st a)) in *.
    assert (Hsum : args_size st (a :: args) = sz + args_size st args) by done.
    destruct (IH avalue m' (cur + sz)) as (m2 & ps & Hpls & Hfr2 & Htks).
    { intros; apply Hargs. by right. }
    { simpl in Hlen. lia. }
    { intros i a' v' Ha' Hv'. specialize (Hout (S i) a' v' Ha' Hv').
      unfold outside in *. rewrite Hsum in Hout. lia. }
    rewrite Hsum, N.add_assoc. cbn [place_values]. rewrite Hpl.
    cbn [mbind outcome_bind]. rewrite Hpls.
    exists m2, (p :: ps). split; [done|]. split.
    { intros x Hx. rewrite Hfr2 by lia. apply Hfr. lia. }
    intros m3 Hm3.
    destruct (Htk m3) as (Htk3 & Hd3).
    { intros x Hx. rewrite Hm3 by lia. apply Hfr2. lia. }
    destruct (Htks m3) as (Htk' & Hlps & Hds).
    { intros x Hx. apply Hm3. lia. }
    cbn [take_values]. rewrite Htk3. cbn [mbind outcome_bind]. rewrite Htk'.
    split; [done|]. split; [by cbn [length]; rewrite Hlps|].
    intros [|i] a' v' p' Ha' Hv' Hp'; simpl in *.
    + by simplify_eq.
    + apply (delivered_frame _ m'); [|by eapply Hds].
      intros x Hx. apply Hfr. specialize (Hout (S i) a' v' Ha' Hv').
      unfold outside in Hout. rewrite Hsum in Hout. lia.
Qed.

(** X5. A call made by [ffi_call] on a prepared CIF and received by
    [closure_backing_function] for a closure of the same CIF: when the
    argument objects lie outside the values buffer, the handler is called
    with one pointer per argument, a struct's own address and for any
    other kind a pointer to a copy of the caller's bytes, and with the
    caller's [rvalue] as its result pointer when the return is indirect
    and the host's result buffer otherwise. *)
Theorem closure_receives_call_values st cif fn rvalue avalue m values closure wasm_results :
  prepared_cif st cif → length avalue = length (arg_types cif) →
  cl_cif closure = cif →
  let indirect := bool_decide (rtype cif ≠ NULL ∧ kind_at st (rtype cif) = FFI_TYPE_STRUCT) in
  let total := (if indirect then 4 else 0) + args_size st (arg_types cif) in
  (∀ i a v, arg_types cif !! i = Some a → avalue !! i = Some v →
            outside (kind_at st a) v values total) →
  ∃ m2 cur c ps,
    ffi_call_request st cif fn rvalue avalue m values = Ret (m2, cur, c) ∧
    closure_backing_function st (cd_values c) wasm_results closure m2
    = Ret (mk_handler_call (cl_fun closure) cif
             (if indirect then rvalue `mod` SIZE_MAX1 else wasm_results)
             ps (user_data closure)) ∧
    length ps = length avalue ∧
    ∀ i a v p, arg_types cif !! i = Some a → avalue !! i = Some v → ps !! i = Some p →
               delivered m m2 (kind_at st a) v p.
Proof.
  intros (Hnull & Hmax & Hlen & Hargs & Hrt) Hav Hcl indirect total Hout.
  assert (Hargs' : ∀ a, a ∈ arg_types cif →
            a ≠ NULL ∧ ∃ t, st !! a = Some t ∧ passable (ty_type t) = true).
  { intros a Ha. destruct (Hargs a Ha) as (t & Ht & Hp). split; [|eauto].
    intros ->. congruence. }
  assert (Hri : return_indirect st (rtype cif) = Ret indirect)
    by (by apply return_indirect_canonical).
  assert (Hrs : indirect = false →
            type_size st (rtype cif) = Ret (abi_size (kind_at st (rtype cif)))).
  { intros Hi. destruct Hrt as [Hr|(t & Ht & Hk)].
    - rewrite Hr. unfold type_size, kind_at. rewrite decide_True by done.
      by rewrite Hnull.
    - apply (type_size_passable _ _ t); [intros Hr; rewrite Hr in Ht; congruence|done|].
      by destruct (ty_type t). }
  assert (Hbound : 4 + 16 * N.of_nat (length (arg_types cif)) < SIZE_MAX1).
  { rewrite Hlen. unfold MAX_ARGS in Hmax. unfold SIZE_MAX1. simpl. lia. }
  unfold ffi_call_request, closure_backing_function. rewrite Hcl, Hri.
  cbn [mbind outcome_bind].
  unfold cif_args. rewrite decide_True by lia.
  rewrite <- Hlen, Nat2N.id, firstn_all.
  destruct indirect eqn:Hind.
  - apply bool_decide_eq_true in Hind as [Hr Hk].
    destruct (kind_at_is_Some st (rtype cif)) as [t Ht]; [congruence|].
    assert (Hkt : ty_type t = FFI_TYPE_STRUCT) by (by rewrite <- (kind_at_Some _ _ _ Ht)).
    assert (Hst : type_size st (rtype cif) = Ret 4).
    { rewrite (type_size_passable _ _ t Hr Ht), Hk; [done|]. by rewrite Hkt. }
    rewrite Hst. cbn [mbind outcome_bind].
    rewrite N.mod_small by (unfold SIZE_MAX1; simpl; lia).
    rewrite sum_type_sizes_passable by (done || lia). cbn [mbind outcome_bind].
    destruct (place_take_values st (arg_types cif) avalue
                (store_32 m values (Z.of_N rvalue)) (values + 4) Hargs Hav)
      as (m2 & ps & Hpl & Hfr & Htk).
    { intros i a v Ha Hv. specialize (Hout i a v Ha Hv). unfold outside in *.
      subst total. lia. }
    rewrite Hpl. cbn [mbind outcome_bind].
    destruct (Htk m2 (fun _ _ => eq_refl)) as (Htk2 & Hlps & Hd).
    eexists m2, _, _, ps. split; [reflexivity|]. cbn [cd_values].
    unfold take_value at 1. rewrite (proj2 (deref_Ret _ _ _) Ht).
    cbn [mbind outcome_bind]. rewrite Hkt. cbn [mbind outcome_bind]. rewrite Htk2. cbn [mbind outcome_bind].
    split; [|split; [congruence|]].
    + do 2 f_equal. unfold load_unsigned.
      rewrite (load_bytes_frame (store_32 m values (Z.of_N rvalue)) m2 values 4)
        by (intros x Hx; apply Hfr; lia).
      fold (load_unsigned (store_32 m values (Z.of_N rvalue)) values 4).
      rewrite load_store_32. change (2 ^ 32)%Z with (Z.of_N SIZE_MAX1).
      rewrite <- N2Z.inj_mod. by rewrite N2Z.id.
    + intros i a v p Ha Hv Hp.
      apply (delivered_frame _ (store_32 m values (Z.of_N rvalue))); [|by eapply Hd].
      intros x Hx. apply store_32_frame. specialize (Hout i a v Ha Hv).
      unfold outside in Hout. subst total. lia.
  - rewrite (Hrs eq_refl). cbn [mbind outcome_bind].
    rewrite sum_type_sizes_passable by (done || lia). cbn [mbind outcome_bind].
    destruct (place_take_values st (arg_types cif) avalue m values Hargs Hav)
      as (m2 & ps & Hpl & Hfr & Htk).
    { intros i a v Ha Hv. specialize (Hout i a v Ha Hv). unfold outside in *.
      subst total. lia. }
    rewrite Hpl. cbn [mbind outcome_bind].
    destruct (Htk m2 (fun _ _ => eq_refl)) as (Htk2 & Hlps & Hd).
    eexists m2, _, _, ps. split; [reflexivity|]. cbn [cd_values].
    rewrite Htk2. cbn [mbind outcome_bind].
    split; [done|]. split; [congruence|]. done.
Qed.

End RoundTrip.

Section Rewrites.
Context {B : build}.

Lemma node_rewrite_refl ld t : node_rewrite ld t t.
Proof.
  unfold node_rewrite. destruct (ty_type t) eqn:Hk; try done; try (by left).
  exists FFI_TYPE_STRUCT. split; [done|]. by rewrite <- Hk, set_type_same.
Qed.

Lemma node_rewrite_mono ld t t' : node_rewrite false t t' → node_rewrite ld t t'.
Proof.
  unfold node_rewrite. destruct (ty_type t); try done.
  intros [?|(? & _)]; [by left|done].
Qed.

Lemma set_type_set_type t k k' : set_type (set_type t k) k' = set_type t k'.
Proof. done. Qed.

Lemma node_rewrite_fixed t t' :
  ty_type t ≠ FFI_TYPE_STRUCT → ty_type t ≠ FFI_TYPE_COMPLEX →
  node_rewrite false t t' → t' = t.
Proof.
  unfold node_rewrite. intros Hs Hc. destruct (ty_type t); try done.
  intros [?|(? & _)]; done.
Qed.

Lemma node_rewrite_struct t t' :
  ty_type t = FFI_TYPE_STRUCT → node_rewrite false t t' →
  ∃ k, k ≠ FFI_TYPE_COMPLEX ∧ t' = set_type t k.
Proof. unfold node_rewrite. by intros ->. Qed.

Lemma node_rewrite_trans t t1 t2 :
  node_rewrite false t t1 → node_rewrite false t1 t2 → node_rewrite false t t2.
Proof.
  intros H1 H2.
  assert (Hnext : ty_type t1 ≠ FFI_TYPE_COMPLEX →
            t2 = t1 ∨ ∃ k, k ≠ FFI_TYPE_COMPLEX ∧ t2 = set_type t1 k).
  { intros Hc. destruct (decide (ty_type t1 = FFI_TYPE_STRUCT)) as [Hs|Hs].
    - right. by apply node_rewrite_struct.
    - left. by apply node_rewrite_fixed. }
  unfold node_rewrite in H1 |- *.
  destruct (ty_type t) eqn:Hk; try (subst t1; unfold node_rewrite in H2;
    rewrite Hk in H2; done).
  - destruct H1 as [->|(? & _)]; [|done].
    unfold node_rewrite in H2. by rewrite Hk in H2.
  - destruct H1 as (k & Hkc & ->).
    destruct Hnext as [->|(k2 & Hk2 & ->)]; [done|by exists k|by exists k2].
  - destruct H1 as [->|(Hc1 & c & Hc & He)].
    { unfold node_rewrite in H2. by rewrite Hk in H2. }
    right. destruct (Hnext Hc1) as [->|(k2 & Hk2 & ->)]; [by eauto|].
    split; [done|]. exists c. by split.
Qed.

Lemma store_rewrite_refl b p st : store_rewrite b p st st.
Proof.
  intros q. destruct (st !! q) as [t|] eqn:Hq; [|done].
  exists t. split; [done|apply node_rewrite_refl].
Qed.

Lemma store_rewrite_trans p1 p2 p3 st st1 st2 :
  store_rewrite false p1 st st1 → store_rewrite false p2 st1 st2 →
  store_rewrite false p3 st st2.
Proof.
  intros H1 H2 q. specialize (H1 q). specialize (H2 q).
  destruct (st !! q) as [t|].
  - destruct H1 as (t1 & Hq1 & Hr1). rewrite Hq1 in H2.
    destruct H2 as (t2 & Hq2 & Hr2). exists t2. split; [done|].
    simpl in *. by eapply node_rewrite_trans.
  - by rewrite H1 in H2.
Qed.

Lemma store_rewrite_mono b p p' st st' :
  store_rewrite false p' st st' → store_rewrite b p st st'.
Proof.
  intros H1 q. specialize (H1 q). destruct (st !! q) as [t|]; [|done].
  destruct H1 as (t' & Hq & Hr). exists t'. split; [done|].
  by apply node_rewrite_mono.
Qed.

(** Overwriting the descriptor at [p] as [node_rewrite] allows. *)
Lemma store_rewrite_insert b p st t t' :
  st !! p = Some t → node_rewrite b t t' → store_rewrite b p st (<[p := t']> st).
Proof.
  intros Hp Hr q. destruct (decide (q = p)) as [->|Hq].
  - rewrite Hp, lookup_insert_eq. exists t'. split; [done|].
    rewrite bool_decide_eq_true_2 by done. by rewrite andb_true_r.
  - rewrite lookup_insert_ne by done. destruct (st !! q) as [tq|]; [|done].
    exists tq. split; [done|apply node_rewrite_refl].
Qed.

(** Overwriting it after other rewrites. *)
Lemma store_rewrite_insert_after p' p st st1 t t' :
  store_rewrite false p' st st1 → st !! p = Some t → node_rewrite false t t' →
  store_rewrite false p st (<[p := t']> st1).
Proof.
  intros H1 Hp Hr q. specialize (H1 q). destruct (decide (q = p)) as [->|Hq].
  - rewrite Hp, lookup_insert_eq. by exists t'.
  - by rewrite lookup_insert_ne.
Qed.

Lemma replace_elements_rewrite fuel
  (IH : ∀ st p st' k, replace_type fuel st p false = Ret (st', k) →
        store_rewrite false p st st' ∧ k ≠ FFI_TYPE_COMPLEX) :
  ∀ l st s n st1 s1 n1,
    replace_elements (fun s e => replace_type fuel s e false) l st s n = Ret (st1, s1, n1) →
    store_rewrite false NULL st st1 ∧ (s1 = s ∨ s1 ≠ FFI_TYPE_COMPLEX).
Proof.
  induction l as [|e l IHl]; intros st s n st1 s1 n1 E; simpl in E.
  - inv_ret E. split; [apply store_rewrite_refl | by left].
  - inv_bind E. destruct a as [st' k].
    destruct (IH _ _ _ _ E0) as (Hr & Hk).
    destruct (is_void k) eqn:Hv; destruct (IHl _ _ _ _ _ _ E) as (Hr1 & Hs1).
    + split; [by eapply store_rewrite_trans | done].
    + split; [by eapply store_rewrite_trans |]. right. by destruct Hs1 as [->|?].
Qed.

Lemma replace_type_rewrite fuel :
  ∀ st p b st' k, replace_type fuel st p b = Ret (st', k) →
    store_rewrite b p st st' ∧ k ≠ FFI_TYPE_COMPLEX ∧ (p ≠ NULL → kind_at st' p = k).
Proof.
  induction fuel as [|fuel IH]; intros st p b st' k E; [discriminate|].
  simpl in E. destruct (decide (p = NULL)) as [->|HpN].
  { inv_ret E. split; [apply store_rewrite_refl | done]. }
  inv_bind E. apply deref_Ret in E0. rename a into t.
  destruct (ty_type t) eqn:Hk;
    try (inv_ret E; split; [apply store_rewrite_refl|]; split; [done|];
         intros _; by rewrite (kind_at_Some _ _ _ E0)).
  - (* long double *)
    destruct b.
    + inv_bind E. inv_ret E. split; [|split; [done|by rewrite kind_at_insert_eq]].
      eapply store_rewrite_insert; [done|]. unfold node_rewrite. rewrite Hk. by right.
    + inv_ret E. split; [apply store_rewrite_refl|]. split; [done|].
      intros _. by rewrite (kind_at_Some _ _ _ E0).
  - (* struct *)
    destruct (decide (ty_size t = 0)) as [Hz|Hz].
    { inv_ret E. split; [|split; [done|by rewrite kind_at_insert_eq]].
      apply store_rewrite_mono with (p' := p).
      eapply store_rewrite_insert; [done|]. unfold node_rewrite. rewrite Hk.
      by exists FFI_TYPE_VOID. }
    inv_bind E. rename a into els. inv_bind E. destruct a as [[st1 s1] n1].
    destruct (replace_elements_rewrite fuel (fun st p st' k E => 
                 let H := IH st p false st' k E in conj (proj1 H) (proj1 (proj2 H)))
                _ _ _ _ _ _ _ E2) as (Hr1 & Hs1).
    inv_bind E. apply deref_Ret in E3. rename a into t1.
    assert (Ht1 : ∃ k1, k1 ≠ FFI_TYPE_COMPLEX ∧ t1 = set_type t k1).
    { specialize (Hr1 p). rewrite E0 in Hr1. destruct Hr1 as (t' & Ht' & Hr1).
      assert (t' = t1) as -> by congruence. by apply node_rewrite_struct. }
    destruct Ht1 as (k1 & Hk1 & ->).
    assert (Hs1' : s1 ≠ FFI_TYPE_COMPLEX) by (by destruct Hs1 as [->|?]).
    destruct (decide (1 < n1)).
    { inv_ret E. split; [by apply store_rewrite_mono with (p' := NULL)|].
      split; [done|]. intros _. by rewrite (kind_at_Some _ _ _ E3). }
    injection E as <- <-. split; [|split; [done|by rewrite kind_at_insert_eq]].
    apply store_rewrite_mono with (p' := p).
    eapply store_rewrite_insert_after; [exact Hr1|exact E0|].
    unfold node_rewrite. rewrite Hk. by exists s1.
  - (* complex *)
    inv_bind E. rename a into els. inv_bind E. rename a into ce.
    inv_bind E. rename a into new. inv_bind E. inv_bind E. inv_ret E.
    split; [|split; [done|by rewrite kind_at_insert_eq]].
    apply store_rewrite_mono with (p' := p).
    eapply store_rewrite_insert; [done|]. unfold node_rewrite. rewrite Hk.
    right. split; [done|]. simpl.
    destruct (ty_type ce); try discriminate; inv_ret E3;
      eexists; (split; [|reflexivity]); repeat constructor.
Qed.

(** X6. Whatever the memory, a call of [replace_type] that returns has
    added and removed no descriptor and has rewritten descriptors only as
    follows: a STRUCT in its kind field alone; a COMPLEX into a type that
    is not COMPLEX, with two copies of a library floating-point descriptor
    as elements; a LONGDOUBLE only when it is the root of a call in return
    position; any other descriptor not at all. The kind it returns is not
    COMPLEX and is the kind it leaves at the root. *)
Theorem replace_type_frame fuel st p b st' k :
  replace_type fuel st p b = Ret (st', k) →
  (∀ q, st !! q = None → st' !! q = None) ∧
  (∀ q t, st !! q = Some t →
     ∃ t', st' !! q = Some t' ∧ node_rewrite (b && bool_decide (q = p)) t t') ∧
  (∀ q t, st !! q = Some t → ty_type t ≠ FFI_TYPE_STRUCT →
     ty_type t ≠ FFI_TYPE_COMPLEX →
     ty_type t ≠ FFI_TYPE_LONGDOUBLE ∨ b = false ∨ q ≠ p → st' !! q = Some t) ∧
  (∀ q t, st !! q = Some t → ty_type t = FFI_TYPE_STRUCT →
     ∃ k', st' !! q = Some (mk_ffi_type (ty_size t) (ty_alignment t) k' (ty_elements t))) ∧
  k ≠ FFI_TYPE_COMPLEX ∧ (p ≠ NULL → kind_at st' p = k).
Proof.
  intros E. destruct (replace_type_rewrite _ _ _ _ _ _ E) as (Hr & Hk & Hp).
  split; [|split; [|split; [|split; [|done]]]].
  - intros q Hq. specialize (Hr q). by rewrite Hq in Hr.
  - intros q t Hq. specialize (Hr q). by rewrite Hq in Hr.
  - intros q t Hq Hs Hc Hld. specialize (Hr q). rewrite Hq in Hr.
    destruct Hr as (t' & Hq' & Hr). rewrite Hq'. f_equal.
    unfold node_rewrite in Hr. destruct (ty_type t) eqn:Hkt; try done.
    destruct Hr as [?|(Hb & _)]; [done|].
    apply andb_true_iff in Hb as [-> Hb]. apply bool_decide_eq_true in Hb.
    destruct Hld as [?|[?|?]]; done.
  - intros q t Hq Hs. specialize (Hr q). rewrite Hq in Hr.
    destruct Hr as (t' & Hq' & Hr). unfold node_rewrite in Hr. rewrite Hs in Hr.
    destruct Hr as (k' & _ & ->). by exists k'.
Qed.

End Rewrites.

Section Idempotence.
Context {B : build} {H : host} (rk : ptr → nat).

Lemma ranked_struct_ranked st : ranked rk st → struct_ranked rk st.
Proof.
  intros (_ & _ & _ & _ & _ & Hall) q t l e Hq Hk Hl He.
  specialize (Hall q t Hq). unfold node_ranked in Hall. rewrite Hk in Hall.
  destruct Hall as (l' & Hl' & Hall). assert (l' = l) as -> by congruence.
  by apply Hall.
Qed.

(** The structs [replace_type] leaves have elements of lower rank. *)
Lemma struct_ranked_rewrite st p b st' :
  ranked rk st → store_rewrite b p st st' → struct_ranked rk st'.
Proof.
  intros Hr Hrw q t' l e Hq' Hk' Hl' He.
  destruct Hr as (_ & _ & _ & _ & _ & Hall).
  specialize (Hrw q). destruct (st !! q) as [t|] eqn:Hq; [|congruence].
  destruct Hrw as (t'' & Hq'' & Hn). assert (t'' = t') as -> by congruence.
  specialize (Hall q t Hq). unfold node_ranked in Hall. unfold node_rewrite in Hn.
  destruct (ty_type t) eqn:Hk; try (subst t'; congruence).
  - destruct Hn as [->|(_ & _ & _ & Hel)]; [congruence|].
    rewrite Hel in Hl'. inv_ret Hl'.
    apply elem_of_cons in He as [->|He]; [done|].
    apply elem_of_cons in He as [->|He]; [done|]. by apply elem_of_nil in He.
  - destruct Hn as (k & _ & ->). destruct Hall as (l0 & Hl0 & Hall).
    simpl in Hl'. assert (l0 = l) as -> by congruence. by apply Hall.
  - destruct Hall as (c & l0 & ce & _ & _ & _ & _ & _ & _ & Hf & Hd & Hld).
    destruct Hn as [->|(_ & c' & Hc' & Hel)]; [congruence|].
    rewrite Hel in Hl'. inv_ret Hl'.
    assert (e = c') as ->.
    { apply elem_of_cons in He as [->|He]; [done|].
      apply elem_of_cons in He as [->|He]; [done|]. by apply elem_of_nil in He. }
    apply elem_of_cons in Hc' as [->|Hc']; [done|].
    apply elem_of_cons in Hc' as [->|Hc']; [done|].
    apply elem_of_cons in Hc' as [->|Hc']; [done|]. by apply elem_of_nil in Hc'.
Qed.

Lemma replace_elements_canon_total fuel
  (IH : ∀ st p, st !! NULL = None → struct_ranked rk st → canon st p →
        (rk p < fuel)%nat → replace_type fuel st p false = Ret (st, kind_at st p)) :
  ∀ l st s n,
    st !! NULL = None → struct_ranked rk st →
    (∀ e, e ∈ l → canon st e ∧ (rk e < fuel)%nat) →
    replace_elements (fun s e => replace_type fuel s e false) l st s n
    = Ret (st, last_kind st l s, n + N.of_nat (length (nonvoid st l))).
Proof.
  induction l as [|e l IHl]; intros st s n Hn Hsr Hl; simpl.
  - by rewrite N.add_0_r.
  - destruct (Hl e) as [Hc Hf]; [by left|].
    rewrite (IH _ _ Hn Hsr Hc Hf). simpl.
    assert (Hl' : ∀ e0, e0 ∈ l → canon st e0 ∧ (rk e0 < fuel)%nat)
      by (intros; apply Hl; by right).
    destruct (is_void (kind_at st e)) eqn:Hv.
    + apply is_void_true in Hv. rewrite (IHl _ _ _ Hn Hsr Hl').
      by rewrite nonvoid_cons_void, last_kind_cons_void.
    + apply is_void_false in Hv. rewrite (IHl _ _ _ Hn Hsr Hl').
      rewrite nonvoid_cons_nonvoid, last_kind_cons_nonvoid by done.
      do 2 f_equal. simpl length. lia.
Qed.

(** On a canonical descriptor [replace_type] returns and changes
    nothing, unless it is a long double in return position. *)
Lemma replace_type_canon_total fuel :
  ∀ st p b, st !! NULL = None → struct_ranked rk st → canon st p →
    (b = true → kind_at st p ≠ FFI_TYPE_LONGDOUBLE) → (rk p < fuel)%nat →
    replace_type fuel st p b = Ret (st, kind_at st p).
Proof.
  induction fuel as [|fuel IH]; intros st p b Hn Hsr Hc Hb Hf; [lia|].
  destruct (canon_node _ _ Hc) as (t & Ht & Hnc & Hs).
  simpl. rewrite decide_False by (intros ->; congruence).
  rewrite (proj2 (deref_Ret _ _ _) Ht). simpl.
  rewrite (kind_at_Some _ _ _ Ht) in Hb |- *.
  destruct (ty_type t) eqn:Hk; try done.
  - destruct b; [by destruct Hb|done].
  - destruct (Hs eq_refl) as (Hz & l & Hl & Hsh).
    rewrite decide_False by done. rewrite Hl. simpl.
    rewrite (replace_elements_canon_total fuel); try done.
    + simpl. rewrite (proj2 (deref_Ret _ _ _) Ht). simpl.
      destruct (decide (1 < 0 + N.of_nat (length (nonvoid st l)))); [by rewrite Hk|].
      destruct Hsh as [H2|(e & He & Hke)]; [lia|].
      rewrite (last_kind_singleton _ _ _ _ He), Hke.
      rewrite <- Hk, set_type_same, insert_id by done. done.
    + intros st0 p0 Hn0 Hsr0 Hc0 Hf0. apply IH; try done.
    + intros e He. split; [by eapply canon_element|].
      specialize (Hsr p t l e Ht Hk Hl He). lia.
Qed.

(** X7. [replace_type] is idempotent on a well-formed memory: once it
    has returned, a second call on the same descriptor returns the same
    kind and leaves the memory as it is; in return position, unless the
    first call returned LONGDOUBLE. *)
Theorem replace_type_idempotent fuel st p b st' k :
  wf_store rk st → is_Some (st !! p) →
  replace_type fuel st p b = Ret (st', k) →
  (b = true → k ≠ FFI_TYPE_LONGDOUBLE) →
  ∀ fuel', (rk p < fuel')%nat → replace_type fuel' st' p b = Ret (st', k).
Proof.
  intros Hwf Hp E Hb fuel' Hf. pose proof Hwf as (Hr & _).
  assert (HpN : p ≠ NULL) by (by eapply elem_not_null).
  destruct (replace_type_ranked rk _ _ _ _ _ _ Hr E) as (_ & _ & Hd & Hk & _).
  destruct (replace_type_canon rk _ _ _ _ _ _ Hwf E) as (Hc & _).
  destruct (replace_type_rewrite _ _ _ _ _ _ E) as (Hrw & _).
  assert (Hn' : st' !! NULL = None).
  { destruct (st' !! NULL) eqn:E2; [|done].
    assert (is_Some (st !! NULL)) as [? Hx] by (apply Hd; eauto).
    destruct Hr as (Hn & _). congruence. }
  rewrite <- (Hk HpN). apply replace_type_canon_total; try done.
  - by eapply struct_ranked_rewrite.
  - by apply Hc.
  - rewrite (Hk HpN). done.
Qed.

(** X8. Preparing a CIF twice in the wasix build: when the first
    [ffi_prep_cif_machdep] has returned and has not left a LONGDOUBLE
    return type, the second one returns the same memory, CIF and
    status. *)
Theorem prep_cif_twice_same fuel st cif st' cif' s :
  EMSCRIPTEN = false → wf_cif rk st cif →
  ffi_prep_cif_machdep fuel st cif = Ret (st', cif', s) →
  kind_at st' (rtype cif) ≠ FFI_TYPE_LONGDOUBLE →
  ∃ fuel0, ∀ fuel2, (fuel0 ≤ fuel2)%nat →
    ffi_prep_cif_machdep fuel2 st' cif' = Ret (st', cif', s).
Proof.
  intros Hem Hwf E Hld. pose proof Hwf as (Hws & Hlen & Hargs & Hrt).
  destruct (prep_cif_wasix rk _ _ _ _ _ _ Hem Hwf E) as (-> & -> & Hn & Ha & Hrc & _).
  destruct (prep_tail_cif_fields cif) as (Hf1 & Hf2 & Hf3 & Hf4 & Hf5).
  destruct (prep_types fuel st cif) as [r| | |] eqn:Ep;
    try (unfold ffi_prep_cif_machdep in E; rewrite Ep in E; discriminate).
  rewrite (ffi_prep_cif_machdep_tail _ _ _ _ Ep) in E.
  destruct (prep_types_wasix rk _ _ _ _ Hem Hwf Ep) as (st1 & st2 & k & -> & Ea & Er).
  injection E as <-.
  assert (Hsr : struct_ranked rk st2).
  { destruct (replace_args_canon rk _ _ _ _ Hws Hargs Ea) as ((Hr1 & _) & _).
    destruct (replace_type_rewrite _ _ _ _ _ _ Er) as (Hrw & _).
    by eapply struct_ranked_rewrite. }
  destruct (rank_bound rk (rtype cif :: arg_types cif)) as [r Hr].
  exists r. intros fuel2 Hfuel.
  assert (Hargs2 : ∀ l st0, st0 = st2 → (∀ a, a ∈ l → a ∈ arg_types cif) →
            replace_args fuel2 st0 l = Ret st2).
  { induction l as [|a l IHl]; intros st0 -> Hl; [done|]. simpl.
    rewrite (replace_type_canon_total fuel2 st2 a false); try done.
    - simpl. apply IHl; [done|]. intros; apply Hl. by right.
    - apply Ha, Hl. by left.
    - specialize (Hr a ltac:(right; apply Hl; by left)). lia. }
  assert (Hrt2 : replace_type fuel2 st2 (rtype cif) true
                 = Ret (st2, kind_at st2 (rtype cif))).
  { destruct (decide (rtype cif = NULL)) as [HN|HN].
    - rewrite HN. unfold kind_at. rewrite Hn.
      destruct fuel2; [specialize (Hr (rtype cif) ltac:(by left)); lia|done].
    - apply replace_type_canon_total; try done; [by apply Hrc|].
      specialize (Hr (rtype cif) ltac:(by left)). lia. }
  assert (Ep2 : prep_types fuel2 st2 (prep_tail_cif cif) = Ret (inr st2)).
  { unfold prep_types. rewrite Hem. unfold cif_args. rewrite Hf1, Hf3.
    rewrite decide_True by lia. rewrite <- Hlen, Nat2N.id, firstn_all. simpl.
    rewrite (Hargs2 _ _ eq_refl) by done. simpl. rewrite Hf2, Hrt2. done. }
  rewrite (ffi_prep_cif_machdep_tail _ _ _ _ Ep2).
  rewrite prep_tail_cif_idem. unfold prep_tail_status. by rewrite Hf1.
Qed.

(** X9. One descriptor for a long double result and a long double
    argument (the library has one [ffi_type_longdouble]): before
    [ffi_prep_cif_machdep] the type takes 16 bytes and two wasm values;
    after it the descriptor is a STRUCT, so that as an argument it takes
    4 bytes and one value, and [place_value] passes the address of the
    long double in place of its bits. *)
Theorem shared_longdouble_passed_by_address fuel st cif st' cif' s :
  EMSCRIPTEN = false → wf_cif rk st cif →
  kind_at st (rtype cif) = FFI_TYPE_LONGDOUBLE →
  ffi_prep_cif_machdep fuel st cif = Ret (st', cif', s) →
  (type_size st (rtype cif) = Ret 16 ∧ arguments_count st (rtype cif) = Ret 2) ∧
  kind_at st' (rtype cif) = FFI_TYPE_STRUCT ∧
  type_size st' (rtype cif) = Ret 4 ∧ arguments_count st' (rtype cif) = Ret 1 ∧
  ∀ v m cur, place_value st' (rtype cif) v m cur
             = Ret (store_32 m cur (Z.of_N v), cur + 4).
Proof.
  intros Hem Hwf Hk E. pose proof Hwf as (Hws & Hlen & Hargs & Hrt).
  set (a := rtype cif) in *.
  destruct (kind_at_is_Some st a) as [t Ht]; [congruence|].
  pose proof Hws as ((Hnull & _) & _).
  assert (HaN : a ≠ NULL) by (intros Ha; rewrite Ha in Ht; congruence).
  rewrite (kind_at_Some _ _ _ Ht) in Hk.
  split.
  { unfold type_size, arguments_count. rewrite decide_False by done.
    rewrite (proj2 (deref_Ret _ _ _) Ht). simpl. by rewrite Hk. }
  destruct (prep_types fuel st cif) as [r| | |] eqn:Ep;
    try (unfold ffi_prep_cif_machdep in E; rewrite Ep in E; discriminate).
  rewrite (ffi_prep_cif_machdep_tail _ _ _ _ Ep) in E.
  destruct (prep_types_wasix rk _ _ _ _ Hem Hwf Ep) as (st1 & st2 & k & -> & Ea & Er).
  injection E as <- _ _. fold a in Er.
  destruct (replace_args_canon rk _ _ _ _ Hws Hargs Ea) as (_ & _ & _ & Hp1 & _).
  assert (Hk1 : kind_at st1 a = FFI_TYPE_LONGDOUBLE).
  { destruct (Hp1 a) as [_ ->]; [|by rewrite (kind_at_Some _ _ _ Ht)].
    eapply canon_scalar; [exact Ht|congruence|congruence]. }
  destruct (kind_at_is_Some st1 a) as [t1 Ht1]; [congruence|].
  rewrite (kind_at_Some _ _ _ Ht1) in Hk1.
  assert (Hk2 : ∃ t2, st2 !! a = Some t2 ∧ ty_type t2 = FFI_TYPE_STRUCT).
  { destruct fuel as [|fuel]; [discriminate|]. simpl in Er.
    rewrite decide_False in Er by done.
    rewrite (proj2 (deref_Ret _ _ _) Ht1) in Er. simpl in Er. rewrite Hk1 in Er.
    inv_bind Er. inv_ret Er. eexists. by rewrite lookup_insert_eq. }
  destruct Hk2 as (t2 & Ht2 & Hk2).
  split; [by rewrite (kind_at_Some _ _ _ Ht2)|].
  unfold type_size, arguments_count, place_value. rewrite decide_False by done.
  rewrite (proj2 (deref_Ret _ _ _) Ht2). simpl. by rewrite Hk2.
Qed.

(** X10. Once a long double result has been prepared through a
    descriptor, [replace_type] aborts on every complex type whose element
    type is that descriptor, as [ffi_type_complex_longdouble] is for
    [ffi_type_longdouble]. *)
Theorem complex_aborts_after_longdouble_result fuel st p t st' k c tc l b fuel' :
  p ≠ NULL → st !! p = Some t → ty_type t = FFI_TYPE_LONGDOUBLE →
  replace_type fuel st p true = Ret (st', k) →
  c ≠ NULL → st !! c = Some tc → ty_type tc = FFI_TYPE_COMPLEX →
  ty_elements tc = Some (p :: l) →
  replace_type (S fuel') st' c b = Abort.
Proof.
  intros HpN Ht Hk E HcN Hc Hkc Hel.
  destruct fuel as [|fuel]; [discriminate|]. simpl in E.
  rewrite decide_False in E by done.
  rewrite (proj2 (deref_Ret _ _ _) Ht) in E. simpl in E. rewrite Hk in E.
  inv_bind E. inv_ret E.
  assert (p ≠ c) by (intros ->; congruence).
  match goal with |- replace_type _ ?s _ _ = _ => remember s as st' eqn:Hst' end.
  assert (Hc' : st' !! c = Some tc) by (by rewrite Hst', lookup_insert_ne).
  assert (Hp' : ∃ t', st' !! p = Some t' ∧ ty_type t' = FFI_TYPE_STRUCT).
  { eexists. rewrite Hst', lookup_insert_eq. done. }
  destruct Hp' as (t' & Hp' & Hk').
  simpl. rewrite decide_False by done.
  rewrite (proj2 (deref_Ret _ _ _) Hc'). simpl. rewrite Hkc, Hel. simpl.
  rewrite (proj2 (deref_Ret _ _ _) Hp'). simpl. by rewrite Hk'.
Qed.

End Idempotence.

Section PrepEntry.
Context {B : build} {H : host}.

Lemma complex_args_spec st l :
  (∀ a, a ∈ l → is_Some (st !! a)) →
  ∃ c, complex_args st l = Ret c ∧
       (c = true ↔ ∃ a, a ∈ l ∧ kind_at st a = FFI_TYPE_COMPLEX).
Proof.
  induction l as [|a l IH]; intros Hl; simpl.
  - exists false. split; [done|]. split; [done|]. intros (a & Ha & _).
    by apply elem_of_nil in Ha.
  - destruct (Hl a) as [t Ht]; [by left|].
    rewrite (proj2 (deref_Ret _ _ _) Ht). simpl.
    destruct (decide (ty_type t = FFI_TYPE_COMPLEX)) as [Hk|Hk].
    + exists true. split; [done|]. split; [|done]. intros _. exists a.
      split; [by left|]. by rewrite (kind_at_Some _ _ _ Ht).
    + destruct IH as (c & Hc & Hiff); [intros; apply Hl; by right|].
      exists c. split; [done|]. rewrite Hiff. split.
      * intros (a' & Ha' & Hk'). exists a'. split; [by right|done].
      * intros (a' & Ha' & Hk'). apply elem_of_cons in Ha' as [->|Ha'].
        -- by rewrite (kind_at_Some _ _ _ Ht) in Hk'.
        -- by exists a'.
Qed.

(** X11. The emscripten build of [ffi_prep_cif_machdep] rewrites no
    descriptor and returns for any CIF whose types are descriptors:
    FFI_BAD_ABI exactly when the ABI is not FFI_WASM32_EMSCRIPTEN;
    otherwise FFI_BAD_TYPEDEF exactly when the return type or one of the
    [nargs] argument types is COMPLEX, or [nargs] exceeds 1000; otherwise
    FFI_OK. The CIF is written only when no check on ABI or COMPLEX
    fails. *)
Theorem prep_cif_emscripten_status fuel st cif :
  EMSCRIPTEN = true → nargs cif ≤ N.of_nat (length (arg_types cif)) →
  (∀ a, a ∈ cif_roots cif → is_Some (st !! a)) →
  let complex := ∃ a, a ∈ cif_roots cif ∧ kind_at st a = FFI_TYPE_COMPLEX in
  ∃ cif' s,
    ffi_prep_cif_machdep fuel st cif = Ret (st, cif', s) ∧
    (s = FFI_BAD_ABI ↔ abi cif ≠ FFI_WASM32_EMSCRIPTEN) ∧
    (s = FFI_BAD_TYPEDEF ↔
     abi cif = FFI_WASM32_EMSCRIPTEN ∧ (complex ∨ MAX_ARGS < nargs cif)) ∧
    (s = FFI_OK ↔
     abi cif = FFI_WASM32_EMSCRIPTEN ∧ ¬ complex ∧ nargs cif ≤ MAX_ARGS) ∧
    (abi cif ≠ FFI_WASM32_EMSCRIPTEN ∨ complex → cif' = cif) ∧
    (abi cif = FFI_WASM32_EMSCRIPTEN → ¬ complex → cif' = prep_tail_cif cif).
Proof.
  intros Hem Hlen Hroots complex. unfold cif_roots in *.
  destruct (decide (abi cif ≠ FFI_WASM32_EMSCRIPTEN)) as [Habi|Habi].
  { exists cif, FFI_BAD_ABI. unfold ffi_prep_cif_machdep, prep_types.
    rewrite Hem. destruct (decide (abi cif ≠ FFI_WASM32_EMSCRIPTEN)); [|done]. simpl.
    split; [done|]. intuition (try discriminate; try lia). }
  apply dec_stable in Habi.
  destruct (Hroots (rtype cif)) as [rt Hrt]; [by left|].
  destruct (decide (ty_type rt = FFI_TYPE_COMPLEX)) as [Hrk|Hrk].
  { assert (complex).
    { exists (rtype cif). split; [by left|]. by rewrite (kind_at_Some _ _ _ Hrt). }
    exists cif, FFI_BAD_TYPEDEF. unfold ffi_prep_cif_machdep, prep_types.
    rewrite Hem. destruct (decide (abi cif ≠ FFI_WASM32_EMSCRIPTEN)); [done|].
    rewrite (proj2 (deref_Ret _ _ _) Hrt). simpl.
    destruct (decide (ty_type rt = FFI_TYPE_COMPLEX)); [|done]. simpl.
    split; [done|]. intuition (try discriminate; try lia). }
  destruct (complex_args_spec st (take (N.to_nat (nargs cif)) (arg_types cif)))
    as (c & Hc & Hiff); [intros; apply Hroots; by right|].
  assert (Hcx : complex ↔ c = true).
  { rewrite Hiff. split.
    - intros (a & Ha & Hk). apply elem_of_cons in Ha as [->|Ha]; [|by exists a].
      by rewrite (kind_at_Some _ _ _ Hrt) in Hk.
    - intros (a & Ha & Hk). exists a. split; [by right|done]. }
  assert (Ep : prep_types fuel st cif
               = Ret (if c then inl FFI_BAD_TYPEDEF else inr st)).
  { unfold prep_types. rewrite Hem.
    destruct (decide (abi cif ≠ FFI_WASM32_EMSCRIPTEN)); [done|].
    rewrite (proj2 (deref_Ret _ _ _) Hrt). simpl.
    destruct (decide (ty_type rt = FFI_TYPE_COMPLEX)); [done|].
    unfold cif_args. destruct (decide (nargs cif ≤ _)); [|done]. simpl.
    rewrite Hc. simpl.
    by destruct c. }
  rewrite (ffi_prep_cif_machdep_tail _ _ _ _ Ep). destruct c.
  - assert (complex) by (by apply Hcx).
    exists cif, FFI_BAD_TYPEDEF. split; [done|].
    intuition (try discriminate; try lia).
  - assert (¬ complex) by (rewrite Hcx; done).
    exists (prep_tail_cif cif), (prep_tail_status cif). split; [done|].
    unfold prep_tail_status.
    destruct (decide (MAX_ARGS < nargs cif));
      intuition (try discriminate; try lia).
Qed.

Lemma varargs_flag_set f : N.land (N.lor f VARARGS_FLAG) VARARGS_FLAG ≠ 0.
Proof.
  intros Hz. assert (Hb : N.testbit (N.land (N.lor f VARARGS_FLAG) VARARGS_FLAG) 0 = true).
  { rewrite N.land_spec, N.lor_spec. by rewrite orb_true_r. }
  rewrite Hz in Hb. done.
Qed.

Lemma prep_types_flags fuel st cif f n :
  prep_types fuel st (set_nfixedargs (set_flags cif f) n) = prep_types fuel st cif.
Proof. done. Qed.

(** X12. [ffi_prep_cif_machdep] after [ffi_prep_cif_machdep_var], in
    either build: the VARARGS bit is set and [nfixedargs] is still the
    count given to [ffi_prep_cif_machdep_var]; on a CIF whose VARARGS bit
    is clear an [ffi_prep_cif_machdep] that returns FFI_OK has set
    [nfixedargs] to [nargs]. *)
Theorem prep_cif_keeps_variadic_count fuel st cif n ntotal st' cif' s :
  ffi_prep_cif_machdep fuel st (ffi_prep_cif_machdep_var cif n ntotal).1
  = Ret (st', cif', s) →
  nfixedargs cif' = n ∧ flags cif' = N.lor (flags cif) VARARGS_FLAG ∧
  nargs cif' = nargs cif ∧
  ∀ st2 cif2, N.land (flags cif) VARARGS_FLAG = 0 →
    ffi_prep_cif_machdep fuel st cif = Ret (st2, cif2, FFI_OK) →
    nfixedargs cif2 = nargs cif ∧ flags cif2 = flags cif.
Proof.
  intros E.
  assert (Hv : (ffi_prep_cif_machdep_var cif n ntotal).1
               = set_nfixedargs (set_flags cif (N.lor (flags cif) VARARGS_FLAG)) n).
  { unfold ffi_prep_cif_machdep_var. destruct EMSCRIPTEN; [|done]. by case_decide. }
  rewrite Hv in E. clear Hv. unfold ffi_prep_cif_machdep in E.
  rewrite prep_types_flags in E. 
  split; [|split; [|split]].
  1-3: inv_bind E; destruct a as [s0|st0]; [by inv_ret E|];
       simpl in E;
       destruct (decide (N.land (N.lor (flags cif) VARARGS_FLAG) VARARGS_FLAG = 0))
         as [Hz|Hz]; [by apply varargs_flag_set in Hz|];
       simpl in E; case_decide; by inv_ret E.
  intros st2 cif2 Hfl E2. unfold ffi_prep_cif_machdep in E2.
  inv_bind E2. destruct a as [s0|st0].
  - inv_ret E2. clear E. 
    unfold prep_types in E0. destruct EMSCRIPTEN.
    + case_decide; [by inv_ret E0|]. inv_bind E0. case_decide; [by inv_ret E0|].
      do 2 inv_bind E0. by destruct a1.
    + do 3 inv_bind E0. by destruct a1.
  - destruct (decide (N.land (flags cif) VARARGS_FLAG = 0)); [|done].
    simpl in E2. case_decide; by inv_ret E2.
Qed.

(** X13. The emscripten build of [ffi_prep_cif_machdep_var] counts one
    slot for the pointer to the variadic arguments: for a 32-bit count it
    returns FFI_BAD_TYPEDEF from 1000 fixed arguments on, except that the
    count [2 ^ 32 - 1] wraps to 0 in [nfixedargs + 1] and is accepted. *)
Theorem prep_cif_var_emscripten cif n ntotal :
  EMSCRIPTEN = true → n < 2 ^ 32 →
  let r := ffi_prep_cif_machdep_var cif n ntotal in
  (r.2 = FFI_BAD_TYPEDEF ↔ MAX_ARGS ≤ n ∧ n ≠ 2 ^ 32 - 1) ∧
  (r.2 = FFI_OK ↔ n < MAX_ARGS ∨ n = 2 ^ 32 - 1) ∧
  nfixedargs r.1 = n ∧ flags r.1 = N.lor (flags cif) VARARGS_FLAG.
Proof.
  intros Hem Hn. simpl. unfold ffi_prep_cif_machdep_var. rewrite Hem. simpl.
  unfold MAX_ARGS.
  destruct (decide (n = 2 ^ 32 - 1)) as [->|Hne].
  - rewrite decide_False by (vm_compute; done). simpl.
    split; [split; [done|tauto]|]. split; [|done]. split; [by right|done].
  - rewrite N.mod_small by lia.
    destruct (decide (1000 < n + 1)); simpl.
    + split; [split; [intros _; split; [lia|done]|done]|].
      split; [|done]. split; [done|]. intros [?|?]; [lia|done].
    + split; [split; [done|lia]|]. split; [|done]. split; [intros _; left; lia|done].
Qed.

End PrepEntry.

Ltac exponent_cases k n :=
  lazymatch n with
  | O => lia
  | S ?n' =>
      destruct (decide (k = N.of_nat n')) as [->|?];
      [vm_compute; done | exponent_cases k n']
  end.

Section ClosureRoundTrip.
Context {CH : closure_host}.

#[local] Arguments store_bytes : simpl never.
#[local] Arguments load_bytes : simpl never.
#[local] Arguments encode_le : simpl never.
#[local] Arguments store_32 : simpl never.

(** For an alignment that is a power of two, the header in front of a
    closure is one alignment unit: 4 bytes when [ffi_closure] is aligned
    as a pointer is, its alignment when that is larger. *)
Lemma code_ptr_size_alignment k :
  k < 32 → alignof_ffi_closure = 2 ^ k →
  code_ptr_size = closure_alignment ∧ sizeof_pointer ≤ code_ptr_size < SIZE_MAX1.
Proof.
  intros Hk Ha. unfold code_ptr_size, closure_alignment. rewrite Ha. clear Ha.
  exponent_cases k 32%nat.
Qed.

(** X14. [ffi_closure_alloc] followed by [ffi_closure_free], for an
    [ffi_closure] alignment that is a power of two: the pointer returned
    lies one alignment unit above the block from [aligned_alloc] and is
    aligned as the block is; the table index the host reserved is left
    in the first 4 bytes of the block; and [ffi_closure_free] of the
    returned pointer releases that index and that block. *)
Theorem closure_alloc_free_roundtrip k size code m m2 closure :
  k < 32 → alignof_ffi_closure = 2 ^ k →
  let allocation :=
    aligned_alloc closure_alignment ((size + code_ptr_size) `mod` SIZE_MAX1) in
  let index := (wasix_closure_allocate m).2 `mod` SIZE_MAX1 in
  allocation + code_ptr_size < SIZE_MAX1 →
  ffi_closure_alloc size code m = Ret (m2, closure) →
  closure = allocation + closure_alignment ∧
  closure `mod` closure_alignment = allocation `mod` closure_alignment ∧
  load_unsigned m2 allocation 4 = Z.of_N index ∧
  ffi_closure_free closure m2
  = (if decide (wasix_closure_free index ≠ 0%Z) then Abort
     else Ret (mk_closure_release index allocation)).
Proof.
  intros Hk Ha allocation index Hfit E.
  destruct (code_ptr_size_alignment k Hk Ha) as (Hcps & Hlo & Hhi).
  unfold ffi_closure_alloc, impl_closure_alloc in E. fold allocation in E.
  unfold index. destruct (wasix_closure_allocate m) as [error idx]. simpl.
  destruct (decide (error ≠ 0%Z)); [done|]. simpl in E.
  destruct (decide (allocation = NULL)); [done|]. inv_ret E.
  rewrite N.mod_small by done.
  assert (Hload : load_unsigned
            (store_32 (store_32 m code (Z.of_N idx)) allocation
               (load_unsigned (store_32 m code (Z.of_N idx)) code 4)) allocation 4
          = Z.of_N (idx `mod` SIZE_MAX1)).
  { rewrite !load_store_32. rewrite Z.mod_mod by done.
    change (2 ^ 32)%Z with (Z.of_N SIZE_MAX1). by rewrite <- N2Z.inj_mod. }
  split; [by rewrite Hcps|]. split.
  { rewrite Hcps. rewrite <- N.Div0.add_mod_idemp_r, N.Div0.mod_same.
    by rewrite N.add_0_r. }
  split; [done|].
  unfold ffi_closure_free, impl_free_closure.
  replace ((allocation + code_ptr_size + SIZE_MAX1 - code_ptr_size) `mod` SIZE_MAX1)
    with allocation.
  2:{ replace (allocation + code_ptr_size + SIZE_MAX1 - code_ptr_size)
        with (allocation + 1 * SIZE_MAX1) by lia.
      rewrite N.Div0.mod_add. rewrite N.mod_small; [done|lia]. }
  rewrite Hload, N2Z.id. by destruct (decide _).
Qed.

End ClosureRoundTrip.

Section Unboxing.
Context {B : build} (rk : ptr → nat).

Lemma append_cons c (x y : string) : String c x +:+ y = String c (x +:+ y).
Proof. done. Qed.

Lemma append_assoc (x y z : string) : (x +:+ y) +:+ z = x +:+ (y +:+ z).
Proof. induction x as [|c x IH]; [done|]. by rewrite !append_cons, IH. Qed.

Lemma append_empty_r (x : string) : x +:+ EmptyString = x.
Proof. induction x as [|c x IH]; [done|]. by rewrite append_cons, IH. Qed.

Lemma wasm_types_chars_app ts ts' :
  wasm_types_chars (ts ++ ts') = wasm_types_chars ts +:+ wasm_types_chars ts'.
Proof.
  induction ts as [|t ts IH]; simpl; [done|]. by rewrite IH, append_assoc.
Qed.

Lemma unbox_loop_unboxed st fuel : ∀ p t p' k,
  st !! p = Some t → unbox_loop fuel st p (ty_type t) = Ret (p', k) →
  ∃ t', st !! p' = Some t' ∧ unboxed t' k.
Proof.
  induction fuel as [|fuel IH]; intros p t p' k Ht E; [discriminate|].
  simpl in E. destruct (decide (ty_type t = FFI_TYPE_STRUCT)) as [Hk|Hk].
  - rewrite (proj2 (deref_Ret _ _ _) Ht) in E. simpl in E.
    destruct (decide (16 < ty_size t)).
    { inv_ret E. exists t. split; [done|]. left. split; [done|]. by left. }
    destruct (ty_elements t) as [[|e [|e2 l]]|] eqn:Hl; try discriminate.
    + inv_ret E. exists t. split; [done|]. by right.
    + inv_bind E. apply deref_Ret in E0. by eapply IH.
    + inv_ret E. exists t. split; [done|]. left. split; [done|]. right. eauto.
  - inv_ret E. exists t. split; [done|]. by left.
Qed.

(** X15. [unbox_small_structs] returns a fixed point of itself: called
    again on the pointer it returned, it returns the same pair after at
    most one round of its loop; and a pair it returns holds the kind of
    the descriptor at the pointer, a STRUCT only when that has more than
    16 bytes or at least two elements, or VOID for a struct of at most 16
    bytes without elements. *)
Theorem unbox_small_structs_fixed_point fuel st p p' k :
  unbox_small_structs fuel st p = Ret (p', k) →
  (∃ t', st !! p' = Some t' ∧ unboxed t' k) ∧
  ∀ fuel', unbox_small_structs (S fuel') st p' = Ret (p', k).
Proof.
  intros E. unfold unbox_small_structs in E. inv_bind E. apply deref_Ret in E0.
  destruct (unbox_loop_unboxed _ _ _ _ _ _ E0 E) as (t' & Ht' & Hu).
  split; [by exists t'|]. intros fuel'. unfold unbox_small_structs.
  rewrite (proj2 (deref_Ret _ _ _) Ht'). simpl.
  destruct Hu as [[-> Hs]|(-> & Hk & Hsz & Hl)].
  - destruct (decide (ty_type t' = FFI_TYPE_STRUCT)) as [Hk|Hk]; [|done].
    rewrite (proj2 (deref_Ret _ _ _) Ht'). simpl.
    destruct (decide (16 < ty_size t')); [done|].
    destruct (Hs Hk) as [?|(a0 & b0 & l & ->)]; done.
  - rewrite decide_True by done. rewrite (proj2 (deref_Ret _ _ _) Ht'). simpl.
    rewrite decide_False by done. by rewrite Hl.
Qed.

(** On a canonical descriptor the loop ends on the descriptor's own
    kind. *)
Lemma unbox_loop_canon st fuel : ∀ p t,
  struct_ranked rk st → st !! p = Some t → canon st p → (rk p < fuel)%nat →
  ∃ p', unbox_loop fuel st p (ty_type t) = Ret (p', ty_type t).
Proof.
  induction fuel as [|fuel IH]; intros p t Hsr Ht Hc Hf; [lia|].
  simpl. destruct (decide (ty_type t = FFI_TYPE_STRUCT)) as [Hk|Hk]; [|eauto].
  rewrite (proj2 (deref_Ret _ _ _) Ht). simpl.
  destruct (decide (16 < ty_size t)); [eauto|].
  destruct (canon_node _ _ Hc) as (t0 & Ht0 & _ & Hs).
  assert (t0 = t) as -> by congruence.
  destruct (Hs Hk) as (_ & l & Hl & Hsh). rewrite Hl.
  destruct l as [|e [|e2 l]]; [|  |eauto].
  - destruct Hsh as [Hsh|(e & He & _)]; [simpl in Hsh; lia|done].
  - assert (Hke : kind_at st e = FFI_TYPE_STRUCT).
    { destruct Hsh as [Hsh|(e' & He & Hke)].
      - assert (length (nonvoid st [e]) ≤ 1)%nat; [|lia].
        unfold nonvoid. etrans; [apply length_filter|]. done.
      - assert (e' ∈ [e]) as He'.
        { assert (e' ∈ nonvoid st [e]) as Hin by (rewrite He; by left).
          by apply nonvoid_elem in Hin as [? _]. }
        apply elem_of_cons in He' as [->|He']; [done|by apply elem_of_nil in He']. }
    destruct (kind_at_is_Some st e) as [te Hte]; [congruence|].
    rewrite (proj2 (deref_Ret _ _ _) Hte). simpl.
    rewrite (kind_at_Some _ _ _ Hte) in Hke.
    destruct (IH e te Hsr Hte) as (p' & Hp').
    + eapply canon_element; eauto. by left.
    + specialize (Hsr p t [e] e Ht Hk Hl ltac:(by left)). lia.
    + exists p'. by rewrite Hp', Hke, Hk.
Qed.

Lemma unbox_canon st fuel p t :
  struct_ranked rk st → st !! p = Some t → canon st p → (rk p < fuel)%nat →
  ∃ p', unbox_small_structs fuel st p = Ret (p', ty_type t).
Proof.
  intros Hsr Ht Hc Hf. unfold unbox_small_structs.
  rewrite (proj2 (deref_Ret _ _ _) Ht). simpl. by apply unbox_loop_canon.
Qed.

Lemma unbox_args_canon st fuel l :
  struct_ranked rk st →
  (∀ a, a ∈ l → is_Some (st !! a) ∧ canon st a ∧ (rk a < fuel)%nat) →
  unbox_args fuel st l = Ret (map (kind_at st) l).
Proof.
  intros Hsr. induction l as [|a l IH]; intros Hl; simpl; [done|].
  destruct (Hl a) as ([t Ht] & Hc & Hf); [by left|].
  destruct (unbox_canon st fuel a t Hsr Ht Hc Hf) as (p' & ->). simpl.
  rewrite IH by (intros; apply Hl; by right). simpl.
  by rewrite (kind_at_Some _ _ _ Ht).
Qed.

Lemma sig_fixed_args_passable ids : ∀ sig,
  (∀ k, k ∈ ids → passable k = true ∧ k ≠ FFI_TYPE_VOID) →
  sig_fixed_args (length ids) ids sig
  = Ret (sig +:+ wasm_types_chars (concat (map kind_wasm_types ids))).
Proof.
  induction ids as [|k ids IH]; intros sig Hids; simpl.
  - by rewrite append_empty_r.
  - destruct (Hids k) as [Hp Hv]; [by left|].
    assert (Hc : sig_of_arg k = Ret (wasm_types_chars (kind_wasm_types k)))
      by (by destruct k).
    rewrite Hc. simpl. rewrite IH by (intros; apply Hids; by right).
    by rewrite wasm_types_chars_app, append_assoc.
Qed.

(** X16. The two builds derive the same signature for a closure. On a
    CIF that is not variadic, whose types are canonical, whose arguments
    are not void and whose return type is a descriptor, the string built
    by [ffi_prep_closure_loc_js] spells the wasm types that the wasix
    [ffi_prep_closure_loc] hands to its host, v standing for no result;
    and [ret_by_arg] holds exactly when the wasix return is indirect. *)
Theorem closure_signature_agrees fuel st cif :
  struct_ranked rk st → prepared_cif st cif → rtype cif ≠ NULL →
  nfixedargs cif = nargs cif →
  (∀ a, a ∈ rtype cif :: arg_types cif → canon st a ∧ (rk a < fuel)%nat) →
  (∀ a, a ∈ arg_types cif → kind_at st a ≠ FFI_TYPE_VOID) →
  let indirect := bool_decide (kind_at st (rtype cif) = FFI_TYPE_STRUCT) in
  let args := concat (map (fun a => kind_wasm_types (kind_at st a)) (arg_types cif)) in
  let argument_types := (if indirect then [FFI_WASM_TYPE_I32] else []) ++ args in
  let result_types := if indirect then [] else kind_wasm_types (kind_at st (rtype cif)) in
  closure_signature fuel st cif = Ret (wasm_sig result_types argument_types, indirect).
Proof.
  intros Hsr (Hnull & Hmax & Hlen & Hargs & Hrt) Hrn Hfix Hcanon Hnv.
  destruct Hrt as [?|(t & Ht & Hk)]; [done|].
  intros indirect args argument_types result_types.
  destruct (Hcanon (rtype cif)) as [Hrc Hrf]; [by left|].
  unfold closure_signature.
  destruct (unbox_canon st fuel _ t Hsr Ht Hrc Hrf) as (p' & ->). simpl.
  assert (Hsig : sig_of_rtype (ty_type t)
                 = Ret (wasm_sig result_types (if indirect then [FFI_WASM_TYPE_I32] else []),
                        indirect)).
  { unfold result_types, indirect. rewrite (kind_at_Some _ _ _ Ht).
    by destruct (ty_type t). }
  rewrite Hsig. simpl. unfold cif_args. rewrite decide_True by lia.
  rewrite <- Hlen, Nat2N.id, firstn_all. simpl.
  rewrite unbox_args_canon; [|done|].
  2:{ intros a Ha. destruct (Hargs a Ha) as (ta & Hta & _).
      destruct (Hcanon a) as [? ?]; [by right|]. eauto. }
  simpl. rewrite Hfix, <- Hlen, Nat2N.id.
  rewrite <- (length_map (kind_at st)).
  rewrite sig_fixed_args_passable.
  2:{ intros k Hk'. apply list_elem_of_fmap in Hk' as (a & -> & Ha).
      split; [|by apply Hnv]. destruct (Hargs a Ha) as (ta & Hta & Hp).
      by rewrite (kind_at_Some _ _ _ Hta). }
  simpl. rewrite decide_False by lia. do 2 f_equal.
  unfold wasm_sig, argument_types. rewrite wasm_types_chars_app, append_assoc.
  do 3 f_equal. unfold args. by rewrite map_map.
Qed.

End Unboxing.

Section Extension.
Context {B : build}.

#[local] Arguments store_bytes : simpl never.
#[local] Arguments load_bytes : simpl never.
#[local] Arguments encode_le : simpl never.
#[local] Arguments store_32 : simpl never.

(** X17. [place_value] widens the integers narrower than 32 bits as the
    wasm C ABI asks: the 32-bit slot it writes holds, read unsigned, the
    value of an unsigned 8-, 16- or 32-bit argument, and, read signed, the
    value of a signed one. *)
Theorem place_value_extends st type t value m values :
  st !! type = Some t →
  (∀ n, unsigned_width (ty_type t) = Some n →
     ∃ m', place_value st type value m values = Ret (m', values + 4) ∧
           load_unsigned m' values 4 = load_unsigned m value n) ∧
  (∀ n, signed_width (ty_type t) = Some n →
     ∃ m', place_value st type value m values = Ret (m', values + 4) ∧
           load_signed m' values 4 = load_signed m value n).
Proof.
  intros Ht. unfold place_value. rewrite (proj2 (deref_Ret _ _ _) Ht). simpl.
  split; intros n Hn; destruct (ty_type t); try discriminate; inv_ret Hn;
    eexists; (split; [reflexivity|]);
    first [apply place_value_zero_extends; lia | apply place_value_sign_extends; lia].
Qed.

Lemma replace_elements_fuel (rt1 rt2 : store → ptr → outcome (store * ffi_kind)) :
  (∀ st p r, rt1 st p = Ret r → rt2 st p = Ret r) →
  ∀ l st s n r, replace_elements rt1 l st s n = Ret r →
                replace_elements rt2 l st s n = Ret r.
Proof.
  intros Hrt. induction l as [|e l IH]; intros st s n r E; simpl in *; [done|].
  inv_bind E. rewrite (Hrt _ _ _ E0). simpl. destruct a as [st' k].
  destruct (is_void k); by apply IH.
Qed.

Lemma replace_type_fuel_S fuel :
  ∀ st p b r, replace_type fuel st p b = Ret r → replace_type (S fuel) st p b = Ret r.
Proof.
  induction fuel as [|fuel IH]; intros st p b r E; [discriminate|].
  remember (S fuel) as fuel1 eqn:Hf1. rewrite Hf1 in E at 1. simpl in E |- *.
  destruct (decide (p = NULL)); [done|].
  inv_bind E. rewrite E0. simpl.
  destruct (ty_type a); try done.
  destruct (decide (ty_size a = 0)); [done|].
  inv_bind E. rewrite E1. simpl. inv_bind E.
  rewrite (replace_elements_fuel (fun s e => replace_type fuel s e false)
             (fun s e => replace_type fuel1 s e false)
             ltac:(intros; subst fuel1; by apply IH) _ _ _ _ _ E2).
  done.
Qed.

Lemma replace_type_fuel_mono fuel fuel' st p b r :
  (fuel ≤ fuel')%nat → replace_type fuel st p b = Ret r →
  replace_type fuel' st p b = Ret r.
Proof.
  induction 1 as [|fuel' _ IH]; [done|]. intros E. by apply replace_type_fuel_S, IH.
Qed.

(** X18. On a well-formed memory the recursion of [replace_type] ends:
    for a descriptor or NULL it returns, and returns one and the same
    result whatever the recursion budget above the nesting rank of the
    descriptor. *)
Theorem replace_type_terminates rk st p b :
  ranked rk st → p = NULL ∨ is_Some (st !! p) →
  ∃ st' k, ∀ fuel, (rk p < fuel)%nat → replace_type fuel st p b = Ret (st', k).
Proof.
  intros Hr Hp.
  destruct (replace_type_total rk (S (rk p)) st p b Hr Hp ltac:(lia)) as (st' & k & E).
  exists st', k. intros fuel Hf. eapply replace_type_fuel_mono; [|exact E]. lia.
Qed.

End Extension.

Section StackAllocation.

Local Open Scope Z_scope.

Lemma to_int32_small z : -2 ^ 31 ≤ z < 2 ^ 31 → to_int32 z = z.
Proof. intros Hz. unfold to_int32. rewrite Z.mod_small; lia. Qed.

Lemma land_lnot_ones x k :
  0 ≤ k → Z.land x (Z.lnot (2 ^ k - 1)) = x / 2 ^ k * 2 ^ k.
Proof.
  intros Hk. rewrite <- Z.ldiff_land.
  replace (2 ^ k - 1) with (Z.ones k) by (rewrite Z.ones_equiv; lia).
  rewrite Z.ldiff_ones_r by done.
  by rewrite Z.shiftr_div_pow2, Z.shiftl_mul_pow2.
Qed.

(** X19. [STACK_ALLOC] for an alignment [2 ^ k]: while the stack
    pointer less the size is below [2 ^ 31] the new stack pointer is
    the multiple of the alignment at or next below it, so the block
    of [size] bytes lies under the old stack pointer; for an address from
    [2 ^ 31] up the 32-bit signed arithmetic of JavaScript makes the
    new stack pointer negative. *)
Theorem stack_alloc_aligned stack size k :
  0 ≤ k < 31 →
  let r := STACK_ALLOC stack size (2 ^ k) in
  (0 ≤ stack - size < 2 ^ 31 →
   0 ≤ r ∧ r `mod` 2 ^ k = 0 ∧ r ≤ stack - size < r + 2 ^ k) ∧
  (2 ^ 31 ≤ stack - size < 2 ^ 32 → r < 0).
Proof.
  intros Hk r. subst r. unfold STACK_ALLOC, ALIGN_ADDRESS.
  assert (Hp : 0 < 2 ^ k) by (apply Z.pow_pos_nonneg; lia).
  assert (Hp' : 2 ^ k < 2 ^ 31) by (apply Z.pow_lt_mono_r; lia).
  rewrite (to_int32_small (2 ^ k - 1)) by lia.
  split.
  - intros Hx. rewrite to_int32_small by lia.
    rewrite land_lnot_ones by lia.
    set (x := stack - size) in *.
    pose proof (Z.div_mod x (2 ^ k) ltac:(lia)) as Hdm.
    pose proof (Z.mod_pos_bound x (2 ^ k) Hp) as Hmb.
    assert (0 ≤ x / 2 ^ k) by (apply Z.div_pos; lia).
    split; [nia|]. split; [by rewrite Z.mod_mul by lia|]. nia.
  - intros Hx. apply Z.land_neg. split.
    + unfold to_int32.
      replace (stack - size + 2 ^ 31) with (stack - size - 2 ^ 31 + 1 * 2 ^ 32) by lia.
      rewrite Z.mod_add by lia. rewrite Z.mod_small by lia. lia.
    + apply Z.lnot_neg. lia.
Qed.

End StackAllocation.

Section LargeStructs.
Context {B : build}.

(** X20. A struct of more than 16 bytes described with a single element
    of a scalar kind: the wasix canonicaliser collapses it to that kind,
    so that it is passed as the scalar, while [unbox_small_structs] of
    the emscripten build keeps it a STRUCT. *)
Theorem large_single_element_struct st p t e te fuel b :
  p ≠ NULL → st !! p = Some t → ty_type t = FFI_TYPE_STRUCT → 16 < ty_size t →
  ty_elements t = Some [e] →
  e ≠ NULL → st !! e = Some te → plain_kind (ty_type te) = true →
  replace_type (S (S fuel)) st p b
  = Ret (<[p := set_type t (ty_type te)]> st, ty_type te) ∧
  unbox_small_structs (S fuel) st p = Ret (p, FFI_TYPE_STRUCT).
Proof.
  intros HpN Ht Hk Hsz Hl HeN Hte Hpk. split.
  - cbn [replace_type]. rewrite decide_False by done.
    rewrite (proj2 (deref_Ret _ _ _) Ht). cbn [mbind outcome_bind]. rewrite Hk.
    rewrite decide_False by lia. rewrite Hl. cbn [mbind outcome_bind replace_elements].
    rewrite decide_False by done.
    rewrite (proj2 (deref_Ret _ _ _) Hte). cbn [mbind outcome_bind].
    assert (Hv : is_void (ty_type te) = false) by (by destruct (ty_type te)).
    destruct (ty_type te) eqn:Hke; try discriminate; cbn [mbind outcome_bind is_void];
      rewrite (proj2 (deref_Ret _ _ _) Ht); cbn [mbind outcome_bind];
      by rewrite decide_False by lia.
  - unfold unbox_small_structs. rewrite (proj2 (deref_Ret _ _ _) Ht). simpl.
    rewrite Hk. rewrite decide_True by done.
    rewrite (proj2 (deref_Ret _ _ _) Ht). simpl. by rewrite decide_True by done.
Qed.

End LargeStructs.

Section LargeExamples.
#[local] Existing Instance wasix_build.

Lemma not_null_208 : 208 ≠ NULL.
Proof. discriminate. Qed.

Lemma not_null_80 : 80 ≠ NULL.
Proof. discriminate. Qed.

Lemma big_struct_size : 16 < ty_size (mk_ffi_type 24 4 FFI_TYPE_STRUCT (Some [80])).
Proof. done. Qed.

(** Witness of X20: the 24-byte struct at 208. *)
Lemma large_single_element_struct_witness :
  208 ≠ NULL ∧
  example_store_big !! 208 = Some (mk_ffi_type 24 4 FFI_TYPE_STRUCT (Some [80])) ∧
  ty_type (mk_ffi_type 24 4 FFI_TYPE_STRUCT (Some [80])) = FFI_TYPE_STRUCT ∧
  16 < ty_size (mk_ffi_type 24 4 FFI_TYPE_STRUCT (Some [80])) ∧
  ty_elements (mk_ffi_type 24 4 FFI_TYPE_STRUCT (Some [80])) = Some [80] ∧
  80 ≠ NULL ∧ example_store_big !! 80 = Some (scalar FFI_TYPE_SINT32 4 4) ∧
  plain_kind (ty_type (scalar FFI_TYPE_SINT32 4 4)) = true ∧
  replace_type (S (S 0)) example_store_big 208 false
  = Ret (<[208 := set_type (mk_ffi_type 24 4 FFI_TYPE_STRUCT (Some [80]))
                           (ty_type (scalar FFI_TYPE_SINT32 4 4))]> example_store_big,
         ty_type (scalar FFI_TYPE_SINT32 4 4)) ∧
  unbox_small_structs (S 0) example_store_big 208 = Ret (208, FFI_TYPE_STRUCT).
Proof.
  split; [exact not_null_208|]. split; [reflexivity|]. split; [reflexivity|].
  split; [exact big_struct_size|]. split; [reflexivity|]. split; [exact not_null_80|].
  split; [reflexivity|]. split; [reflexivity|].
  exact (large_single_element_struct example_store_big 208
           (mk_ffi_type 24 4 FFI_TYPE_STRUCT (Some [80])) 80 (scalar FFI_TYPE_SINT32 4 4)
           0 false not_null_208 eq_refl eq_refl big_struct_size eq_refl
           not_null_80 eq_refl eq_refl).
Defined.

End LargeExamples.

Section CallFrame.
Context {B : build} {H : host}.

#[local] Arguments store_bytes : simpl never.
#[local] Arguments load_bytes : simpl never.
#[local] Arguments encode_le : simpl never.
#[local] Arguments store_32 : simpl never.

Lemma place_values_frame st args : ∀ avalue m cur,
  (∀ a, a ∈ args → ∃ t, st !! a = Some t ∧ passable (ty_type t) = true) →
  (length args ≤ length avalue)%nat →
  ∃ m2, place_values st args avalue m cur = Ret (m2, cur + args_size st args) ∧
        ∀ x, x < cur ∨ cur + args_size st args ≤ x → m2 x = m x.
Proof.
  induction args as [|a args IH]; intros avalue m cur Hargs Hlen.
  - exists m. simpl. by rewrite N.add_0_r.
  - destruct avalue as [|v avalue]; [simpl in Hlen; lia|].
    destruct (Hargs a) as (t & Ht & Hp); [by left|].
    destruct (place_take_value st a t v m cur Ht Hp) as (m' & p & Hpl & Hfr & _).
    set (sz := abi_size (kind_at st a)) in *.
    assert (Hsum : args_size st (a :: args) = sz + args_size st args) by done.
    destruct (IH avalue m' (cur + sz)) as (m2 & Hpls & Hfr2).
    { intros; apply Hargs. by right. }
    { simpl in Hlen. lia. }
    rewrite Hsum, N.add_assoc. cbn [place_values]. rewrite Hpl.
    cbn [mbind outcome_bind]. rewrite Hpls. exists m2. split; [done|].
    intros x Hx. rewrite Hfr2 by lia. apply Hfr. lia.
Qed.

(** X21. On a prepared CIF the wasix [ffi_call] returns from its
    marshalling and has written nowhere but in its values buffer: every
    byte outside the [values_len] bytes at [values] that it passes to the
    host is as it was. *)
Theorem ffi_call_writes_only_buffer st cif fn rvalue avalue m values :
  prepared_cif st cif → (length (arg_types cif) ≤ length avalue)%nat →
  ∃ m2 cur c,
    ffi_call_request st cif fn rvalue avalue m values = Ret (m2, cur, c) ∧
    cd_values c = values ∧ cur = values + cd_values_len c ∧
    ∀ x, x < values ∨ values + cd_values_len c ≤ x → m2 x = m x.
Proof.
  intros (Hnull & Hmax & Hlen & Hargs & Hrt) Hav.
  assert (Hargs' : ∀ a, a ∈ arg_types cif →
            a ≠ NULL ∧ ∃ t, st !! a = Some t ∧ passable (ty_type t) = true).
  { intros a Ha. destruct (Hargs a Ha) as (t & Ht & Hp). split; [|eauto].
    intros ->. congruence. }
  pose proof (return_indirect_canonical st (rtype cif) Hrt) as Hri.
  set (indirect := bool_decide (rtype cif ≠ NULL ∧ kind_at st (rtype cif) = FFI_TYPE_STRUCT))
    in *.
  assert (Hrs : indirect = false →
            type_size st (rtype cif) = Ret (abi_size (kind_at st (rtype cif)))).
  { intros Hi. destruct Hrt as [Hr|(t & Ht & Hk)].
    - rewrite Hr. unfold type_size, kind_at. rewrite decide_True by done.
      by rewrite Hnull.
    - apply (type_size_passable _ _ t); [intros Hr; rewrite Hr in Ht; congruence|done|].
      by destruct (ty_type t). }
  assert (Hbound : 4 + 16 * N.of_nat (length (arg_types cif)) < SIZE_MAX1).
  { rewrite Hlen. unfold MAX_ARGS in Hmax. unfold SIZE_MAX1. simpl. lia. }
  unfold ffi_call_request. rewrite Hri. cbn [mbind outcome_bind].
  unfold cif_args. rewrite decide_True by lia.
  rewrite <- Hlen, Nat2N.id, firstn_all.
  destruct indirect eqn:Hind.
  - apply bool_decide_eq_true in Hind as [Hr Hk].
    destruct (kind_at_is_Some st (rtype cif)) as [t Ht]; [congruence|].
    assert (Hkt : ty_type t = FFI_TYPE_STRUCT) by (by rewrite <- (kind_at_Some _ _ _ Ht)).
    assert (Hst : type_size st (rtype cif) = Ret 4).
    { rewrite (type_size_passable _ _ t Hr Ht), Hk; [done|]. by rewrite Hkt. }
    rewrite Hst. cbn [mbind outcome_bind].
    rewrite N.mod_small by (unfold SIZE_MAX1; simpl; lia).
    rewrite sum_type_sizes_passable by (done || lia). cbn [mbind outcome_bind].
    destruct (place_values_frame st (arg_types cif) avalue
                (store_32 m values (Z.of_N rvalue)) (values + 4) Hargs Hav)
      as (m2 & Hpl & Hfr).
    rewrite Hpl. cbn [mbind outcome_bind].
    eexists m2, _, _. split; [reflexivity|]. cbn [cd_values cd_values_len].
    split; [done|]. split; [lia|].
    intros x Hx. rewrite Hfr by lia. apply store_32_frame. lia.
  - rewrite (Hrs eq_refl). cbn [mbind outcome_bind].
    rewrite sum_type_sizes_passable by (done || lia). cbn [mbind outcome_bind].
    destruct (place_values_frame st (arg_types cif) avalue m values Hargs Hav)
      as (m2 & Hpl & Hfr).
    rewrite Hpl. cbn [mbind outcome_bind].
    eexists m2, _, _. split; [reflexivity|]. cbn [cd_values cd_values_len].
    split; [done|]. split; [lia|].
    intros x Hx. apply Hfr. lia.
Qed.

End CallFrame.

Section CallFrameExamples.
#[local] Existing Instance wasix_build.
#[local] Existing Instance quiet_host.

Lemma cif_add_values : (length (arg_types cif_add) ≤ length [1000; 1004])%nat.
Proof. simpl. lia. Qed.

(** Witness of X21: [int add(int, int)]. *)
Lemma ffi_call_writes_only_buffer_witness :
  prepared_cif example_store cif_add ∧
  (length (arg_types cif_add) ≤ length [1000; 1004])%nat ∧
  ∃ m2 cur c,
    ffi_call_request example_store cif_add 7 3000 [1000; 1004] example_mem 2000
    = Ret (m2, cur, c) ∧
    cd_values c = 2000 ∧ cur = 2000 + cd_values_len c ∧
    ∀ x, x < 2000 ∨ 2000 + cd_values_len c ≤ x → m2 x = example_mem x.
Proof.
  split; [exact cif_add_prepared|]. split; [exact cif_add_values|].
  exact (ffi_call_writes_only_buffer example_store cif_add 7 3000 [1000; 1004]
           example_mem 2000 cif_add_prepared cif_add_values).
Defined.

End CallFrameExamples.

Section MoreExamples.
#[local] Existing Instance wasix_build.
#[local] Existing Instance quiet_host.

Ltac solve_elem :=
  repeat match goal with
         | H : _ ∈ _ :: _ |- _ => apply elem_of_cons in H as [->|H]
         | H : _ ∈ [] |- _ => by apply elem_of_nil in H
         end.

(** Witness of X1: a long double takes two i64, 16 bytes. *)
Lemma slots_agree_with_bytes_witness :
  64 ≠ NULL ∧ example_store !! 64 = Some (scalar FFI_TYPE_LONGDOUBLE 16 16) ∧
  passable (ty_type (scalar FFI_TYPE_LONGDOUBLE 16 16)) = true ∧
  ∃ ts, place_type example_store 64 [FFI_WASM_TYPE_I32] = Ret ([FFI_WASM_TYPE_I32] ++ ts) ∧
        arguments_count example_store 64 = Ret (N.of_nat (length ts)) ∧
        type_size example_store 64 = Ret (wasm_types_size ts).
Proof.
  assert (Hn : 64 ≠ NULL) by discriminate.
  split; [exact Hn|]. split; [reflexivity|]. split; [reflexivity|].
  exact (slots_agree_with_bytes example_store 64 (scalar FFI_TYPE_LONGDOUBLE 16 16)
           [FFI_WASM_TYPE_I32] Hn eq_refl eq_refl).
Defined.

Lemma cif_add_abi : abi cif_add ≠ FFI_WASM32_EMSCRIPTEN.
Proof. discriminate. Qed.

Lemma cif_add_rtype : rtype cif_add ≠ NULL.
Proof. discriminate. Qed.

(** Witness of X2: a closure for [int add(int, int)]. *)
Lemma prep_closure_loc_signature_witness :
  EMSCRIPTEN = false ∧ abi cif_add ≠ FFI_WASM32_EMSCRIPTEN ∧
  prepared_cif example_store cif_add ∧ rtype cif_add ≠ NULL ∧
  let indirect := bool_decide (kind_at example_store (rtype cif_add) = FFI_TYPE_STRUCT) in
  let args := concat (map (fun a => kind_wasm_types (kind_at example_store a))
                          (arg_types cif_add)) in
  let argument_types := (if indirect then [FFI_WASM_TYPE_I32] else []) ++ args in
  let result_types :=
    if indirect then [] else kind_wasm_types (kind_at example_store (rtype cif_add)) in
  let closure' := mk_ffi_closure 9 cif_add 5 6 in
  let request := mk_closure_prepare 9 argument_types (N.of_nat (length argument_types))
                   result_types (N.of_nat (length result_types)) closure' in
  (length result_types ≤ 1)%nat ∧
  ffi_prep_closure_loc example_store (mk_ffi_closure 0 cif_add 0 0) cif_add 5 6 9
  = (if decide (wasix_closure_prepare request ≠ 0%Z) then Abort
     else Ret (closure', FFI_OK)).
Proof.
  split; [reflexivity|]. split; [exact cif_add_abi|].
  split; [exact cif_add_prepared|]. split; [exact cif_add_rtype|].
  exact (prep_closure_loc_signature example_store (mk_ffi_closure 0 cif_add 0 0)
           cif_add 5 6 9 eq_refl cif_add_abi cif_add_prepared cif_add_rtype).
Defined.

Lemma cif_longdouble_abi : abi cif_longdouble ≠ FFI_WASM32_EMSCRIPTEN.
Proof. discriminate. Qed.

Lemma cif_longdouble_rtype : rtype cif_longdouble ≠ NULL.
Proof. discriminate. Qed.

(** Witness of X3: [long double h(int)] before it is prepared. *)
Lemma non_canonical_return_aborts_witness :
  EMSCRIPTEN = false ∧ abi cif_longdouble ≠ FFI_WASM32_EMSCRIPTEN ∧
  rtype cif_longdouble ≠ NULL ∧
  example_store !! rtype cif_longdouble = Some (scalar FFI_TYPE_LONGDOUBLE 16 16) ∧
  canonical_return_kind (ty_type (scalar FFI_TYPE_LONGDOUBLE 16 16)) = false ∧
  ffi_call example_store cif_longdouble 7 3000 [1000] example_mem 2000 = Abort ∧
  ffi_prep_closure_loc example_store (mk_ffi_closure 0 cif_longdouble 0 0)
                       cif_longdouble 5 6 9 = Abort.
Proof.
  split; [reflexivity|]. split; [exact cif_longdouble_abi|].
  split; [exact cif_longdouble_rtype|]. split; [reflexivity|]. split; [reflexivity|].
  exact (non_canonical_return_aborts example_store cif_longdouble
           (scalar FFI_TYPE_LONGDOUBLE 16 16) 7 3000 [1000] example_mem 2000
           (mk_ffi_closure 0 cif_longdouble 0 0) 5 6 9
           eq_refl cif_longdouble_abi cif_longdouble_rtype eq_refl eq_refl).
Defined.

Lemma cif_null_return_abi : abi cif_null_return ≠ FFI_WASM32_EMSCRIPTEN.
Proof. discriminate. Qed.

(** Witness of X4: a CIF without a return type. *)
Lemma prep_closure_loc_null_return_witness :
  EMSCRIPTEN = false ∧ abi cif_null_return ≠ FFI_WASM32_EMSCRIPTEN ∧
  example_store !! NULL = None ∧ rtype cif_null_return = NULL ∧
  return_indirect example_store (rtype cif_null_return) = Ret false ∧
  type_size example_store (rtype cif_null_return) = Ret 0 ∧
  ffi_prep_closure_loc example_store (mk_ffi_closure 0 cif_null_return 0 0)
                       cif_null_return 5 6 9 = Stuck.
Proof.
  split; [reflexivity|]. split; [exact cif_null_return_abi|].
  split; [reflexivity|]. split; [reflexivity|].
  exact (prep_closure_loc_null_return example_store (mk_ffi_closure 0 cif_null_return 0 0)
           cif_null_return 5 6 9 eq_refl cif_null_return_abi eq_refl eq_refl).
Defined.

Lemma cif_add_outside :
  ∀ i a v, arg_types cif_add !! i = Some a → [1000; 1004] !! i = Some v →
    outside (kind_at example_store a) v 2000
      ((if bool_decide (rtype cif_add ≠ NULL ∧
                        kind_at example_store (rtype cif_add) = FFI_TYPE_STRUCT)
        then 4 else 0) + args_size example_store (arg_types cif_add)).
Proof.
  intros [|[|i]] a v Ha Hv; simpl in Ha, Hv; try discriminate;
    inv_ret Ha; inv_ret Hv; left; vm_compute; discriminate.
Qed.

(** Witness of X5: [int add(int, int)] called with its arguments at 1000
    and 1004 through a values buffer at 2000. *)
Lemma closure_receives_call_values_witness :
  prepared_cif example_store cif_add ∧
  length [1000; 1004] = length (arg_types cif_add) ∧
  cl_cif (mk_ffi_closure 9 cif_add 5 6) = cif_add ∧
  let indirect := bool_decide (rtype cif_add ≠ NULL ∧
                               kind_at example_store (rtype cif_add) = FFI_TYPE_STRUCT) in
  let total := (if indirect then 4 else 0) + args_size example_store (arg_types cif_add) in
  (∀ i a v, arg_types cif_add !! i = Some a → [1000; 1004] !! i = Some v →
            outside (kind_at example_store a) v 2000 total) ∧
  ∃ m2 cur c ps,
    ffi_call_request example_store cif_add 7 3000 [1000; 1004] example_mem 2000
    = Ret (m2, cur, c) ∧
    closure_backing_function example_store (cd_values c) 4000
      (mk_ffi_closure 9 cif_add 5 6) m2
    = Ret (mk_handler_call (cl_fun (mk_ffi_closure 9 cif_add 5 6)) cif_add
             (if indirect then 3000 `mod` SIZE_MAX1 else 4000)
             ps (user_data (mk_ffi_closure 9 cif_add 5 6))) ∧
    length ps = length [1000; 1004] ∧
    ∀ i a v p, arg_types cif_add !! i = Some a → [1000; 1004] !! i = Some v →
               ps !! i = Some p → delivered example_mem m2 (kind_at example_store a) v p.
Proof.
  split; [exact cif_add_prepared|]. split; [reflexivity|]. split; [reflexivity|].
  split; [exact cif_add_outside|].
  exact (closure_receives_call_values example_store cif_add 7 3000 [1000; 1004]
           example_mem 2000 (mk_ffi_closure 9 cif_add 5 6) 4000
           cif_add_prepared eq_refl eq_refl cif_add_outside).
Defined.

(** Witness of X6: [struct one { int }] as an argument type. *)
Lemma replace_type_frame_witness :
  replace_type 2 example_store 160 false = Ret (example_store_one, FFI_TYPE_SINT32) ∧
  (∀ q, example_store !! q = None → example_store_one !! q = None) ∧
  (∀ q t, example_store !! q = Some t →
     ∃ t', example_store_one !! q = Some t' ∧
           node_rewrite (false && bool_decide (q = 160)) t t') ∧
  (∀ q t, example_store !! q = Some t → ty_type t ≠ FFI_TYPE_STRUCT →
     ty_type t ≠ FFI_TYPE_COMPLEX →
     ty_type t ≠ FFI_TYPE_LONGDOUBLE ∨ false = false ∨ q ≠ 160 →
     example_store_one !! q = Some t) ∧
  (∀ q t, example_store !! q = Some t → ty_type t = FFI_TYPE_STRUCT →
     ∃ k', example_store_one !! q
           = Some (mk_ffi_type (ty_size t) (ty_alignment t) k' (ty_elements t))) ∧
  FFI_TYPE_SINT32 ≠ FFI_TYPE_COMPLEX ∧
  (160 ≠ NULL → kind_at example_store_one 160 = FFI_TYPE_SINT32).
Proof.
  split; [exact struct_one_replace|].
  exact (replace_type_frame 2 example_store 160 false example_store_one FFI_TYPE_SINT32
           struct_one_replace).
Defined.

Lemma struct_one_present : is_Some (example_store !! 160).
Proof. eexists; reflexivity. Qed.

Lemma sint32_not_longdouble : false = true → FFI_TYPE_SINT32 ≠ FFI_TYPE_LONGDOUBLE.
Proof. discriminate. Qed.

(** Witness of X7: [struct one { int }] canonicalised twice. *)
Lemma replace_type_idempotent_witness :
  wf_store example_rank example_store ∧ is_Some (example_store !! 160) ∧
  replace_type 2 example_store 160 false = Ret (example_store_one, FFI_TYPE_SINT32) ∧
  (false = true → FFI_TYPE_SINT32 ≠ FFI_TYPE_LONGDOUBLE) ∧
  ∀ fuel', (example_rank 160 < fuel')%nat →
    replace_type fuel' example_store_one 160 false
    = Ret (example_store_one, FFI_TYPE_SINT32).
Proof.
  split; [exact example_store_wf|]. split; [exact struct_one_present|].
  split; [exact struct_one_replace|]. split; [exact sint32_not_longdouble|].
  exact (replace_type_idempotent example_rank 2 example_store 160 false
           example_store_one FFI_TYPE_SINT32
           example_store_wf struct_one_present struct_one_replace sint32_not_longdouble).
Defined.

Lemma cif_wrap_return_kind : kind_at example_store (rtype cif_wrap) ≠ FFI_TYPE_LONGDOUBLE.
Proof. discriminate. Qed.

(** Witness of X8: [void f(struct wrap)] prepared twice. *)
Lemma prep_cif_twice_same_witness :
  EMSCRIPTEN = false ∧ wf_cif example_rank example_store cif_wrap ∧
  ffi_prep_cif_machdep 3 example_store cif_wrap
  = Ret (example_store, mk_ffi_cif 1 1 [128] 96 0 1, FFI_OK) ∧
  kind_at example_store (rtype cif_wrap) ≠ FFI_TYPE_LONGDOUBLE ∧
  ∃ fuel0, ∀ fuel2, (fuel0 ≤ fuel2)%nat →
    ffi_prep_cif_machdep fuel2 example_store (mk_ffi_cif 1 1 [128] 96 0 1)
    = Ret (example_store, mk_ffi_cif 1 1 [128] 96 0 1, FFI_OK).
Proof.
  split; [reflexivity|]. split; [exact cif_wrap_wf|]. split; [exact cif_wrap_prep|].
  split; [exact cif_wrap_return_kind|].
  exact (prep_cif_twice_same example_rank 3 example_store cif_wrap _ _ _
           eq_refl cif_wrap_wf cif_wrap_prep cif_wrap_return_kind).
Defined.

(** Witness of X9: [long double h(int)]. *)
Lemma shared_longdouble_passed_by_address_witness :
  EMSCRIPTEN = false ∧ wf_cif example_rank example_store cif_longdouble ∧
  kind_at example_store (rtype cif_longdouble) = FFI_TYPE_LONGDOUBLE ∧
  ffi_prep_cif_machdep 3 example_store cif_longdouble
  = Ret (example_store_ld, mk_ffi_cif 1 1 [80] 64 0 1, FFI_OK) ∧
  (type_size example_store (rtype cif_longdouble) = Ret 16 ∧
   arguments_count example_store (rtype cif_longdouble) = Ret 2) ∧
  kind_at example_store_ld (rtype cif_longdouble) = FFI_TYPE_STRUCT ∧
  type_size example_store_ld (rtype cif_longdouble) = Ret 4 ∧
  arguments_count example_store_ld (rtype cif_longdouble) = Ret 1 ∧
  ∀ v m cur, place_value example_store_ld (rtype cif_longdouble) v m cur
             = Ret (store_32 m cur (Z.of_N v), cur + 4).
Proof.
  split; [reflexivity|]. split; [exact cif_longdouble_wf|]. split; [reflexivity|].
  split; [exact cif_longdouble_prep|].
  exact (shared_longdouble_passed_by_address example_rank 3 example_store cif_longdouble
           _ _ _ eq_refl cif_longdouble_wf eq_refl cif_longdouble_prep).
Defined.

Lemma longdouble_replace_complex :
  replace_type 1 example_store_complex 64 true
  = Ret (example_store_complex_ld, FFI_TYPE_STRUCT).
Proof. vm_compute. reflexivity. Qed.

Lemma not_null_64 : 64 ≠ NULL.
Proof. discriminate. Qed.

Lemma not_null_192 : 192 ≠ NULL.
Proof. discriminate. Qed.

(** Witness of X10: [ffi_type_complex_longdouble] after a long double
    result has been prepared. *)
Lemma complex_aborts_after_longdouble_result_witness :
  64 ≠ NULL ∧ example_store_complex !! 64 = Some (scalar FFI_TYPE_LONGDOUBLE 16 16) ∧
  ty_type (scalar FFI_TYPE_LONGDOUBLE 16 16) = FFI_TYPE_LONGDOUBLE ∧
  replace_type 1 example_store_complex 64 true
  = Ret (example_store_complex_ld, FFI_TYPE_STRUCT) ∧
  192 ≠ NULL ∧
  example_store_complex !! 192 = Some (mk_ffi_type 32 16 FFI_TYPE_COMPLEX (Some [64])) ∧
  ty_type (mk_ffi_type 32 16 FFI_TYPE_COMPLEX (Some [64])) = FFI_TYPE_COMPLEX ∧
  ty_elements (mk_ffi_type 32 16 FFI_TYPE_COMPLEX (Some [64])) = Some (64 :: []) ∧
  replace_type (S 5) example_store_complex_ld 192 false = Abort.
Proof.
  split; [exact not_null_64|]. split; [reflexivity|]. split; [reflexivity|].
  split; [exact longdouble_replace_complex|]. split; [exact not_null_192|].
  split; [reflexivity|]. split; [reflexivity|]. split; [reflexivity|].
  exact (complex_aborts_after_longdouble_result 1 example_store_complex 64
           (scalar FFI_TYPE_LONGDOUBLE 16 16) example_store_complex_ld FFI_TYPE_STRUCT
           192 (mk_ffi_type 32 16 FFI_TYPE_COMPLEX (Some [64])) [] false 5
           not_null_64 eq_refl eq_refl longdouble_replace_complex
           not_null_192 eq_refl eq_refl eq_refl).
Defined.

Lemma cif_add_var_prep :
  ffi_prep_cif_machdep 1 example_store (ffi_prep_cif_machdep_var cif_add 1 2).1
  = Ret (example_store, mk_ffi_cif 1 2 [80; 80] 80 1 1, FFI_OK).
Proof. vm_compute. reflexivity. Qed.

(** Witness of X12: [int add(int, ...)] with one fixed argument. *)
Lemma prep_cif_keeps_variadic_count_witness :
  ffi_prep_cif_machdep 1 example_store (ffi_prep_cif_machdep_var cif_add 1 2).1
  = Ret (example_store, mk_ffi_cif 1 2 [80; 80] 80 1 1, FFI_OK) ∧
  nfixedargs (mk_ffi_cif 1 2 [80; 80] 80 1 1) = 1 ∧
  flags (mk_ffi_cif 1 2 [80; 80] 80 1 1) = N.lor (flags cif_add) VARARGS_FLAG ∧
  nargs (mk_ffi_cif 1 2 [80; 80] 80 1 1) = nargs cif_add ∧
  ∀ st2 cif2, N.land (flags cif_add) VARARGS_FLAG = 0 →
    ffi_prep_cif_machdep 1 example_store cif_add = Ret (st2, cif2, FFI_OK) →
    nfixedargs cif2 = nargs cif_add ∧ flags cif2 = flags cif_add.
Proof.
  split; [exact cif_add_var_prep|].
  exact (prep_cif_keeps_variadic_count 1 example_store cif_add 1 2 _ _ _ cif_add_var_prep).
Defined.

Lemma struct_one_unbox :
  unbox_small_structs 2 example_store 160 = Ret (80, FFI_TYPE_SINT32).
Proof. vm_compute. reflexivity. Qed.

(** Witness of X15: [struct one { int }] unboxes to [int]. *)
Lemma unbox_small_structs_fixed_point_witness :
  unbox_small_structs 2 example_store 160 = Ret (80, FFI_TYPE_SINT32) ∧
  (∃ t', example_store !! 80 = Some t' ∧ unboxed t' FFI_TYPE_SINT32) ∧
  ∀ fuel', unbox_small_structs (S fuel') example_store 80 = Ret (80, FFI_TYPE_SINT32).
Proof.
  split; [exact struct_one_unbox|].
  exact (unbox_small_structs_fixed_point 2 example_store 160 80 FFI_TYPE_SINT32
           struct_one_unbox).
Defined.

Lemma example_store_struct_ranked : struct_ranked example_rank example_store.
Proof. apply ranked_struct_ranked, example_store_ranked. Qed.

Lemma cif_add_nfixedargs : nfixedargs cif_add = nargs cif_add.
Proof. reflexivity. Qed.

Lemma cif_add_canon :
  ∀ a, a ∈ rtype cif_add :: arg_types cif_add →
       canon example_store a ∧ (example_rank a < 100)%nat.
Proof.
  intros a Ha. simpl in Ha. solve_elem;
    (split; [eapply canon_scalar; [reflexivity|done|done] | vm_compute; lia]).
Qed.

Lemma cif_add_nonvoid :
  ∀ a, a ∈ arg_types cif_add → kind_at example_store a ≠ FFI_TYPE_VOID.
Proof. intros a Ha. simpl in Ha. solve_elem; discriminate. Qed.

(** Witness of X16: the closure signature of [int add(int, int)]. *)
Lemma closure_signature_agrees_witness :
  struct_ranked example_rank example_store ∧ prepared_cif example_store cif_add ∧
  rtype cif_add ≠ NULL ∧ nfixedargs cif_add = nargs cif_add ∧
  (∀ a, a ∈ rtype cif_add :: arg_types cif_add →
        canon example_store a ∧ (example_rank a < 100)%nat) ∧
  (∀ a, a ∈ arg_types cif_add → kind_at example_store a ≠ FFI_TYPE_VOID) ∧
  let indirect := bool_decide (kind_at example_store (rtype cif_add) = FFI_TYPE_STRUCT) in
  let args := concat (map (fun a => kind_wasm_types (kind_at example_store a))
                          (arg_types cif_add)) in
  let argument_types := (if indirect then [FFI_WASM_TYPE_I32] else []) ++ args in
  let result_types :=
    if indirect then [] else kind_wasm_types (kind_at example_store (rtype cif_add)) in
  closure_signature 100 example_store cif_add
  = Ret (wasm_sig result_types argument_types, indirect).
Proof.
  split; [exact example_store_struct_ranked|]. split; [exact cif_add_prepared|].
  split; [exact cif_add_rtype|]. split; [exact cif_add_nfixedargs|].
  split; [exact cif_add_canon|]. split; [exact cif_add_nonvoid|].
  exact (closure_signature_agrees example_rank 100 example_store cif_add
           example_store_struct_ranked cif_add_prepared cif_add_rtype
           cif_add_nfixedargs cif_add_canon cif_add_nonvoid).
Defined.

(** Witness of X17: the [short] -1 at address 1000. *)
Lemma place_value_extends_witness :
  example_store !! 176 = Some (scalar FFI_TYPE_SINT16 2 2) ∧
  (∀ n, unsigned_width (ty_type (scalar FFI_TYPE_SINT16 2 2)) = Some n →
     ∃ m', place_value example_store 176 1000 example_mem 2000 = Ret (m', 2000 + 4) ∧
           load_unsigned m' 2000 4 = load_unsigned example_mem 1000 n) ∧
  (∀ n, signed_width (ty_type (scalar FFI_TYPE_SINT16 2 2)) = Some n →
     ∃ m', place_value example_store 176 1000 example_mem 2000 = Ret (m', 2000 + 4) ∧
           load_signed m' 2000 4 = load_signed example_mem 1000 n).
Proof.
  split; [reflexivity|].
  exact (place_value_extends example_store 176 (scalar FFI_TYPE_SINT16 2 2)
           1000 example_mem 2000 eq_refl).
Defined.

Lemma struct_wrap_present : 128 = NULL ∨ is_Some (example_store !! 128).
Proof. right. eexists; reflexivity. Qed.

(** Witness of X18: [struct wrap]. *)
Lemma replace_type_terminates_witness :
  ranked example_rank example_store ∧ (128 = NULL ∨ is_Some (example_store !! 128)) ∧
  ∃ st' k, ∀ fuel, (example_rank 128 < fuel)%nat →
    replace_type fuel example_store 128 false = Ret (st', k).
Proof.
  split; [exact example_store_ranked|]. split; [exact struct_wrap_present|].
  exact (replace_type_terminates example_rank example_store 128 false
           example_store_ranked struct_wrap_present).
Defined.

End MoreExamples.

Section EmscriptenExamples.
#[local] Existing Instance emscripten_build.
#[local] Existing Instance quiet_host.

Lemma cif_emscripten_nargs :
  nargs cif_emscripten ≤ N.of_nat (length (arg_types cif_emscripten)).
Proof. done. Qed.

Lemma cif_emscripten_roots :
  ∀ a, a ∈ cif_roots cif_emscripten → is_Some (example_store !! a).
Proof.
  intros a Ha. apply elem_of_cons in Ha as [->|Ha]; [eexists; reflexivity|].
  by apply elem_of_nil in Ha.
Qed.

(** Witness of X11: [void k(void)] under the emscripten tag. *)
Lemma prep_cif_emscripten_status_witness :
  EMSCRIPTEN = true ∧
  nargs cif_emscripten ≤ N.of_nat (length (arg_types cif_emscripten)) ∧
  (∀ a, a ∈ cif_roots cif_emscripten → is_Some (example_store !! a)) ∧
  let complex := ∃ a, a ∈ cif_roots cif_emscripten ∧
                      kind_at example_store a = FFI_TYPE_COMPLEX in
  ∃ cif' s,
    ffi_prep_cif_machdep 0 example_store cif_emscripten = Ret (example_store, cif', s) ∧
    (s = FFI_BAD_ABI ↔ abi cif_emscripten ≠ FFI_WASM32_EMSCRIPTEN) ∧
    (s = FFI_BAD_TYPEDEF ↔
     abi cif_emscripten = FFI_WASM32_EMSCRIPTEN ∧
     (complex ∨ MAX_ARGS < nargs cif_emscripten)) ∧
    (s = FFI_OK ↔
     abi cif_emscripten = FFI_WASM32_EMSCRIPTEN ∧ ¬ complex ∧
     nargs cif_emscripten ≤ MAX_ARGS) ∧
    (abi cif_emscripten ≠ FFI_WASM32_EMSCRIPTEN ∨ complex → cif' = cif_emscripten) ∧
    (abi cif_emscripten = FFI_WASM32_EMSCRIPTEN → ¬ complex →
     cif' = prep_tail_cif cif_emscripten).
Proof.
  split; [reflexivity|]. split; [exact cif_emscripten_nargs|].
  split; [exact cif_emscripten_roots|].
  exact (prep_cif_emscripten_status 0 example_store cif_emscripten
           eq_refl cif_emscripten_nargs cif_emscripten_roots).
Defined.

Lemma thousand_fits : 1000 < 2 ^ 32.
Proof. done. Qed.

(** Witness of X13: a variadic CIF with 1000 fixed arguments. *)
Lemma prep_cif_var_emscripten_witness :
  EMSCRIPTEN = true ∧ 1000 < 2 ^ 32 ∧
  let r := ffi_prep_cif_machdep_var cif_emscripten 1000 1001 in
  (r.2 = FFI_BAD_TYPEDEF ↔ MAX_ARGS ≤ 1000 ∧ 1000 ≠ 2 ^ 32 - 1) ∧
  (r.2 = FFI_OK ↔ 1000 < MAX_ARGS ∨ 1000 = 2 ^ 32 - 1) ∧
  nfixedargs r.1 = 1000 ∧ flags r.1 = N.lor (flags cif_emscripten) VARARGS_FLAG.
Proof.
  split; [reflexivity|]. split; [exact thousand_fits|].
  exact (prep_cif_var_emscripten cif_emscripten 1000 1001 eq_refl thousand_fits).
Defined.

End EmscriptenExamples.

Section ClosureExamples.
#[local] Existing Instance example_closure_host.

Lemma example_alignment_exponent : 2 < 32.
Proof. done. Qed.

Lemma example_alignment : alignof_ffi_closure = 2 ^ 2.
Proof. reflexivity. Qed.

Lemma example_allocation_fits :
  aligned_alloc closure_alignment ((16 + code_ptr_size) `mod` SIZE_MAX1) + code_ptr_size
  < SIZE_MAX1.
Proof. by vm_compute. Qed.

Lemma example_closure_alloc :
  ffi_closure_alloc 16 500 example_mem
  = Ret (store_32 (store_32 example_mem 500 7) 4096
           (load_unsigned (store_32 example_mem 500 7) 500 4), 4100).
Proof. reflexivity. Qed.

(** Witness of X14: a closure of 16 bytes whose table index is written
    at address 500. *)
Lemma closure_alloc_free_roundtrip_witness :
  2 < 32 ∧ alignof_ffi_closure = 2 ^ 2 ∧
  let allocation :=
    aligned_alloc closure_alignment ((16 + code_ptr_size) `mod` SIZE_MAX1) in
  let index := (wasix_closure_allocate example_mem).2 `mod` SIZE_MAX1 in
  let m2 := store_32 (store_32 example_mem 500 7) 4096
              (load_unsigned (store_32 example_mem 500 7) 500 4) in
  allocation + code_ptr_size < SIZE_MAX1 ∧
  ffi_closure_alloc 16 500 example_mem = Ret (m2, 4100) ∧
  4100 = allocation + closure_alignment ∧
  4100 `mod` closure_alignment = allocation `mod` closure_alignment ∧
  load_unsigned m2 allocation 4 = Z.of_N index ∧
  ffi_closure_free 4100 m2
  = (if decide (wasix_closure_free index ≠ 0%Z) then Abort
     else Ret (mk_closure_release index allocation)).
Proof.
  split; [exact example_alignment_exponent|]. split; [exact example_alignment|].
  split; [exact example_allocation_fits|]. split; [exact example_closure_alloc|].
  exact (closure_alloc_free_roundtrip 2 16 500 example_mem _ 4100
           example_alignment_exponent example_alignment
           example_allocation_fits example_closure_alloc).
Defined.

End ClosureExamples.

Lemma three_in_range : (0 ≤ 3 < 31)%Z.
Proof. lia. Qed.

(** Witness of X19: 13 bytes aligned to 8 under a stack pointer of
    1000. *)
Lemma stack_alloc_aligned_witness :
  (0 ≤ 3 < 31)%Z ∧
  let r := STACK_ALLOC 1000 13 (2 ^ 3) in
  ((0 ≤ 1000 - 13 < 2 ^ 31)%Z →
   (0 ≤ r)%Z ∧ (r `mod` 2 ^ 3 = 0)%Z ∧ (r ≤ 1000 - 13 < r + 2 ^ 3)%Z) ∧
  ((2 ^ 31 ≤ 1000 - 13 < 2 ^ 32)%Z → (r < 0)%Z).
Proof.
  split; [exact three_in_range|].
  exact (stack_alloc_aligned 1000 13 3 three_in_range).
Defined.
